(** * Splink clustering and u-estimation core: a shallow embedding

    The development follows three source files:
    - [splink/internals/connected_components.py]: the SQL pipeline that
      clusters records, embedded as list-valued relational operators;
    - [splink/internals/estimate_u.py]: the sample-size arithmetic and the
      write-back of trained u probabilities;
    - [splink/comparison_creator.py]: the distribution of configured m and u
      probabilities over comparison levels.

    SQL tables are lists of rows, a nullable column is an [option], and a
    predicate of SQL's three-valued logic is an [option bool].  Node ids are
    non-null integers, compared as integers.  Python
    integers are [Z]; Python floats are idealised as real numbers, so that
    rounding is outside the model; a Python exception is an explicit
    [Raise] result. *)

From Stdlib Require Import String ZArith QArith Reals Lra Lia.
From Stdlib Require Import List Bool Permutation Sorted Relations.
Import ListNotations.

(** ** Relational operators used by the clustering queries *)

Module Sql.

Local Open Scope Z_scope.

(** [UNION] removes duplicate rows; [UNION ALL] is plain concatenation. *)
Definition union {A : Type} (eq_dec : forall x y : A, {x = y} + {x <> y})
  (l1 l2 : list A) : list A :=
  nodup eq_dec (l1 ++ l2).

(** [a LEFT JOIN b ON on]: every row of [a] survives; it is paired with each
    matching row of [b], or with NULL when none matches. *)
Definition left_join {A B : Type} (on : A -> B -> bool)
  (a : list A) (b : list B) : list (A * option B) :=
  flat_map (fun x =>
    match filter (on x) b with
    | [] => [(x, None)]
    | ms => map (fun y => (x, Some y)) ms
    end) a.

(** [a INNER JOIN b ON on]. *)
Definition inner_join {A B : Type} (on : A -> B -> bool)
  (a : list A) (b : list B) : list (A * B) :=
  flat_map (fun x => map (fun y => (x, y)) (filter (on x) b)) a.

(** [x = y] on nullable integers, as a join condition: NULL matches
    nothing. *)
Definition eq_on (x y : option Z) : bool :=
  match x, y with
  | Some a, Some b => a =? b
  | _, _ => false
  end.

(** [x <> y] in three-valued logic. *)
Definition neq (x y : option Z) : option bool :=
  match x, y with
  | Some a, Some b => Some (negb (a =? b))
  | _, _ => None
  end.

(** [coalesce(x, d)] with a non-null default. *)
Definition coalesce (x : option Z) (d : Z) : Z :=
  match x with
  | Some v => v
  | None => d
  end.

(** The aggregate [min(col)]: NULLs are skipped, and the result is NULL when
    no non-null value was seen. *)
Fixpoint agg_min (l : list (option Z)) : option Z :=
  match l with
  | [] => None
  | None :: tl => agg_min tl
  | Some v :: tl =>
      match agg_min tl with
      | None => Some v
      | Some w => Some (Z.min v w)
      end
  end.

(** [select k, min(v) from rows group by k]: one row per distinct key. *)
Definition group_by_min (rows : list (Z * option Z)) : list (Z * option Z) :=
  map (fun k =>
         (k, agg_min (map snd (filter (fun r => fst r =? k) rows))))
      (nodup Z.eq_dec (map fst rows)).

(** [ORDER BY]: a stable insertion sort on a boolean comparison. *)
Fixpoint insert_by {A : Type} (leb : A -> A -> bool) (x : A) (l : list A)
  : list A :=
  match l with
  | [] => [x]
  | y :: tl => if leb x y then x :: y :: tl else y :: insert_by leb x tl
  end.

Definition order_by {A : Type} (leb : A -> A -> bool) (l : list A) : list A :=
  fold_right (insert_by leb) [] l.

Definition is_null (x : option Z) : bool :=
  match x with
  | None => true
  | Some _ => false
  end.

(** [x IN (select ...)] in three-valued logic: FALSE on an empty subquery,
    NULL for a NULL probe, TRUE on a hit, NULL when there is no hit but the
    subquery holds a NULL, FALSE otherwise. *)
Definition is_in (x : option Z) (l : list (option Z)) : option bool :=
  match l with
  | [] => Some false
  | _ =>
      match x with
      | None => None
      | Some v =>
          if existsb (eq_on (Some v)) l then Some true
          else if existsb is_null l then None
          else Some false
      end
  end.

Definition not3 (b : option bool) : option bool := option_map negb b.

(** A [WHERE] clause keeps the rows on which the predicate is TRUE. *)
Definition holds (b : option bool) : bool :=
  match b with
  | Some true => true
  | _ => false
  end.

(** DuckDB's [list_distinct] drops NULLs and duplicates; [list_sort] sorts
    increasingly. *)
Fixpoint drop_nulls (l : list (option Z)) : list Z :=
  match l with
  | [] => []
  | None :: tl => drop_nulls tl
  | Some v :: tl => v :: drop_nulls tl
  end.

Definition list_distinct (l : list (option Z)) : list Z :=
  nodup Z.eq_dec (drop_nulls l).

Definition list_sort (l : list Z) : list Z := order_by Z.leb l.

Definition opt_eq_dec : forall x y : option Z, {x = y} + {x <> y}.
Proof. decide equality; apply Z.eq_dec. Defined.

Definition pair_eq_dec : forall x y : Z * Z, {x = y} + {x <> y}.
Proof. decide equality; apply Z.eq_dec. Defined.

Definition nrow_eq_dec : forall x y : Z * option Z, {x = y} + {x <> y}.
Proof. decide equality; [apply opt_eq_dec | apply Z.eq_dec]. Defined.

End Sql.

(** ** The connected-components pipeline
    ([splink/internals/connected_components.py]) *)

Module ConnectedComponents.

Local Open Scope Z_scope.

(** A row of the caller's edges table: the two id columns and
    [match_probability]. *)
Record edge_row : Type := mk_edge {
  edge_id_left : Z;
  edge_id_right : Z;
  match_probability : Q
}.

(** A row of a representatives table. *)
Record rep_row : Type := mk_rep {
  node_id : Z;
  representative : option Z;
  rep_match : option bool
}.

(** [where match_probability >= threshold], or no clause at all when the
    threshold is [None]. *)
Definition match_prob_expr (threshold_match_probability : option Q)
  (e : edge_row) : bool :=
  match threshold_match_probability with
  | None => true
  | Some t => Qle_bool t (match_probability e)
  end.

(** [__splink__edges]: the retained edges, [UNION] a self link for every
    row of the nodes table. *)
Definition splink_edges (nodes : list Z) (edges : list edge_row)
  (threshold_match_probability : option Q) : list (Z * Z) :=
  Sql.union Sql.pair_eq_dec
    (map (fun e => (edge_id_left e, edge_id_right e))
         (filter (match_prob_expr threshold_match_probability) edges))
    (map (fun n => (n, n)) nodes).

(** [_cc_generate_neighbours_representation]: columns [node_id],
    [neighbour]. *)
Definition _cc_generate_neighbours_representation (nodes : list Z)
  (splink__edges : list (Z * Z)) : list (Z * option Z) :=
  Sql.union Sql.nrow_eq_dec
    (map (fun ne => (fst ne, option_map snd (snd ne)))
         (Sql.left_join (fun n e_l => n =? fst e_l) nodes splink__edges))
    (map (fun ne => (fst ne,
                     Some (Sql.coalesce (option_map fst (snd ne)) (fst ne))))
         (Sql.left_join (fun n e_r => n =? snd e_r) nodes splink__edges)).

(** [order by node_id]. *)
Definition by_node_id (a b : Z * option Z) : bool := fst a <=? fst b.

(** [_cc_generate_initial_representatives_table]: columns [node_id],
    [representative]. *)
Definition _cc_generate_initial_representatives_table
  (neighbours : list (Z * option Z)) : list (Z * option Z) :=
  Sql.order_by by_node_id (Sql.group_by_min neighbours).

(** [_cc_update_neighbours_first_iter]. *)
Definition _cc_update_neighbours_first_iter
  (neighbours representatives : list (Z * option Z)) : list (Z * option Z) :=
  Sql.order_by by_node_id
    (Sql.group_by_min
       (map (fun j => (fst (fst j),
                       match snd j with
                       | Some r => snd r
                       | None => None
                       end))
            (Sql.left_join (fun nb r => Sql.eq_on (snd nb) (Some (fst r)))
               neighbours representatives))).

(** [_cc_update_representatives_first_iter]. *)
Definition _cc_update_representatives_first_iter
  (neighbours_first_iter representatives : list (Z * option Z))
  : list rep_row :=
  map (fun j => mk_rep (fst (fst j)) (snd (fst j))
                       (Sql.neq (snd (fst j)) (snd (snd j))))
      (Sql.inner_join (fun n r => fst n =? fst r)
         neighbours_first_iter representatives).

(** [rep_match = True] and [rep_match = False]: a NULL flag satisfies
    neither. *)
Definition is_true (b : option bool) : bool :=
  match b with Some true => true | _ => false end.

Definition is_false (b : option bool) : bool :=
  match b with Some false => true | _ => false end.

(** [_cc_generate_representatives_loop_cond]: table [r]. *)
Definition _cc_generate_representatives_loop_cond
  (neighbours : list (Z * option Z)) (prev_representatives : list rep_row)
  : list (Z * option Z) :=
  Sql.group_by_min
    (map (fun j => (fst (fst j), representative (snd j)))
         (filter (fun j => is_true (rep_match (snd j)))
            (Sql.inner_join
               (fun nb r => Sql.eq_on (snd nb) (Some (node_id r)))
               neighbours prev_representatives))
     ++
     map (fun p => (node_id p, representative p))
         (filter (fun p => is_false (rep_match p)) prev_representatives)).

(** [_cc_update_representatives_loop_cond]. *)
Definition _cc_update_representatives_loop_cond
  (r : list (Z * option Z)) (prev_representatives : list rep_row)
  : list rep_row :=
  map (fun j => mk_rep (fst (fst j)) (snd (fst j))
                       (Sql.neq (snd (fst j))
                          (match snd j with
                           | Some p => representative p
                           | None => None
                           end)))
      (Sql.left_join (fun x p => fst x =? node_id p) r prev_representatives).

(** [_cc_assess_exit_condition]: [count( * ) ... where rep_match]. *)
Definition _cc_assess_exit_condition (representatives : list rep_row) : Z :=
  Z.of_nat (List.length
              (filter (fun p => Sql.holds (rep_match p)) representatives)).

(** One row of [cluster_composition_current]. *)
Record composition_row : Type := mk_composition {
  comp_representative : option Z;
  distinct_node_ids : list Z;
  distinct_neighbours : list Z
}.

(** [group by representative]: equal values, NULLs together. *)
Definition same_group (x y : option Z) : bool :=
  if Sql.opt_eq_dec x y then true else false.

(** [cluster_composition_current]: the rows of [representatives] joined to
    their neighbours and grouped by [representative]. *)
Definition cluster_composition_current (representatives : list rep_row)
  (neighbours : list (Z * option Z)) : list composition_row :=
  let joined :=
    Sql.left_join (fun r nb => node_id r =? fst nb)
      (Sql.order_by (fun a b => node_id a <=? node_id b) representatives)
      neighbours in
  map (fun c =>
         let grp :=
           filter (fun j => same_group (representative (fst j)) c) joined in
         mk_composition c
           (Sql.list_sort
              (Sql.list_distinct (map (fun j => Some (node_id (fst j))) grp)))
           (Sql.list_sort
              (Sql.list_distinct
                 (map (fun j => match snd j with
                                | Some nb => snd nb
                                | None => None
                                end) grp))))
      (nodup Sql.opt_eq_dec (map (fun j => representative (fst j)) joined)).

(** [distinct_node_ids = distinct_neighbours] on two lists. *)
Definition ids_eqb (a b : list Z) : bool :=
  if list_eq_dec Z.eq_dec a b then true else false.

(** [stable_clusters]. *)
Definition stable_clusters (composition : list composition_row)
  : list (option Z * list Z) :=
  map (fun c => (comp_representative c, distinct_node_ids c))
      (filter (fun c => ids_eqb (distinct_node_ids c) (distinct_neighbours c))
         composition).

(** [__splink__representatives_stable]. *)
Definition representatives_stable (representatives : list rep_row)
  (stable : list (option Z * list Z)) : list rep_row :=
  filter (fun p => Sql.holds (Sql.is_in (representative p) (map fst stable)))
    representatives.

(** [representatives_thinned]. *)
Definition representatives_thinned (representatives stable_rows : list rep_row)
  : list rep_row :=
  filter (fun p =>
            Sql.holds (Sql.not3 (Sql.is_in (representative p)
                                   (map representative stable_rows))))
    representatives.

(** The state carried from one turn of the [while] loop to the next. *)
Record loop_state : Type := mk_state {
  prev_representatives_table : list rep_row;
  converged_repr_tables : list (list rep_row);
  root_rows_count : Z
}.

(** The body of the [while] loop. *)
Definition loop_body (neighbours : list (Z * option Z)) (s : loop_state)
  : loop_state :=
  let prev := prev_representatives_table s in
  let r := _cc_generate_representatives_loop_cond neighbours prev in
  let representatives := _cc_update_representatives_loop_cond r prev in
  let stable :=
    stable_clusters (cluster_composition_current representatives neighbours) in
  let stable_rows := representatives_stable representatives stable in
  let thinned := representatives_thinned representatives stable_rows in
  mk_state thinned (converged_repr_tables s ++ [stable_rows])
           (_cc_assess_exit_condition thinned).

(** [while root_rows_count > 0]: [None] when the fuel runs out first. *)
Fixpoint while_loop (fuel : nat) (neighbours : list (Z * option Z))
  (s : loop_state) : option loop_state :=
  if 0 <? root_rows_count s then
    match fuel with
    | O => None
    | S fuel' => while_loop fuel' neighbours (loop_body neighbours s)
    end
  else Some s.

(** [order by cluster_id, node_id]; a NULL cluster id sorts last, as in
    DuckDB and Postgres. *)
Definition by_cluster_then_node (a b : option Z * Z) : bool :=
  match fst a, fst b with
  | None, None => snd a <=? snd b
  | None, Some _ => false
  | Some _, None => true
  | Some x, Some y => (x <? y) || ((x =? y) && (snd a <=? snd b))
  end.

(** [__splink__clustering_output_final]: columns [cluster_id], node id. *)
Definition clustering_output_final (converged : list (list rep_row))
  : list (option Z * Z) :=
  Sql.order_by by_cluster_then_node
    (map (fun p => (representative p, node_id p)) (concat converged)).

(** The table [__splink__df_representatives] that enters the loop. *)
Definition initial_representatives (neighbours : list (Z * option Z))
  : list rep_row :=
  let representatives :=
    _cc_generate_initial_representatives_table neighbours in
  let neighbours_first_iter :=
    _cc_update_neighbours_first_iter neighbours representatives in
  _cc_update_representatives_first_iter neighbours_first_iter representatives.

Definition neighbours_of (nodes : list Z) (edges : list edge_row)
  (threshold_match_probability : option Q) : list (Z * option Z) :=
  _cc_generate_neighbours_representation nodes
    (splink_edges nodes edges threshold_match_probability).

Definition initial_state (neighbours : list (Z * option Z)) : loop_state :=
  mk_state (initial_representatives neighbours) [] 1.

(** [solve_connected_components]. *)
Definition solve_connected_components (fuel : nat) (nodes : list Z)
  (edges : list edge_row) (threshold_match_probability : option Q)
  : option (list (option Z * Z)) :=
  let neighbours := neighbours_of nodes edges threshold_match_probability in
  match while_loop fuel neighbours (initial_state neighbours) with
  | Some s => Some (clustering_output_final (converged_repr_tables s))
  | None => None
  end.

End ConnectedComponents.

(** ** Python results and numbers *)

Module Py.

Inductive exn : Type :=
| ZeroDivisionError
| TypeError
| IndexError
| AttributeError.

Inductive result (A : Type) : Type :=
| Ok (a : A)
| Raise (e : exn).

Arguments Ok {A} a.
Arguments Raise {A} e.

Definition bind {A B : Type} (c : result A) (k : A -> result B) : result B :=
  match c with
  | Ok a => k a
  | Raise e => Raise e
  end.

Notation "x <- c ;; k" := (bind c (fun x => k))
  (at level 61, c at next level, right associativity).

(** A number that float arithmetic can produce here: a real, or the complex
    value that Python returns for a negative base raised to [0.5]. *)
Inductive number : Type :=
| PyReal (x : R)
| PyComplex.

Local Open Scope R_scope.

(** [f(v)] for an arithmetic expression [f] with real coefficients: a
    complex operand gives a complex result. *)
Definition lift (f : R -> R) (v : number) : number :=
  match v with
  | PyReal x => PyReal (f x)
  | PyComplex => PyComplex
  end.

(** [x ** 0.5] on a float [x]. *)
Definition pow_half (x : R) : number :=
  if Rlt_dec x 0 then PyComplex
  else if Req_dec_T x 0 then PyReal 0
  else PyReal (Rpower x 0.5).

(** [a / b] on floats: a zero divisor raises. *)
Definition truediv (a b : R) : result R :=
  if Req_dec_T b 0 then Raise ZeroDivisionError else Ok (a / b).

(** [v / b] where [v] may be complex: a zero divisor raises all the same. *)
Definition number_truediv (v : number) (b : R) : result number :=
  if Req_dec_T b 0 then Raise ZeroDivisionError
  else Ok (lift (fun x => x / b) v).

(** [v >= b] and [v > b]: ordering a complex number raises [TypeError]. *)
Definition ge (v : number) (b : R) : result bool :=
  match v with
  | PyReal x => Ok (if Rge_dec x b then true else false)
  | PyComplex => Raise TypeError
  end.

Definition gt (v : number) (b : R) : result bool :=
  match v with
  | PyReal x => Ok (if Rgt_dec x b then true else false)
  | PyComplex => Raise TypeError
  end.

(** [sum(l)] on a list of integers. *)
Definition sum (l : list Z) : Z := fold_right Z.add 0%Z l.

End Py.

(** ** Estimating u probabilities ([splink/internals/estimate_u.py]) *)

Module EstimateU.

Import Py.
Local Open Scope R_scope.

(** [_rows_needed_for_n_pairs]. *)
Definition _rows_needed_for_n_pairs (n_pairs : R) : number :=
  lift (fun s => 0.5 * (s + 1)) (pow_half (8 * n_pairs + 1)).

(** [_proportion_sample_size_link_only]: the pair
    [(proportion, sample_size)]. *)
Definition _proportion_sample_size_link_only
  (row_counts_individual_dfs : list Z) (max_pairs : R)
  : result (number * number) :=
  let total_links :=
    IZR (sum row_counts_individual_dfs ^ 2
         - sum (map (fun count : Z => (count ^ 2)%Z)
                  row_counts_individual_dfs))%Z / 2 in
  let total_nodes := sum row_counts_individual_dfs in
  q <- truediv max_pairs total_links ;;
  let proportion := pow_half q in
  let sample_size := lift (fun p => p * IZR total_nodes) proportion in
  Ok (proportion, sample_size).

Inductive link_type : Type :=
| dedupe_only
| link_and_dedupe
| link_only.

(** What the two counting queries over [__splink__df_concat] return:
    [count( * )], and [count(source_dataset)] per [source_dataset]. *)
Record concat_counts : Type := mk_counts {
  row_count : Z;
  row_counts_by_source_dataset : list Z
}.

(** The three numbers that the sizing branches of [estimate_u_values] leave
    behind. *)
Record sample_plan : Type := mk_plan {
  proportion : number;
  sample_size : number;
  total_nodes : Z
}.

(** Lines 84-115 of [estimate_u_values]: the branch on [_link_type]. *)
Definition sample_sizes (lt : link_type) (max_pairs : R)
  (counts : concat_counts) : result sample_plan :=
  match lt with
  | dedupe_only | link_and_dedupe =>
      let total_nodes := row_count counts in
      let sample_size := _rows_needed_for_n_pairs max_pairs in
      proportion <- number_truediv sample_size (IZR total_nodes) ;;
      Ok (mk_plan proportion sample_size total_nodes)
  | link_only =>
      let frame_counts := row_counts_by_source_dataset counts in
      ps <- _proportion_sample_size_link_only frame_counts max_pairs ;;
      Ok (mk_plan (fst ps) (snd ps) (sum frame_counts))
  end.

(** Lines 117-121 of [estimate_u_values]: the two caps. *)
Definition clamp (plan : sample_plan) : result sample_plan :=
  at_least_one <- ge (proportion plan) 1.0 ;;
  let proportion' :=
    if at_least_one : bool then PyReal 1.0 else proportion plan in
  too_many <- gt (sample_size plan) (IZR (total_nodes plan)) ;;
  let sample_size' :=
    if too_many : bool then PyReal (IZR (total_nodes plan))
    else sample_size plan in
  Ok (mk_plan proportion' sample_size' (total_nodes plan)).

(** The sample clause appended to [select * from __splink__df_concat]. *)
Inductive sample_clause : Type :=
| no_sampling
| sample_with (proportion sample_size : number) (seed : option Z).

(** Modelled from the spec: [Linker._random_sample_sql] is a method of the
    backend linkers, which are not among the sources.  The spec says that
    "if proportion >= 1, sampling is skipped (use full data)"; after the cap
    that is the case [proportion = 1.0]. Otherwise the proportion, the
    sample size and the seed go into a backend-specific clause. *)
Definition _random_sample_sql (proportion sample_size : number)
  (seed : option Z) : sample_clause :=
  match proportion with
  | PyReal p =>
      if Req_dec_T p 1.0 then no_sampling
      else sample_with proportion sample_size seed
  | PyComplex => sample_with proportion sample_size seed
  end.

(** *** The settings object and its comparison levels *)

Inductive trained_value : Type :=
| observed (probability : R)
| level_not_observed.

(** One entry of a level's list of trained probabilities. *)
Record trained_record : Type := mk_trained {
  trained_probability : trained_value;
  trained_description : string
}.

Record ComparisonLevel : Type := mk_level {
  is_null_level : bool;
  comparison_vector_value : Z;
  _tf_adjustment_column : option string;
  m_probability : option R;
  _trained_u_probabilities : list trained_record
}.

Record Comparison : Type := mk_comparison {
  output_column_name : string;
  comparison_levels : list ComparisonLevel
}.

Record BlockingRule : Type := mk_blocking_rule {
  blocking_rule : string;
  salting_partitions : nat
}.

Record Settings : Type := mk_settings {
  _link_type : link_type;
  _retain_matching_columns : bool;
  _retain_intermediate_calculation_columns : bool;
  _blocking_rules_to_generate_predictions : list BlockingRule;
  comparisons : list Comparison
}.

(** Settings objects live in a store; a linker refers to its settings
    object by location, so that two linkers can share one or own one
    each. *)
Definition loc : Type := nat.

Record store : Type := mk_store {
  cells : loc -> option Settings;
  next_loc : loc
}.

Record Linker : Type := mk_linker {
  _settings_obj : loc;
  _sql_dialect : string;
  _input_tables_dict : nat
}.

Definition read (h : store) (l : loc) : option Settings := cells h l.

Definition write (h : store) (l : loc) (s : Settings) : store :=
  mk_store (fun l' => if Nat.eqb l' l then Some s else cells h l')
           (next_loc h).

Definition alloc (h : store) (s : Settings) : loc * store :=
  (next_loc h,
   mk_store (fun l' => if Nat.eqb l' (next_loc h) then Some s
                       else cells h l')
            (S (next_loc h))).

(** Code that mutates the store and may raise. *)
Definition M (A : Type) : Type := store -> store * result A.

Definition bindM {A B : Type} (c : M A) (k : A -> M B) : M B :=
  fun h =>
    match c h with
    | (h', Ok a) => k a h'
    | (h', Raise e) => (h', Raise e)
    end.

Notation "x <~ c ;; k" := (bindM c (fun x => k))
  (at level 61, c at next level, right associativity).

(** Run code that does not touch the store. *)
Definition pure {A : Type} (c : result A) : M A := fun h => (h, c).

(** The object behind a reference; a reference to nothing has no
    attributes. *)
Definition deref (l : loc) : M Settings :=
  fun h =>
    match read h l with
    | Some s => (h, Ok s)
    | None => (h, Raise AttributeError)
    end.

(** In-place update of the object behind [l]. *)
Definition modify (l : loc) (f : Settings -> Settings) : M unit :=
  s <~ deref l ;; fun h => (write h l (f s), Ok tt).

(** [deepcopy(linker)]: a new linker whose settings object is a fresh copy
    of the original's, comparisons and levels included. *)
Definition deepcopy (linker : Linker) : M Linker :=
  s <~ deref (_settings_obj linker) ;;
  fun h =>
    let (l, h') := alloc h s in
    (h', Ok (mk_linker l (_sql_dialect linker) (_input_tables_dict linker))).

Definition set_retain_matching_columns (v : bool) (s : Settings) : Settings :=
  mk_settings (_link_type s) v (_retain_intermediate_calculation_columns s)
    (_blocking_rules_to_generate_predictions s) (comparisons s).

Definition set_retain_intermediate_calculation_columns (v : bool)
  (s : Settings) : Settings :=
  mk_settings (_link_type s) (_retain_matching_columns s) v
    (_blocking_rules_to_generate_predictions s) (comparisons s).

Definition set_blocking_rules (v : list BlockingRule) (s : Settings)
  : Settings :=
  mk_settings (_link_type s) (_retain_matching_columns s)
    (_retain_intermediate_calculation_columns s) v (comparisons s).

Definition set_comparisons (v : list Comparison) (s : Settings) : Settings :=
  mk_settings (_link_type s) (_retain_matching_columns s)
    (_retain_intermediate_calculation_columns s)
    (_blocking_rules_to_generate_predictions s) v.

(** [for cc in settings_obj.comparisons: for cl in cc.comparison_levels:
    cl._tf_adjustment_column = None]. *)
Definition clear_tf_adjustment_columns (s : Settings) : Settings :=
  set_comparisons
    (map (fun cc =>
            mk_comparison (output_column_name cc)
              (map (fun cl =>
                      mk_level (is_null_level cl) (comparison_vector_value cl)
                        None (m_probability cl)
                        (_trained_u_probabilities cl))
                   (comparison_levels cc)))
         (comparisons s))
    s.

(** [m_u_records_lookup]: by output column name and comparison vector
    value; [None] is Python's [KeyError]. *)
Definition m_u_lookup : Type := string -> Z -> option R.

(** Modelled from the spec:
    [append_u_probability_to_comparison_level_trained_probabilities] and
    [ComparisonLevel._add_trained_u_probability] are not among the sources.
    The spec says that results "are written back into the live
    Comparison/ComparisonLevel objects' trained-probability fields, tagged
    with provenance"; a level that the sample never hit is recorded as not
    observed. *)
Definition append_u_probability_to_comparison_level_trained_probabilities
  (cl : ComparisonLevel) (m_u_records_lookup : m_u_lookup)
  (output_column_name : string) (training_description : string)
  : ComparisonLevel :=
  let u_probability :=
    match m_u_records_lookup output_column_name (comparison_vector_value cl)
    with
    | Some u => observed u
    | None => level_not_observed
    end in
  mk_level (is_null_level cl) (comparison_vector_value cl)
    (_tf_adjustment_column cl) (m_probability cl)
    (_trained_u_probabilities cl
     ++ [mk_trained u_probability training_description]).

(** Lines 215-222: the loop over the comparisons of the original settings
    object; [_comparison_levels_excluding_null] selects the levels that are
    not null levels, and the others are left alone. *)
Definition write_back (m_u_records_lookup : m_u_lookup) (s : Settings)
  : Settings :=
  set_comparisons
    (map (fun c =>
            mk_comparison (output_column_name c)
              (map (fun cl =>
                      if is_null_level cl then cl
                      else
                        append_u_probability_to_comparison_level_trained_probabilities
                          cl m_u_records_lookup (output_column_name c)
                          "estimate u by random sampling")
                   (comparison_levels c)))
         (comparisons s))
    s.

(** What the function takes from outside: the counts that the database
    returns, [multiprocessing.cpu_count()], and the u records that the
    database computes on the sample.  The queries between the sample and
    the lookup (blocking, comparison vectors, the m and u counts and their
    proportions) touch no settings object; they are behind [train], which
    may depend on anything the two linkers can reach. *)
Record environment : Type := mk_environment {
  counts : concat_counts;
  cpu_count : nat;
  train : store -> Linker -> Linker -> sample_clause -> m_u_lookup
}.

(** The store as it is now, for the code that only reads it. *)
Definition snapshot : M store := fun h => (h, Ok h).

(** [estimate_u_values]. *)
Definition estimate_u_values (env : environment) (linker : Linker)
  (max_pairs : R) (seed : option Z) : M unit :=
  let original_settings_obj := _settings_obj linker in
  training_linker <~ deepcopy linker ;;
  let settings_obj := _settings_obj training_linker in
  _ <~ modify settings_obj (set_retain_matching_columns false) ;;
  _ <~ modify settings_obj
         (set_retain_intermediate_calculation_columns false) ;;
  _ <~ modify settings_obj clear_tf_adjustment_columns ;;
  training_settings <~ deref settings_obj ;;
  plan <~ pure (sample_sizes (_link_type training_settings) max_pairs
                  (counts env)) ;;
  plan <~ pure (clamp plan) ;;
  let sample :=
    _random_sample_sql (proportion plan) (sample_size plan) seed in
  let rules :=
    if String.eqb (_sql_dialect linker) "duckdb"
       && (if Rgt_dec max_pairs 1e4 then true else false)
    then [mk_blocking_rule "1=1" (cpu_count env)]
    else [] in
  _ <~ modify settings_obj (set_blocking_rules rules) ;;
  h <~ snapshot ;;
  let m_u_records_lookup := train env h linker training_linker sample in
  modify original_settings_obj (write_back m_u_records_lookup).

End EstimateU.

(** ** Configured comparison levels ([splink/comparison_creator.py]) *)

Module ComparisonCreator.

Import Py.

(** The attributes of a [ComparisonLevelCreator] that matter here; the label
    stands for everything that [configure] is not asked to change. *)
Record ComparisonLevelCreator : Type := mk_level_creator {
  label_for_charts : string;
  is_null_level : bool;
  m_probability : option Q;
  u_probability : option Q
}.

(** Modelled from the spec: [ComparisonLevelCreator.configure] is not among
    the sources.  The spec says that each level "optionally carries an
    m_probability and u_probability" and that "the null level is never
    assigned an m/u probability via configuration": a keyword argument
    that carries a value is stored in its field, and one that is [None]
    assigns nothing, so that the level keeps what it carries.  The two
    calls in [get_configured_comparison_levels] pass [m_probability] alone
    and [u_probability] alone. *)
Definition configure_m_probability (cl : ComparisonLevelCreator)
  (m_probability : option Q) : ComparisonLevelCreator :=
  match m_probability with
  | Some m =>
      mk_level_creator (label_for_charts cl) (is_null_level cl) (Some m)
        (u_probability cl)
  | None => cl
  end.

Definition configure_u_probability (cl : ComparisonLevelCreator)
  (u_probability : option Q) : ComparisonLevelCreator :=
  match u_probability with
  | Some u =>
      mk_level_creator (label_for_charts cl) (is_null_level cl)
        (m_probability cl) (Some u)
  | None => cl
  end.

(** A [ComparisonCreator]: the levels that its [create_comparison_levels]
    returns, and the two attributes behind the [m_probabilities] and
    [u_probabilities] properties ([None] when the attribute was never
    set).  [create_comparison_levels] is abstract; it is taken to build a
    list of distinct level objects on each call, so that a level is a value
    and configuring one level leaves the others alone. *)
Record ComparisonCreator : Type := mk_creator {
  create_comparison_levels : list ComparisonLevelCreator;
  _m_probabilities : option (list Q);
  _u_probabilities : option (list Q)
}.

(** [values.pop(0)]: the head and the shortened list; an empty list
    raises. *)
Definition pop0 (values : list Q) : result (Q * list Q) :=
  match values with
  | [] => Raise IndexError
  | v :: rest => Ok (v, rest)
  end.

(** [[cl.configure(k=values.pop(0) if not cl.is_null_level else None)
      for cl in comparison_levels]], with the list [values] threaded
    through. *)
Fixpoint configure_all
  (configure : ComparisonLevelCreator -> option Q -> ComparisonLevelCreator)
  (values : list Q) (comparison_levels : list ComparisonLevelCreator)
  : result (list ComparisonLevelCreator) :=
  match comparison_levels with
  | [] => Ok []
  | cl :: rest =>
      if is_null_level cl then
        rest' <- configure_all configure values rest ;;
        Ok (configure cl None :: rest')
      else
        popped <- pop0 values ;;
        rest' <- configure_all configure (snd popped) rest ;;
        Ok (configure cl (Some (fst popped)) :: rest')
  end.

(** [if self.m_probabilities:]: set and not empty. *)
Definition truthy (values : option (list Q)) : option (list Q) :=
  match values with
  | Some (v :: rest) => Some (v :: rest)
  | _ => None
  end.

(** [get_configured_comparison_levels]. *)
Definition get_configured_comparison_levels (self : ComparisonCreator)
  : result (list ComparisonLevelCreator) :=
  let comparison_levels := create_comparison_levels self in
  comparison_levels <-
    match truthy (_m_probabilities self) with
    | Some m_values =>
        configure_all configure_m_probability m_values comparison_levels
    | None => Ok comparison_levels
    end ;;
  comparison_levels <-
    match truthy (_u_probabilities self) with
    | Some u_values =>
        configure_all configure_u_probability u_values comparison_levels
    | None => Ok comparison_levels
    end ;;
  Ok comparison_levels.

(** [num_non_null_levels]. *)
Definition num_non_null_levels (self : ComparisonCreator) : nat :=
  List.length
    (filter (fun cl => negb (is_null_level cl))
       (create_comparison_levels self)).

End ComparisonCreator.

(** ** The graph that the clustering contract speaks about *)

Module Graph.

Import ConnectedComponents.
Local Open Scope Z_scope.

(** The edge [(a, b)] is in the edges table and passes the threshold. *)
Definition retained (edges : list edge_row) (t : option Q) (a b : Z) : Prop :=
  exists e, In e edges /\ match_prob_expr t e = true /\
            edge_id_left e = a /\ edge_id_right e = b.

Definition adjacent (edges : list edge_row) (t : option Q) (a b : Z) : Prop :=
  retained edges t a b \/ retained edges t b a.

(** Two ids are connected when a path of retained edges, taken in either
    direction, leads from one to the other. *)
Definition connected (edges : list edge_row) (t : option Q) : Z -> Z -> Prop :=
  clos_refl_trans Z (adjacent edges t).

(** Every retained edge joins two rows of the nodes table. *)
Definition edges_within (nodes : list Z) (edges : list edge_row)
  (t : option Q) : Prop :=
  forall a b, retained edges t a b -> In a nodes /\ In b nodes.

(** What the contract asks of the output table, whose rows are
    [(cluster_id, node id)]: every row of the nodes table is listed exactly
    once; a cluster id is itself a node, connected to the listed node and no
    larger than any node connected to it; and two listed nodes share their
    cluster id exactly when they are connected. *)
Definition is_clustering (nodes : list Z) (edges : list edge_row)
  (t : option Q) (out : list (option Z * Z)) : Prop :=
  NoDup (map snd out) /\
  (forall n, In n nodes <-> In n (map snd out)) /\
  (forall o n, In (o, n) out ->
     exists c, o = Some c /\ In c nodes /\ connected edges t n c /\
               forall m, In m nodes -> connected edges t n m -> c <= m) /\
  (forall o n, In (o, n) out ->
     exists c, o = Some c /\ In (Some c, c) out /\
               forall m, In (Some c, m) out -> c <= m) /\
  (forall o1 n1 o2 n2, In (o1, n1) out -> In (o2, n2) out ->
     (o1 = o2 <-> connected edges t n1 n2)).

(** The loop states met by the first [i] turns of the loop. *)
Definition state_after (nodes : list Z) (edges : list edge_row)
  (t : option Q) (i : nat) : loop_state :=
  let neighbours := neighbours_of nodes edges t in
  Nat.iter i (loop_body neighbours) (initial_state neighbours).

End Graph.

(** ** Further notions about the clustered graph *)

Module GraphMore.

Import ConnectedComponents Graph.
Local Open Scope Z_scope.

(** Every id that retained edges connect to [n] is a row of the nodes
    table. *)
Definition component_within (nodes : list Z) (edges : list edge_row)
  (t : option Q) (n : Z) : Prop :=
  forall x, connected edges t n x -> In x nodes.

(** [c] is the least of the ids connected to [n]. *)
Definition least_connected (edges : list edge_row) (t : option Q)
  (n c : Z) : Prop :=
  connected edges t n c /\ forall m, connected edges t n m -> c <= m.

(** The output rows in the order of [order by cluster_id, node_id], with
    equal rows excluded. *)
Definition row_before (a b : option Z * Z) : Prop :=
  by_cluster_then_node a b = true /\ a <> b.

(** The row [a] comes strictly before the row [b] in the order
    [cluster_id, node_id], both cluster ids being non-null. *)
Definition row_lt (a b : option Z * Z) : Prop :=
  match fst a, fst b with
  | Some x, Some y => x < y \/ (x = y /\ snd a < snd b)
  | _, _ => False
  end.

(** The threshold [t1] retains every edge that [t2] retains. *)
Definition threshold_le (t1 t2 : option Q) : Prop :=
  match t1, t2 with
  | None, _ => True
  | Some a, Some b => (a <= b)%Q
  | Some _, None => False
  end.

End GraphMore.

(** ** Further notions about [estimate_u_values] *)

Module EstimateUMoreSpec.

Import Py EstimateU.
Local Open Scope R_scope.


End EstimateUMoreSpec.

(** ** Configuring a comparison creator ([splink/comparison_creator.py],
    [configure] and the two property setters) *)

Module ComparisonCreatorConfigure.

Import ComparisonCreator.

(** What a setter or [configure] does besides changing the object: it
    returns, or it raises [ValueError]. *)
Inductive outcome : Type :=
| Returns
| RaisesValueError.

(** The setter of [m_probabilities]: a falsy value (None or an empty
    list) is ignored; a list of the wrong length raises before anything is
    stored; any other list is stored in [_m_probabilities]. *)
Definition set_m_probabilities (self : ComparisonCreator)
  (m_probabilities : option (list Q)) : ComparisonCreator * outcome :=
  match truthy m_probabilities with
  | Some values =>
      let num_probs_supplied := List.length values in
      if negb (Nat.eqb num_probs_supplied (num_non_null_levels self))
      then (self, RaisesValueError)
      else (mk_creator (create_comparison_levels self) (Some values)
              (_u_probabilities self), Returns)
  | None => (self, Returns)
  end.

(** The setter of [u_probabilities]. *)
Definition set_u_probabilities (self : ComparisonCreator)
  (u_probabilities : option (list Q)) : ComparisonCreator * outcome :=
  match truthy u_probabilities with
  | Some values =>
      let num_probs_supplied := List.length values in
      if negb (Nat.eqb num_probs_supplied (num_non_null_levels self))
      then (self, RaisesValueError)
      else (mk_creator (create_comparison_levels self)
              (_m_probabilities self) (Some values), Returns)
  | None => (self, Returns)
  end.

(** [configure]: the two assignments in order; the object as the call
    leaves it, and whether the call returned. *)
Definition configure (self : ComparisonCreator)
  (m_probabilities u_probabilities : option (list Q))
  : ComparisonCreator * outcome :=
  match set_m_probabilities self m_probabilities with
  | (self', Returns) => set_u_probabilities self' u_probabilities
  | (self', RaisesValueError) => (self', RaisesValueError)
  end.

(** A series of [configure] calls on one object, by a caller that goes on
    after a [ValueError]. *)
Definition configure_each (self : ComparisonCreator)
  (calls : list (option (list Q) * option (list Q))) : ComparisonCreator :=
  fold_left (fun s call => fst (configure s (fst call) (snd call)))
    calls self.

(** The object between the two assignments of [configure], when the first
    one is accepted. *)
Definition with_m (self : ComparisonCreator) (m : option (list Q))
  : ComparisonCreator :=
  match truthy m with
  | Some l => mk_creator (create_comparison_levels self) (Some l)
                (_u_probabilities self)
  | None => self
  end.

(** A list is acceptable when it is falsy or has one value for each level
    that is not a null level. *)
Definition acceptable (self : ComparisonCreator)
  (values : option (list Q)) : Prop :=
  forall l, truthy values = Some l ->
            List.length l = num_non_null_levels self.

End ComparisonCreatorConfigure.

(** ** What the claims about [estimate_u_values] speak about *)

Module EstimateUSpec.

Import Py EstimateU.
Local Open Scope R_scope.

(** The closed form of the spec for the dedupe sample size. *)
Definition sample_rows (max_pairs : R) : R :=
  0.5 * (sqrt (8 * max_pairs + 1) + 1).

(** The number of cross-frame pairs as the spec writes it. *)
Definition total_links (row_counts : list Z) : R :=
  (IZR (sum row_counts) ^ 2
   - IZR (sum (map (fun n : Z => (n ^ 2)%Z) row_counts))) / 2.

(** The sum of the products of all pairs of distinct frames. *)
Fixpoint pairwise_products (row_counts : list Z) : Z :=
  match row_counts with
  | [] => 0%Z
  | n :: rest => (n * sum rest + pairwise_products rest)%Z
  end.

(** A level before and after the write-back: nothing changes but the list
    of trained u probabilities, which gains one record with the
    random-sampling description when the level is not the null level. *)
Definition level_u_appended (before after : ComparisonLevel) : Prop :=
  is_null_level after = is_null_level before /\
  comparison_vector_value after = comparison_vector_value before /\
  _tf_adjustment_column after = _tf_adjustment_column before /\
  m_probability after = m_probability before /\
  if is_null_level before
  then _trained_u_probabilities after = _trained_u_probabilities before
  else exists v,
         _trained_u_probabilities after =
         _trained_u_probabilities before
         ++ [mk_trained v "estimate u by random sampling"].

Definition only_u_appended (before after : Settings) : Prop :=
  _link_type after = _link_type before /\
  _retain_matching_columns after = _retain_matching_columns before /\
  _retain_intermediate_calculation_columns after =
    _retain_intermediate_calculation_columns before /\
  _blocking_rules_to_generate_predictions after =
    _blocking_rules_to_generate_predictions before /\
  Forall2
    (fun c c' =>
       output_column_name c' = output_column_name c /\
       Forall2 level_u_appended (comparison_levels c) (comparison_levels c'))
    (comparisons before) (comparisons after).

(** The training copy after the run: both retain flags are off and no
    level has a term-frequency adjustment column. *)
Definition training_settings_set (training : Settings) : Prop :=
  _retain_matching_columns training = false /\
  _retain_intermediate_calculation_columns training = false /\
  Forall (fun cc =>
            Forall (fun cl => _tf_adjustment_column cl = None)
                   (comparison_levels cc))
         (comparisons training).

(** Nothing is stored at or beyond the next free location. *)
Definition store_ok (h : store) : Prop :=
  forall l, (next_loc h <= l)%nat -> read h l = None.

(** A store with one settings object: a null level and an exact-match
    level that carries a term-frequency adjustment column. *)
Definition example_settings : Settings :=
  mk_settings dedupe_only true true [mk_blocking_rule "l.dob = r.dob" 1%nat]
    [mk_comparison "gamma_first_name"
       [mk_level true (-1) None None [];
        mk_level false 1 (Some "first_name"%string) (Some 0.9) []]].

Definition example_store : store :=
  mk_store (fun l => match l with
                     | O => Some example_settings
                     | S _ => None
                     end) 1%nat.

Definition example_env : environment :=
  mk_environment (mk_counts 1000 [1000%Z]) 4%nat
    (fun _ _ _ _ _ _ => Some 0.25).

(** A link-only run whose 25 rows all come from one source dataset. *)
Definition single_source_settings : Settings :=
  mk_settings link_only true true [] [].

Definition single_source_store : store :=
  mk_store (fun l => match l with
                     | O => Some single_source_settings
                     | S _ => None
                     end) 1%nat.

Definition single_source_env : environment :=
  mk_environment (mk_counts 25 [25%Z]) 4%nat
    (fun _ _ _ _ _ _ => None).

End EstimateUSpec.

(** ** What the claim about configured levels speaks about *)

Module ComparisonCreatorSpec.

Import Py ComparisonCreator.

(** The levels that take a value from a configured list. *)
Definition non_null (cl : ComparisonLevelCreator) : bool :=
  negb (is_null_level cl).


End ComparisonCreatorSpec.

(** ** Facts about the relational operators *)

Module SqlFacts.

Import Sql.
Local Open Scope Z_scope.

Lemma in_union {A : Type} (d : forall x y : A, {x = y} + {x <> y}) l1 l2 x :
  In x (union d l1 l2) <-> In x l1 \/ In x l2.
Proof. unfold union. rewrite nodup_In, in_app_iff. tauto. Qed.

Lemma nodup_union {A : Type} (d : forall x y : A, {x = y} + {x <> y}) l1 l2 :
  NoDup (union d l1 l2).
Proof. apply NoDup_nodup. Qed.

Lemma in_left_join {A B : Type} (on : A -> B -> bool) a b x o :
  In (x, o) (left_join on a b) <->
  In x a /\
  ((exists y, o = Some y /\ In y b /\ on x y = true) \/
   (o = None /\ forall y, In y b -> on x y = false)).
Proof.
  unfold left_join. rewrite in_flat_map. split.
  - intros [x' [Hx' Hin]].
    destruct (filter (on x') b) as [|y0 ms] eqn:Hf.
    + destruct Hin as [Heq|[]]. inversion Heq; subst. split; [assumption|].
      right. split; [reflexivity|]. intros y Hy.
      destruct (on x y) eqn:Hon; [|reflexivity].
      assert (Hc : In y (filter (on x) b)) by (apply filter_In; auto).
      rewrite Hf in Hc. destruct Hc.
    + apply in_map_iff in Hin. destruct Hin as [y [Heq Hy]].
      inversion Heq; subst. split; [assumption|]. left.
      exists y. rewrite <- Hf in Hy. apply filter_In in Hy. tauto.
  - intros [Hx [[y [-> [Hy Hon]]]|[-> Hno]]]; exists x; split; try assumption.
    + assert (Hc : In y (filter (on x) b)) by (apply filter_In; auto).
      destruct (filter (on x) b) as [|y0 ms] eqn:Hf; [destruct Hc|].
      apply in_map_iff. exists y. auto.
    + destruct (filter (on x) b) as [|y0 ms] eqn:Hf; [left; reflexivity|].
      assert (Hc : In y0 (filter (on x) b)) by (rewrite Hf; left; reflexivity).
      apply filter_In in Hc. destruct Hc as [Hy0 Hon].
      rewrite (Hno y0 Hy0) in Hon. discriminate.
Qed.

Lemma in_inner_join {A B : Type} (on : A -> B -> bool) a b x y :
  In (x, y) (inner_join on a b) <-> In x a /\ In y b /\ on x y = true.
Proof.
  unfold inner_join. rewrite in_flat_map. split.
  - intros [x' [Hx' Hin]]. apply in_map_iff in Hin.
    destruct Hin as [y' [Heq Hy']]. inversion Heq; subst.
    apply filter_In in Hy'. tauto.
  - intros [Hx [Hy Hon]]. exists x. split; [assumption|].
    apply in_map_iff. exists y. split; [reflexivity|]. apply filter_In. auto.
Qed.

Lemma eq_on_true x y : eq_on x (Some y) = true <-> x = Some y.
Proof.
  destruct x as [a|]; simpl; [|split; discriminate].
  rewrite Z.eqb_eq. split; congruence.
Qed.

(** *** The [min] aggregate *)

Lemma agg_min_none l : agg_min l = None <-> forall x, ~ In (Some x) l.
Proof.
  induction l as [|[v|] tl IH]; simpl.
  - split; [intros _ x []|reflexivity].
  - destruct (agg_min tl); split; try discriminate.
    + intros H. exfalso. apply (H v). left; reflexivity.
    + intros H. exfalso. apply (H v). left; reflexivity.
  - rewrite IH. split; intros H x.
    + intros [Hc|Hc]; [discriminate|]. exact (H x Hc).
    + intros Hc. apply (H x). right; assumption.
Qed.

Lemma agg_min_some l c :
  agg_min l = Some c <->
  In (Some c) l /\ forall x, In (Some x) l -> c <= x.
Proof.
  revert c. induction l as [|[v|] tl IH]; simpl; intros c.
  - split; [discriminate|intros [[] _]].
  - destruct (agg_min tl) as [w|] eqn:Hm.
    + specialize (IH w). destruct IH as [IH _].
      destruct (IH eq_refl) as [Hw Hle]. split.
      * intros Heq. inversion Heq; subst c. split.
        -- destruct (Z.min_spec v w) as [[_ ->]|[_ ->]]; auto.
        -- intros x [Hx|Hx]; [inversion Hx; subst; lia|].
           specialize (Hle x Hx). lia.
      * intros [[Hc|Hc] Hmin].
        -- inversion Hc; subst c. f_equal.
           assert (v <= w) by (apply Hmin; right; assumption). lia.
        -- assert (c <= v) by (apply Hmin; left; reflexivity).
           assert (w <= c) by (apply Hle; assumption).
           assert (c <= w) by (apply Hmin; right; assumption).
           f_equal. lia.
    + pose proof (proj1 (agg_min_none tl) Hm) as Hno. split.
      * intros Heq. inversion Heq; subst c. split; [left; reflexivity|].
        intros x [Hx|Hx]; [inversion Hx; lia|]. destruct (Hno x Hx).
      * intros [[Hc|Hc] _]; [assumption|]. destruct (Hno c Hc).
  - rewrite IH. split; intros [Hin Hmin]; split.
    + right; assumption.
    + intros x [Hx|Hx]; [discriminate|]. apply Hmin; assumption.
    + destruct Hin as [Hc|Hc]; [discriminate|assumption].
    + intros x Hx. apply Hmin. right; assumption.
Qed.

(** *** [GROUP BY] with [min] *)

Lemma group_by_min_keys rows :
  map fst (group_by_min rows) = nodup Z.eq_dec (map fst rows).
Proof.
  unfold group_by_min. rewrite map_map. simpl. apply map_id.
Qed.

Lemma group_by_min_NoDup rows : NoDup (map fst (group_by_min rows)).
Proof. rewrite group_by_min_keys. apply NoDup_nodup. Qed.

Lemma in_group_values (rows : list (Z * option Z)) k v :
  In v (map snd (filter (fun r => fst r =? k) rows)) <-> In (k, v) rows.
Proof.
  rewrite in_map_iff. split.
  - intros [[k' v'] [Heq Hin]]. simpl in Heq. subst v'.
    apply filter_In in Hin. destruct Hin as [Hin Hk]. simpl in Hk.
    apply Z.eqb_eq in Hk. subst. assumption.
  - intros Hin. exists (k, v). split; [reflexivity|].
    apply filter_In. split; [assumption|]. simpl. apply Z.eqb_refl.
Qed.

Lemma in_group_by_min rows k o :
  In (k, o) (group_by_min rows) <->
  In k (map fst rows) /\
  o = agg_min (map snd (filter (fun r => fst r =? k) rows)).
Proof.
  unfold group_by_min. rewrite in_map_iff. split.
  - intros [k' [Heq Hin]]. inversion Heq; subst.
    apply nodup_In in Hin. auto.
  - intros [Hin ->]. exists k. split; [reflexivity|].
    apply nodup_In. assumption.
Qed.

Lemma in_group_by_min_some rows k c :
  In (k, Some c) (group_by_min rows) <->
  In (k, Some c) rows /\ forall x, In (k, Some x) rows -> c <= x.
Proof.
  rewrite in_group_by_min. split.
  - intros [_ Heq]. symmetry in Heq. apply agg_min_some in Heq.
    destruct Heq as [Hin Hmin]. apply in_group_values in Hin.
    split; [assumption|]. intros x Hx. apply Hmin.
    apply in_group_values. assumption.
  - intros [Hin Hmin]. split.
    + apply in_map_iff. exists (k, Some c). auto.
    + symmetry. apply agg_min_some. split.
      * apply in_group_values. assumption.
      * intros x Hx. apply Hmin. apply in_group_values in Hx. assumption.
Qed.

Lemma in_group_by_min_none rows k :
  In (k, None) (group_by_min rows) ->
  exists v, In (k, v) rows /\ forall x, ~ In (k, Some x) rows.
Proof.
  rewrite in_group_by_min. intros [Hin Heq]. symmetry in Heq.
  apply in_map_iff in Hin. destruct Hin as [[k' v] [Hk Hin]].
  simpl in Hk. subst k'. exists v. split; [assumption|].
  intros x Hx. apply (proj1 (agg_min_none _) Heq x).
  apply in_group_values. assumption.
Qed.

(** *** [ORDER BY] *)

Lemma insert_by_perm {A : Type} (leb : A -> A -> bool) x l :
  Permutation (x :: l) (insert_by leb x l).
Proof.
  induction l as [|y tl IH]; simpl; [apply Permutation_refl|].
  destruct (leb x y); [apply Permutation_refl|].
  eapply perm_trans; [apply perm_swap|]. apply perm_skip. exact IH.
Qed.

Lemma order_by_perm {A : Type} (leb : A -> A -> bool) l :
  Permutation l (order_by leb l).
Proof.
  induction l as [|x tl IH]; simpl; [apply perm_nil|].
  eapply perm_trans; [apply perm_skip; exact IH|]. apply insert_by_perm.
Qed.

Lemma in_order_by {A : Type} (leb : A -> A -> bool) l x :
  In x (order_by leb l) <-> In x l.
Proof.
  split; apply Permutation_in;
    [apply Permutation_sym|]; apply order_by_perm.
Qed.

Lemma order_by_NoDup_map {A B : Type} (f : A -> B) (leb : A -> A -> bool) l :
  NoDup (map f l) -> NoDup (map f (order_by leb l)).
Proof.
  apply Permutation_NoDup. apply Permutation_map. apply order_by_perm.
Qed.

(** *** Joins on a key column *)

Lemma filter_key_unique {B : Type} (key : B -> Z) (b : list B) k :
  NoDup (map key b) ->
  filter (fun y => k =? key y) b = [] \/
  exists y, filter (fun y => k =? key y) b = [y].
Proof.
  induction b as [|y tl IH]; simpl; intros Hnd; [left; reflexivity|].
  inversion Hnd as [|? ? Hnot Hnd']; subst.
  destruct (k =? key y) eqn:Hk.
  - right. exists y. f_equal. apply Z.eqb_eq in Hk. subst k.
    destruct (filter (fun y0 => key y =? key y0) tl) as [|z zs] eqn:Hf;
      [reflexivity|].
    assert (Hz : In z (filter (fun y0 => key y =? key y0) tl))
      by (rewrite Hf; left; reflexivity).
    apply filter_In in Hz. destruct Hz as [Hz Heq]. apply Z.eqb_eq in Heq.
    exfalso. apply Hnot. rewrite Heq. apply in_map. assumption.
  - apply IH. assumption.
Qed.

Lemma left_join_keys {A B : Type} (ka : A -> Z) (on : A -> B -> bool) a b :
  forall k, In k (map (fun j => ka (fst j)) (left_join on a b)) <->
            In k (map ka a).
Proof.
  intros k. rewrite !in_map_iff. split.
  - intros [[x o] [Hk Hin]]. simpl in Hk. apply in_left_join in Hin.
    exists x. tauto.
  - intros [x [Hk Hin]].
    destruct (filter (on x) b) as [|y ms] eqn:Hf.
    + exists (x, None). split; [assumption|]. apply in_left_join.
      split; [assumption|]. right. split; [reflexivity|]. intros y Hy.
      destruct (on x y) eqn:Hon; [|reflexivity].
      assert (Hc : In y (filter (on x) b)) by (apply filter_In; auto).
      rewrite Hf in Hc. destruct Hc.
    + exists (x, Some y). split; [assumption|]. apply in_left_join.
      split; [assumption|]. left. exists y. split; [reflexivity|].
      assert (Hc : In y (filter (on x) b)) by (rewrite Hf; left; reflexivity).
      apply filter_In in Hc. assumption.
Qed.

Lemma left_join_keys_NoDup {A B : Type} (ka : A -> Z) (kb : B -> Z) a b :
  NoDup (map ka a) -> NoDup (map kb b) ->
  NoDup (map (fun j => ka (fst j))
           (left_join (fun x y => ka x =? kb y) a b)).
Proof.
  intros Ha Hb. induction a as [|x tl IH]; simpl; [constructor|].
  inversion Ha as [|? ? Hnot Ha']; subst. rewrite map_app.
  apply NoDup_app.
  - destruct (filter_key_unique kb b (ka x) Hb) as [->|[y ->]]; simpl;
      repeat constructor; simpl; tauto.
  - apply IH. assumption.
  - intros k Hk Hk'. apply Hnot.
    apply (left_join_keys ka (fun x y => ka x =? kb y)) in Hk'.
    assert (k = ka x); [|subst; assumption].
    destruct (filter (fun y => ka x =? kb y) b) as [|y ms]; simpl in Hk.
    + destruct Hk as [<-|[]]. reflexivity.
    + destruct Hk as [<-|Hk]; [reflexivity|].
      apply in_map_iff in Hk. destruct Hk as [j [<- Hj]].
      apply in_map_iff in Hj. destruct Hj as [z [<- _]]. reflexivity.
Qed.

Lemma inner_join_keys_NoDup {A B : Type} (ka : A -> Z) (kb : B -> Z) a b :
  NoDup (map ka a) -> NoDup (map kb b) ->
  NoDup (map (fun j => ka (fst j))
           (inner_join (fun x y => ka x =? kb y) a b)).
Proof.
  intros Ha Hb. induction a as [|x tl IH]; simpl; [constructor|].
  inversion Ha as [|? ? Hnot Ha']; subst. rewrite map_app.
  apply NoDup_app.
  - destruct (filter_key_unique kb b (ka x) Hb) as [->|[y ->]]; simpl;
      repeat constructor; simpl; tauto.
  - apply IH. assumption.
  - intros k Hk Hk'. apply Hnot.
    assert (Hin : In k (map ka tl)).
    { apply in_map_iff in Hk'. destruct Hk' as [[x' y'] [Hk2 Hj]].
      simpl in Hk2. apply in_inner_join in Hj. apply in_map_iff.
      exists x'. tauto. }
    assert (k = ka x); [|subst; assumption].
    apply in_map_iff in Hk. destruct Hk as [j [<- Hj]].
    apply in_map_iff in Hj. destruct Hj as [z [<- _]]. reflexivity.
Qed.

Lemma left_join_fst {A B : Type} (on : A -> B -> bool) a b x :
  In x a -> exists o, In (x, o) (left_join on a b).
Proof.
  intros Hx. destruct (filter (on x) b) as [|y ms] eqn:Hf.
  - exists None. apply in_left_join. split; [assumption|]. right.
    split; [reflexivity|]. intros y Hy.
    destruct (on x y) eqn:Hon; [|reflexivity].
    assert (Hc : In y (filter (on x) b)) by (apply filter_In; auto).
    rewrite Hf in Hc. destruct Hc.
  - exists (Some y). apply in_left_join. split; [assumption|]. left.
    exists y. split; [reflexivity|].
    assert (Hc : In y (filter (on x) b)) by (rewrite Hf; left; reflexivity).
    apply filter_In in Hc. assumption.
Qed.

(** *** [list_distinct] and [list_sort] *)

Lemma in_drop_nulls l x : In x (drop_nulls l) <-> In (Some x) l.
Proof.
  induction l as [|[v|] tl IH]; simpl.
  - tauto.
  - rewrite IH. split; intros [H|H]; auto; left; congruence.
  - rewrite IH. split; [auto|]. intros [H|H]; [discriminate|assumption].
Qed.

Lemma in_list_distinct l x : In x (list_distinct l) <-> In (Some x) l.
Proof. unfold list_distinct. rewrite nodup_In. apply in_drop_nulls. Qed.

Lemma list_distinct_NoDup l : NoDup (list_distinct l).
Proof. apply NoDup_nodup. Qed.

Lemma in_list_sort l x : In x (list_sort l) <-> In x l.
Proof. apply in_order_by. Qed.

Lemma insert_by_sorted x l :
  StronglySorted Z.lt l -> ~ In x l ->
  StronglySorted Z.lt (insert_by Z.leb x l).
Proof.
  induction l as [|y tl IH]; simpl; intros Hs Hx.
  - constructor; constructor.
  - apply StronglySorted_inv in Hs. destruct Hs as [Hs Hall].
    destruct (x <=? y) eqn:Hle.
    + apply Z.leb_le in Hle. assert (x < y) by lia.
      constructor; [constructor; assumption|].
      constructor; [assumption|].
      rewrite Forall_forall in *. intros z Hz. specialize (Hall z Hz). lia.
    + apply Z.leb_gt in Hle. constructor; [apply IH; tauto|].
      rewrite Forall_forall in *. intros z Hz.
      apply (Permutation_in z (Permutation_sym (insert_by_perm Z.leb x tl)))
        in Hz.
      destruct Hz as [<-|Hz]; [assumption|]. apply Hall. assumption.
Qed.

Lemma list_sort_sorted l : NoDup l -> StronglySorted Z.lt (list_sort l).
Proof.
  induction l as [|x tl IH]; simpl; intros Hnd; [constructor|].
  inversion Hnd as [|? ? Hnot Hnd']; subst.
  apply insert_by_sorted; [apply IH; assumption|].
  intros Hx. apply Hnot. apply in_list_sort. assumption.
Qed.

Lemma sorted_unique l1 l2 :
  StronglySorted Z.lt l1 -> StronglySorted Z.lt l2 ->
  (forall x, In x l1 <-> In x l2) -> l1 = l2.
Proof.
  revert l2. induction l1 as [|a t1 IH]; intros [|b t2] H1 H2 Heq.
  - reflexivity.
  - exfalso. apply (proj2 (Heq b)). left; reflexivity.
  - exfalso. apply (proj1 (Heq a)). left; reflexivity.
  - apply StronglySorted_inv in H1. destruct H1 as [H1 Ha].
    apply StronglySorted_inv in H2. destruct H2 as [H2 Hb].
    rewrite Forall_forall in Ha, Hb.
    assert (Hab : a = b).
    { destruct (proj1 (Heq a) (or_introl eq_refl)) as [Hx|Hx]; [auto|].
      destruct (proj2 (Heq b) (or_introl eq_refl)) as [Hy|Hy]; [auto|].
      specialize (Ha b Hy). specialize (Hb a Hx). lia. }
    subst b. f_equal. apply IH; try assumption.
    intros x. split; intros Hx.
    + destruct (proj1 (Heq x) (or_intror Hx)) as [Hy|Hy]; [|assumption].
      specialize (Ha x Hx). lia.
    + destruct (proj2 (Heq x) (or_intror Hx)) as [Hy|Hy]; [|assumption].
      specialize (Hb x Hx). lia.
Qed.

Lemma list_sort_unique l1 l2 :
  NoDup l1 -> NoDup l2 -> (forall x, In x l1 <-> In x l2) ->
  list_sort l1 = list_sort l2.
Proof.
  intros H1 H2 Heq.
  apply sorted_unique; try (apply list_sort_sorted; assumption).
  intros x. rewrite !in_list_sort. apply Heq.
Qed.

(** *** [IN] and [NOT IN] *)

Lemma is_in_holds x l :
  holds (is_in x l) = true <-> exists v, x = Some v /\ In (Some v) l.
Proof.
  unfold is_in. destruct l as [|y tl]; [simpl; split; [discriminate|]|].
  { intros [v [_ []]]. }
  destruct x as [v|];
    [|simpl; split; [discriminate|intros [v [? _]]; discriminate]].
  destruct (existsb (eq_on (Some v)) (y :: tl)) eqn:He.
  - simpl. split; [intros _|reflexivity]. exists v. split; [reflexivity|].
    apply existsb_exists in He. destruct He as [z [Hz Hon]].
    destruct z as [w|]; [|discriminate]. simpl in Hon.
    apply Z.eqb_eq in Hon. subst w. assumption.
  - split.
    + destruct (existsb is_null (y :: tl)); simpl; discriminate.
    + intros [w [Hw Hin]]. inversion Hw; subst w. exfalso.
      assert (Ht : existsb (eq_on (Some v)) (y :: tl) = true).
      { apply existsb_exists. exists (Some v). split; [assumption|].
        simpl. apply Z.eqb_refl. }
      congruence.
Qed.

Lemma not_in_holds v l :
  ~ In None l ->
  (holds (not3 (is_in (Some v) l)) = true <-> ~ In (Some v) l).
Proof.
  intros Hnn. unfold is_in. destruct l as [|y tl]; [simpl; tauto|].
  destruct (existsb (eq_on (Some v)) (y :: tl)) eqn:He.
  - simpl. split; [discriminate|]. intros Hc. exfalso. apply Hc.
    apply existsb_exists in He. destruct He as [z [Hz Hon]].
    destruct z as [w|]; [|discriminate]. simpl in Hon.
    apply Z.eqb_eq in Hon. subst w. assumption.
  - destruct (existsb is_null (y :: tl)) eqn:Hn.
    + exfalso. apply existsb_exists in Hn. destruct Hn as [[w|] [Hz Hw]];
        [discriminate|]. exact (Hnn Hz).
    + simpl. split; [|reflexivity]. intros _ Hc.
      assert (Ht : existsb (eq_on (Some v)) (y :: tl) = true).
      { apply existsb_exists. exists (Some v). split; [assumption|].
        simpl. apply Z.eqb_refl. }
      congruence.
Qed.

Lemma NoDup_map_filter {A B : Type} (f : A -> B) (g : A -> bool) l :
  NoDup (map f l) -> NoDup (map f (filter g l)).
Proof.
  induction l as [|x tl IH]; simpl; intros Hnd; [constructor|].
  inversion Hnd as [|? ? Hnot Hnd']; subst.
  destruct (g x); simpl; [constructor|]; auto.
  intros Hc. apply Hnot. apply in_map_iff in Hc.
  destruct Hc as [y [Hy Hin]]. apply filter_In in Hin.
  apply in_map_iff. exists y. tauto.
Qed.

End SqlFacts.

(** ** The clustering loop over an abstract neighbours table *)

Module ClusterFacts.

Import Sql SqlFacts ConnectedComponents.
Local Open Scope Z_scope.

(** A fully populated row of a representatives table. *)
Definition row (n c : Z) (b : bool) : rep_row := mk_rep n (Some c) (Some b).

Lemma fst_functional {B : Type} (T : list (Z * B)) n a b :
  NoDup (map fst T) -> In (n, a) T -> In (n, b) T -> a = b.
Proof.
  induction T as [|[k v] tl IH]; simpl; intros Hnd Ha Hb; [destruct Ha|].
  inversion Hnd as [|? ? Hnot Hnd']; subst.
  destruct Ha as [Ha|Ha], Hb as [Hb|Hb].
  - congruence.
  - inversion Ha; subst. exfalso. apply Hnot.
    apply in_map_iff. exists (n, b). auto.
  - inversion Hb; subst. exfalso. apply Hnot.
    apply in_map_iff. exists (n, a). auto.
  - auto.
Qed.

Lemma node_id_functional (T : list rep_row) p q :
  NoDup (map node_id T) -> In p T -> In q T -> node_id p = node_id q -> p = q.
Proof.
  induction T as [|x tl IH]; simpl; intros Hnd Hp Hq Heq; [destruct Hp|].
  inversion Hnd as [|? ? Hnot Hnd']; subst.
  destruct Hp as [Hp|Hp], Hq as [Hq|Hq].
  - congruence.
  - subst x. exfalso. apply Hnot. rewrite Heq. apply in_map. assumption.
  - subst x. exfalso. apply Hnot. rewrite <- Heq. apply in_map. assumption.
  - auto.
Qed.

Section Neighbours.

Variable Nb : list (Z * option Z).

(** [nbr n m]: the neighbours table holds the row [(n, m)]. *)
Definition nbr (n m : Z) : Prop := In (n, Some m) Nb.

Definition is_node (n : Z) : Prop := In n (map fst Nb).

Hypothesis Nb_nonnull : forall n, ~ In (n, None) Nb.
Hypothesis Nb_self : forall n, is_node n -> nbr n n.
Hypothesis Nb_sym : forall n m, nbr n m -> is_node m -> nbr m n.

Lemma nbr_is_node n m : nbr n m -> is_node n.
Proof. intros H. apply in_map_iff. exists (n, Some m). auto. Qed.

(** *** The initial representatives *)

Let rep0 := _cc_generate_initial_representatives_table Nb.

Lemma rep0_NoDup : NoDup (map fst rep0).
Proof. apply order_by_NoDup_map. apply group_by_min_NoDup. Qed.

Lemma rep0_some n c :
  In (n, Some c) rep0 <-> nbr n c /\ forall x, nbr n x -> c <= x.
Proof.
  unfold rep0, _cc_generate_initial_representatives_table.
  rewrite in_order_by. apply in_group_by_min_some.
Qed.

Lemma rep0_nonnull n : ~ In (n, None) rep0.
Proof.
  unfold rep0, _cc_generate_initial_representatives_table.
  rewrite in_order_by. intros H. apply in_group_by_min_none in H.
  destruct H as [[x|] [Hin Hno]].
  - exact (Hno x Hin).
  - exact (Nb_nonnull n Hin).
Qed.

Lemma rep0_keys n : In n (map fst rep0) <-> is_node n.
Proof.
  unfold rep0, _cc_generate_initial_representatives_table, is_node.
  split; intros H.
  - apply in_map_iff in H. destruct H as [[k v] [Hk Hin]]. simpl in Hk.
    subst k. apply in_order_by in Hin. apply in_group_by_min in Hin. tauto.
  - apply in_map_iff.
    exists (n, agg_min (map snd (filter (fun r => fst r =? n) Nb))).
    split; [reflexivity|]. apply in_order_by. apply in_group_by_min. auto.
Qed.

Lemma rep0_total n : is_node n -> exists c, In (n, Some c) rep0.
Proof.
  intros H. apply rep0_keys in H. apply in_map_iff in H.
  destruct H as [[k [c|]] [Hk Hin]]; simpl in Hk; subst k.
  - exists c. assumption.
  - destruct (rep0_nonnull n Hin).
Qed.

(** *** The first propagation step *)

Let joined1 :=
  map (fun j : (Z * option Z) * option (Z * option Z) =>
         (fst (fst j), match snd j with
                       | Some r => snd r
                       | None => None
                       end))
      (left_join (fun nb r => eq_on (snd nb) (Some (fst r))) Nb rep0).

Let nfi := _cc_update_neighbours_first_iter Nb rep0.

Lemma joined1_some n c :
  In (n, Some c) joined1 <-> exists m, nbr n m /\ In (m, Some c) rep0.
Proof.
  unfold joined1. rewrite in_map_iff. split.
  - intros [[[n' o] j] [Heq Hin]]. simpl in Heq.
    apply in_left_join in Hin. destruct Hin as [Hnb Hcase].
    destruct Hcase as [[[m v] [-> [Hr Hon]]]|[-> _]];
      simpl in Heq; inversion Heq; subst.
    simpl in Hon. apply eq_on_true in Hon. subst o.
    exists m. split; assumption.
  - intros [m [Hnb Hr]]. exists ((n, Some m), Some (m, Some c)).
    split; [reflexivity|]. apply in_left_join. split; [exact Hnb|].
    left. exists (m, Some c). split; [reflexivity|]. split; [assumption|].
    simpl. apply Z.eqb_refl.
Qed.

Lemma joined1_keys n : In n (map fst joined1) <-> is_node n.
Proof.
  unfold joined1, is_node. rewrite map_map. simpl. split; intros H.
  - apply in_map_iff in H. destruct H as [[[n' o] j] [Heq Hin]].
    simpl in Heq. subst n'. apply in_left_join in Hin.
    apply in_map_iff. exists (n, o). tauto.
  - destruct (rep0_total n H) as [c Hc].
    assert (Hj : In (n, Some c) joined1).
    { apply joined1_some. exists n. split; [apply Nb_self; exact H|exact Hc]. }
    unfold joined1 in Hj. apply in_map_iff in Hj.
    destruct Hj as [j [Heq Hin]]. apply in_map_iff. exists j.
    split; [|exact Hin]. inversion Heq. reflexivity.
Qed.

Lemma nfi_NoDup : NoDup (map fst nfi).
Proof. apply order_by_NoDup_map. apply group_by_min_NoDup. Qed.

Lemma nfi_some n c :
  In (n, Some c) nfi <->
  (exists m, nbr n m /\ In (m, Some c) rep0) /\
  (forall m x, nbr n m -> In (m, Some x) rep0 -> c <= x).
Proof.
  unfold nfi, _cc_update_neighbours_first_iter.
  rewrite in_order_by. fold joined1. rewrite in_group_by_min_some.
  rewrite joined1_some. split; intros [H1 H2]; (split; [exact H1|]).
  - intros m x Hnb Hr. apply H2. apply joined1_some. exists m. auto.
  - intros x Hx. apply joined1_some in Hx. destruct Hx as [m [Hnb Hr]].
    exact (H2 m x Hnb Hr).
Qed.

Lemma nfi_keys n : In n (map fst nfi) <-> is_node n.
Proof.
  unfold nfi, _cc_update_neighbours_first_iter. fold joined1.
  rewrite <- joined1_keys. split; intros H.
  - apply in_map_iff in H. destruct H as [[k v] [Hk Hin]]. simpl in Hk.
    subst k. apply in_order_by in Hin. apply in_group_by_min in Hin. tauto.
  - apply in_map_iff.
    exists (n, agg_min (map snd (filter (fun r => fst r =? n) joined1))).
    split; [reflexivity|]. apply in_order_by. apply in_group_by_min. auto.
Qed.

Lemma nfi_nonnull n : ~ In (n, None) nfi.
Proof.
  unfold nfi, _cc_update_neighbours_first_iter. fold joined1.
  rewrite in_order_by. intros H. apply in_group_by_min_none in H.
  destruct H as [v [Hin Hno]].
  assert (Hn : is_node n).
  { apply joined1_keys. apply in_map_iff. exists (n, v). auto. }
  destruct (rep0_total n Hn) as [c Hc]. apply (Hno c).
  apply joined1_some. exists n. split; [apply Nb_self|]; assumption.
Qed.

Lemma nfi_total n : is_node n -> exists c, In (n, Some c) nfi.
Proof.
  intros H. apply nfi_keys in H. apply in_map_iff in H.
  destruct H as [[k [c|]] [Hk Hin]]; simpl in Hk; subst k.
  - exists c. assumption.
  - destruct (nfi_nonnull n Hin).
Qed.

(** *** The table that enters the loop *)

Let R1 := initial_representatives Nb.

Lemma R1_rows p :
  In p R1 <->
  exists n c c0, In (n, Some c) nfi /\ In (n, Some c0) rep0 /\
                 p = row n c (negb (c =? c0)).
Proof.
  unfold R1, initial_representatives, _cc_update_representatives_first_iter.
  fold rep0. fold nfi. rewrite in_map_iff. split.
  - intros [[[n o] [n0 o0]] [Hp Hin]]. simpl in Hp.
    apply in_inner_join in Hin. destruct Hin as [Hn [Hr Hon]].
    simpl in Hon. apply Z.eqb_eq in Hon. subst n0.
    destruct o as [c|]; [|destruct (nfi_nonnull n Hn)].
    destruct o0 as [c0|]; [|destruct (rep0_nonnull n Hr)].
    exists n, c, c0. subst p. auto.
  - intros [n [c [c0 [Hn [Hr ->]]]]].
    exists ((n, Some c), (n, Some c0)). split; [reflexivity|].
    apply in_inner_join. simpl. rewrite Z.eqb_refl. auto.
Qed.

Lemma R1_NoDup : NoDup (map node_id R1).
Proof.
  unfold R1, initial_representatives, _cc_update_representatives_first_iter.
  fold rep0. fold nfi. rewrite map_map. simpl.
  apply (inner_join_keys_NoDup fst fst); [apply nfi_NoDup|apply rep0_NoDup].
Qed.

Lemma R1_keys n : In n (map node_id R1) <-> is_node n.
Proof.
  split; intros H.
  - apply in_map_iff in H. destruct H as [p [Hk Hp]].
    apply R1_rows in Hp. destruct Hp as [n' [c [c0 [Hn [_ ->]]]]].
    simpl in Hk. subst n'. apply nfi_keys. apply in_map_iff.
    exists (n, Some c). auto.
  - destruct (nfi_total n H) as [c Hc]. destruct (rep0_total n H) as [c0 Hc0].
    apply in_map_iff. exists (row n c (negb (c =? c0))).
    split; [reflexivity|]. apply R1_rows. exists n, c, c0. auto.
Qed.

(** *** The loop invariant *)

Definition reach : Z -> Z -> Prop := clos_refl_trans Z nbr.

Record Inv (T : list rep_row) : Prop := mk_Inv {
  inv_nodup : NoDup (map node_id T);
  inv_shape : forall p, In p T -> exists c b, p = row (node_id p) c b;
  inv_node : forall p, In p T -> is_node (node_id p);
  inv_closed : forall n m,
    nbr n m -> In m (map node_id T) -> In n (map node_id T);
  inv_settled : forall n m cn bn cm,
    nbr n m -> In (row n cn bn) T -> In (row m cm false) T -> cn <= cm;
  inv_le : forall n c b, In (row n c b) T -> c <= n;
  inv_reach : forall n c b, In (row n c b) T -> reach n c
}.

Lemma row_inj n c b n' c' b' :
  row n c b = row n' c' b' -> n = n' /\ c = c' /\ b = b'.
Proof. intros H. inversion H. auto. Qed.

Lemma R1_row n c b :
  In (row n c b) R1 <->
  exists c0, In (n, Some c) nfi /\ In (n, Some c0) rep0 /\
             b = negb (c =? c0).
Proof.
  rewrite R1_rows. split.
  - intros [n' [c' [c0 [Hn [Hr Heq]]]]]. apply row_inj in Heq.
    destruct Heq as [-> [-> ->]]. exists c0. auto.
  - intros [c0 [Hn [Hr ->]]]. exists n, c, c0. auto.
Qed.

Lemma Inv_R1 : Inv R1.
Proof.
  constructor.
  - apply R1_NoDup.
  - intros p Hp. apply R1_rows in Hp.
    destruct Hp as [n [c [c0 [_ [_ ->]]]]]. simpl. eauto.
  - intros p Hp. apply R1_keys. apply in_map. assumption.
  - intros n m Hnb _. apply R1_keys. eapply nbr_is_node; eassumption.
  - intros n m cn bn cm Hnb Hn Hm.
    apply R1_row in Hn. destruct Hn as [c0 [Hn _]].
    apply R1_row in Hm. destruct Hm as [cm0 [_ [Hm0 Hb]]].
    symmetry in Hb. apply negb_false_iff in Hb. apply Z.eqb_eq in Hb.
    subst cm0. apply nfi_some in Hn. destruct Hn as [_ Hmin].
    exact (Hmin m cm Hnb Hm0).
  - intros n c b Hn. apply R1_row in Hn. destruct Hn as [c0 [Hn [Hr _]]].
    apply nfi_some in Hn. destruct Hn as [_ Hmin].
    apply rep0_some in Hr. destruct Hr as [Hnb Hmin0].
    assert (Hnode : is_node n) by (eapply nbr_is_node; eassumption).
    assert (c0 <= n) by (apply Hmin0; apply Nb_self; assumption).
    assert (c <= c0).
    { apply (Hmin n c0); [apply Nb_self; assumption|].
      apply rep0_some. auto. }
    lia.
  - intros n c b Hn. apply R1_row in Hn. destruct Hn as [c0 [Hn _]].
    apply nfi_some in Hn. destruct Hn as [[m [Hnb Hr]] _].
    apply rep0_some in Hr. destruct Hr as [Hmc _].
    eapply rt_trans; apply rt_step; eassumption.
Qed.

(** *** One propagation step of the loop *)

Definition cand (T : list rep_row) (n x : Z) : Prop :=
  (exists m, nbr n m /\ In (row m x true) T) \/ In (row n x false) T.

Definition source (T : list rep_row) : list (Z * option Z) :=
  map (fun j : (Z * option Z) * rep_row =>
         (fst (fst j), representative (snd j)))
      (filter (fun j => is_true (rep_match (snd j)))
         (inner_join (fun nb r => eq_on (snd nb) (Some (node_id r))) Nb T))
  ++
  map (fun p => (node_id p, representative p))
      (filter (fun p => is_false (rep_match p)) T).

Definition step (T : list rep_row) : list rep_row :=
  _cc_update_representatives_loop_cond
    (_cc_generate_representatives_loop_cond Nb T) T.

Lemma shape_row T p :
  Inv T -> In p T ->
  exists c b, p = row (node_id p) c b /\ In (row (node_id p) c b) T.
Proof.
  intros HI Hp. destruct (inv_shape T HI p Hp) as [c [b Heq]].
  exists c, b. split; [assumption|]. rewrite <- Heq. assumption.
Qed.

Lemma source_in T n v :
  Inv T -> (In (n, v) (source T) <-> exists x, v = Some x /\ cand T n x).
Proof.
  intros HI. unfold source. rewrite in_app_iff, !in_map_iff. split.
  - intros [[[[n' o] q] [Heq Hin]]|[p [Heq Hin]]].
    + simpl in Heq. apply filter_In in Hin. destruct Hin as [Hin Hb].
      apply in_inner_join in Hin. destruct Hin as [Hnb [Hq Hon]].
      simpl in Hon, Hb. apply eq_on_true in Hon. subst o.
      destruct (shape_row T q HI Hq) as [c [b [Hs Hrow]]].
      rewrite Hs in Heq, Hb. simpl in Heq, Hb.
      injection Heq as Hn Hv. subst n' v.
      destruct b; [|discriminate]. exists c. split; [reflexivity|].
      left. exists (node_id q). auto.
    + apply filter_In in Hin. destruct Hin as [Hp Hb].
      destruct (shape_row T p HI Hp) as [c [b [Hs Hrow]]].
      rewrite Hs in Heq, Hb. simpl in Heq, Hb.
      injection Heq as Hn Hv. subst v.
      destruct b; [discriminate|]. exists c. split; [reflexivity|].
      right. rewrite <- Hn. exact Hrow.
  - intros [x [-> [[m [Hnb Hm]]|Hn]]].
    + left. exists ((n, Some m), row m x true). split; [reflexivity|].
      apply filter_In. split; [|reflexivity]. apply in_inner_join.
      split; [exact Hnb|]. split; [exact Hm|]. simpl. apply Z.eqb_refl.
    + right. exists (row n x false). split; [reflexivity|].
      apply filter_In. split; [exact Hn|reflexivity].
Qed.

Lemma cand_key T n x : Inv T -> cand T n x -> In n (map node_id T).
Proof.
  intros HI [[m [Hnb Hm]]|Hn].
  - apply (inv_closed T HI n m Hnb). apply (in_map node_id) in Hm. exact Hm.
  - apply (in_map node_id) in Hn. exact Hn.
Qed.

Lemma cand_own T n c b : Inv T -> In (row n c b) T -> cand T n c.
Proof.
  intros HI Hn. destruct b.
  - left. exists n. split; [|exact Hn]. apply Nb_self.
    exact (inv_node T HI _ Hn).
  - right. exact Hn.
Qed.

Lemma r_some T n c :
  Inv T ->
  (In (n, Some c) (_cc_generate_representatives_loop_cond Nb T) <->
   cand T n c /\ forall x, cand T n x -> c <= x).
Proof.
  intros HI. unfold _cc_generate_representatives_loop_cond.
  fold (source T). rewrite in_group_by_min_some.
  split; intros [H1 H2]; split.
  - apply (source_in T n (Some c) HI) in H1.
    destruct H1 as [x [Heq Hc]]. inversion Heq; subst. exact Hc.
  - intros x Hx. apply H2. apply source_in; eauto.
  - apply source_in; eauto.
  - intros x Hx. apply (source_in T n (Some x) HI) in Hx.
    destruct Hx as [y [Heq Hc]]. inversion Heq; subst. apply H2. exact Hc.
Qed.

Lemma r_nonnull T n :
  Inv T -> ~ In (n, None) (_cc_generate_representatives_loop_cond Nb T).
Proof.
  intros HI H. unfold _cc_generate_representatives_loop_cond in H.
  fold (source T) in H. apply in_group_by_min_none in H.
  destruct H as [v [Hin Hno]]. pose proof Hin as Hin'.
  apply (source_in T n v HI) in Hin. destruct Hin as [x [-> _]].
  exact (Hno x Hin').
Qed.

Lemma r_key T n o :
  Inv T -> In (n, o) (_cc_generate_representatives_loop_cond Nb T) ->
  In n (map node_id T).
Proof.
  intros HI H. destruct o as [c|]; [|destruct (r_nonnull T n HI H)].
  apply r_some in H; [|exact HI]. destruct H as [Hc _].
  eapply cand_key; eassumption.
Qed.

Lemma key_row T n :
  Inv T -> In n (map node_id T) -> exists c b, In (row n c b) T.
Proof.
  intros HI H. apply in_map_iff in H. destruct H as [p [<- Hp]].
  destruct (shape_row T p HI Hp) as [c [b [_ Hrow]]]. eauto.
Qed.

Lemma row_unique T n c b c' b' :
  Inv T -> In (row n c b) T -> In (row n c' b') T -> c = c' /\ b = b'.
Proof.
  intros HI H1 H2.
  assert (Heq : row n c b = row n c' b').
  { apply (node_id_functional T); auto. apply (inv_nodup T HI). }
  apply row_inj in Heq. tauto.
Qed.

Lemma step_rows T p :
  Inv T ->
  (In p (step T) <->
   exists n c c0 b0,
     In (n, Some c) (_cc_generate_representatives_loop_cond Nb T) /\
     In (row n c0 b0) T /\ p = row n c (negb (c =? c0))).
Proof.
  intros HI. unfold step, _cc_update_representatives_loop_cond.
  rewrite in_map_iff. split.
  - intros [[[n o] j] [Hp Hin]]. simpl in Hp.
    apply in_left_join in Hin. destruct Hin as [Hr Hcase].
    destruct o as [c|]; [|destruct (r_nonnull T n HI Hr)].
    destruct Hcase as [[q [-> [Hq Hon]]]|[-> Hno]].
    + simpl in Hon. apply Z.eqb_eq in Hon.
      destruct (shape_row T q HI Hq) as [c0 [b0 [Hs Hrow]]].
      exists n, c, c0, b0. rewrite Hon. split; [rewrite <- Hon; exact Hr|].
      split; [exact Hrow|]. subst p. rewrite Hs. simpl. rewrite <- Hon.
      reflexivity.
    + exfalso. pose proof (r_key T n (Some c) HI Hr) as Hk.
      apply in_map_iff in Hk. destruct Hk as [q [Hk Hq]].
      specialize (Hno q Hq). simpl in Hno. rewrite Hk, Z.eqb_refl in Hno.
      discriminate.
  - intros [n [c [c0 [b0 [Hr [Hq ->]]]]]].
    exists ((n, Some c), Some (row n c0 b0)). split; [reflexivity|].
    apply in_left_join. split; [exact Hr|]. left.
    exists (row n c0 b0). split; [reflexivity|]. split; [exact Hq|].
    simpl. apply Z.eqb_refl.
Qed.

Lemma step_row T n c b :
  Inv T ->
  (In (row n c b) (step T) <->
   exists c0 b0,
     In (row n c0 b0) T /\ cand T n c /\ (forall x, cand T n x -> c <= x) /\
     b = negb (c =? c0)).
Proof.
  intros HI. rewrite (step_rows T _ HI). split.
  - intros [n' [c' [c0 [b0 [Hr [Hq Heq]]]]]]. apply row_inj in Heq.
    destruct Heq as [-> [-> ->]]. apply r_some in Hr; [|exact HI].
    exists c0, b0. tauto.
  - intros [c0 [b0 [Hq [Hc [Hmin ->]]]]]. exists n, c, c0, b0.
    split; [apply r_some; auto|]. auto.
Qed.

Lemma step_keys T n :
  Inv T -> (In n (map node_id (step T)) <-> In n (map node_id T)).
Proof.
  intros HI. split; intros H.
  - apply in_map_iff in H. destruct H as [p [<- Hp]].
    apply step_rows in Hp; [|exact HI].
    destruct Hp as [n' [c [c0 [b0 [_ [Hq ->]]]]]]. simpl.
    apply (in_map node_id) in Hq. exact Hq.
  - destruct (key_row T n HI H) as [c0 [b0 Hq]].
    pose proof (cand_own T n c0 b0 HI Hq) as Hc.
    assert (Hs : In (n, Some c0) (source T)) by (apply source_in; eauto).
    assert (Hk : In n (map fst (_cc_generate_representatives_loop_cond Nb T))).
    { unfold _cc_generate_representatives_loop_cond. fold (source T).
      rewrite group_by_min_keys. apply nodup_In. apply in_map_iff.
      exists (n, Some c0). auto. }
    apply in_map_iff in Hk. destruct Hk as [[k [c|]] [Hk Hr]];
      simpl in Hk; subst k; [|destruct (r_nonnull T n HI Hr)].
    apply in_map_iff. exists (row n c (negb (c =? c0))).
    split; [reflexivity|]. apply step_rows; [exact HI|].
    exists n, c, c0, b0. auto.
Qed.

Lemma step_NoDup T : Inv T -> NoDup (map node_id (step T)).
Proof.
  intros HI. unfold step, _cc_update_representatives_loop_cond.
  rewrite map_map. simpl.
  apply (left_join_keys_NoDup fst node_id).
  - apply group_by_min_NoDup.
  - apply (inv_nodup T HI).
Qed.

Lemma Inv_step T : Inv T -> Inv (step T).
Proof.
  intros HI. constructor.
  - apply step_NoDup. exact HI.
  - intros p Hp. apply step_rows in Hp; [|exact HI].
    destruct Hp as [n [c [c0 [b0 [_ [_ ->]]]]]]. simpl. eauto.
  - intros p Hp. apply (in_map node_id) in Hp.
    apply (proj1 (step_keys T _ HI)) in Hp.
    apply in_map_iff in Hp. destruct Hp as [q [<- Hq]].
    exact (inv_node T HI q Hq).
  - intros n m Hnb Hm. apply step_keys; [exact HI|].
    apply (proj1 (step_keys T _ HI)) in Hm.
    exact (inv_closed T HI n m Hnb Hm).
  - intros n m cn bn cm Hnb Hn Hm.
    apply step_row in Hn; [|exact HI]. apply step_row in Hm; [|exact HI].
    destruct Hn as [cn0 [bn0 [Hn0 [_ [Hmin _]]]]].
    destruct Hm as [cm0 [bm0 [Hm0 [_ [_ Hb]]]]].
    symmetry in Hb. apply negb_false_iff in Hb. apply Z.eqb_eq in Hb.
    subst cm0. destruct bm0.
    + apply Hmin. left. exists m. auto.
    + assert (cn0 <= cm) by exact (inv_settled T HI n m cn0 bn0 cm Hnb Hn0 Hm0).
      assert (cn <= cn0) by (apply Hmin; eapply cand_own; eassumption).
      lia.
  - intros n c b Hn. apply step_row in Hn; [|exact HI].
    destruct Hn as [c0 [b0 [Hn0 [_ [Hmin _]]]]].
    assert (c <= c0) by (apply Hmin; eapply cand_own; eassumption).
    assert (c0 <= n) by exact (inv_le T HI n c0 b0 Hn0). lia.
  - intros n c b Hn. apply step_row in Hn; [|exact HI].
    destruct Hn as [c0 [b0 [Hn0 [[[m [Hnb Hm]]|Hown] _]]]].
    + eapply rt_trans; [apply rt_step; exact Hnb|].
      exact (inv_reach T HI m c true Hm).
    + exact (inv_reach T HI n c false Hown).
Qed.

(** *** Stable clusters *)

Definition joined2 (R : list rep_row)
  : list (rep_row * option (Z * option Z)) :=
  left_join (fun r nb => node_id r =? fst nb)
    (order_by (fun a b => node_id a <=? node_id b) R) Nb.

Definition group_ids (R : list rep_row) (c : option Z) : list Z :=
  list_sort
    (list_distinct
       (map (fun j : rep_row * option (Z * option Z) => Some (node_id (fst j)))
            (filter (fun j => same_group (representative (fst j)) c)
               (joined2 R)))).

Definition group_nbs (R : list rep_row) (c : option Z) : list Z :=
  list_sort
    (list_distinct
       (map (fun j : rep_row * option (Z * option Z) =>
               match snd j with
               | Some nb => snd nb
               | None => None
               end)
            (filter (fun j => same_group (representative (fst j)) c)
               (joined2 R)))).

Definition stable_reps (R : list rep_row) : list (option Z) :=
  map fst (stable_clusters (cluster_composition_current R Nb)).

Definition stable_rows (R : list rep_row) : list rep_row :=
  representatives_stable R
    (stable_clusters (cluster_composition_current R Nb)).

Definition thinned (R : list rep_row) : list rep_row :=
  representatives_thinned R (stable_rows R).

Lemma same_group_true x y : same_group x y = true <-> x = y.
Proof.
  unfold same_group. destruct (opt_eq_dec x y); split; congruence.
Qed.

Lemma ids_eqb_true a b : ids_eqb a b = true <-> a = b.
Proof.
  unfold ids_eqb. destruct (list_eq_dec Z.eq_dec a b); split; congruence.
Qed.

Lemma in_joined2 R p o :
  In (p, o) (joined2 R) <->
  In p R /\
  ((exists nb, o = Some nb /\ In nb Nb /\ node_id p = fst nb) \/
   (o = None /\ forall nb, In nb Nb -> node_id p <> fst nb)).
Proof.
  unfold joined2. rewrite in_left_join, in_order_by.
  split; intros [Hp Hcase]; (split; [exact Hp|]).
  - destruct Hcase as [[nb [-> [Hnb Hon]]]|[-> Hno]].
    + left. exists nb. apply Z.eqb_eq in Hon. auto.
    + right. split; [reflexivity|]. intros nb Hnb Heq.
      specialize (Hno nb Hnb). simpl in Hno. apply Z.eqb_neq in Hno. auto.
  - destruct Hcase as [[nb [-> [Hnb Hon]]]|[-> Hno]].
    + left. exists nb. apply Z.eqb_eq in Hon. auto.
    + right. split; [reflexivity|]. intros nb Hnb. apply Z.eqb_neq. auto.
Qed.

Lemma in_group_ids R c x :
  In x (group_ids R c) <->
  exists p, In p R /\ representative p = c /\ node_id p = x.
Proof.
  unfold group_ids. rewrite in_list_sort, in_list_distinct, in_map_iff.
  split.
  - intros [[p o] [Heq Hin]]. simpl in Heq. apply filter_In in Hin.
    destruct Hin as [Hin Hg]. simpl in Hg. apply same_group_true in Hg.
    apply in_joined2 in Hin. exists p. inversion Heq. tauto.
  - intros [p [Hp [Hc Hx]]].
    destruct (left_join_fst (fun r nb => node_id r =? fst nb)
                (order_by (fun a b => node_id a <=? node_id b) R) Nb p)
      as [o Ho]; [apply in_order_by; exact Hp|].
    exists (p, o). split; [simpl; congruence|]. apply filter_In.
    split; [exact Ho|]. simpl. apply same_group_true. exact Hc.
Qed.

Lemma in_group_nbs R c x :
  In x (group_nbs R c) <->
  exists p, In p R /\ representative p = c /\ nbr (node_id p) x.
Proof.
  unfold group_nbs. rewrite in_list_sort, in_list_distinct, in_map_iff.
  split.
  - intros [[p o] [Heq Hin]]. simpl in Heq. apply filter_In in Hin.
    destruct Hin as [Hin Hg]. simpl in Hg. apply same_group_true in Hg.
    apply in_joined2 in Hin. destruct Hin as [Hp Hcase]. exists p.
    split; [exact Hp|]. split; [exact Hg|].
    destruct Hcase as [[[k v] [-> [Hnb Hk]]]|[-> _]]; [|discriminate].
    simpl in Heq, Hk. subst v k. exact Hnb.
  - intros [p [Hp [Hc Hx]]]. exists (p, Some (node_id p, Some x)).
    split; [reflexivity|]. apply filter_In.
    split; [|simpl; apply same_group_true; exact Hc].
    apply in_joined2. split; [exact Hp|]. left.
    exists (node_id p, Some x). auto.
Qed.

Lemma in_stable_reps R c :
  In c (stable_reps R) <->
  In c (map representative R) /\ group_ids R c = group_nbs R c.
Proof.
  unfold stable_reps, stable_clusters, cluster_composition_current.
  cbv zeta. fold (joined2 R). rewrite map_map. simpl.
  rewrite in_map_iff. split.
  - intros [comp [Hc Hin]]. apply filter_In in Hin. destruct Hin as [Hin Heq].
    apply in_map_iff in Hin. destruct Hin as [c' [Hcomp Hc']].
    subst comp. simpl in Hc, Heq. subst c'. apply ids_eqb_true in Heq.
    split; [|exact Heq]. apply nodup_In in Hc'. apply in_map_iff in Hc'.
    destruct Hc' as [[p o] [Hr Hj]]. simpl in Hr. apply in_joined2 in Hj.
    apply in_map_iff. exists p. tauto.
  - intros [Hc Heq].
    exists (mk_composition c (group_ids R c) (group_nbs R c)).
    split; [reflexivity|]. apply filter_In. split.
    + apply in_map_iff. exists c. split; [reflexivity|]. apply nodup_In.
      apply in_map_iff in Hc. destruct Hc as [p [Hr Hp]].
      destruct (left_join_fst (fun r nb => node_id r =? fst nb)
                  (order_by (fun a b => node_id a <=? node_id b) R) Nb p)
        as [o Ho]; [apply in_order_by; exact Hp|].
      apply in_map_iff. exists (p, o). auto.
    + simpl. apply ids_eqb_true. exact Heq.
Qed.

Lemma stable_closed R c n b m :
  Inv R -> In (Some c) (stable_reps R) -> In (row n c b) R -> nbr n m ->
  exists b', In (row m c b') R.
Proof.
  intros HI Hs Hn Hnb. apply in_stable_reps in Hs. destruct Hs as [_ Heq].
  assert (Hm : In m (group_nbs R (Some c))).
  { apply in_group_nbs. exists (row n c b). auto. }
  rewrite <- Heq in Hm. apply in_group_ids in Hm.
  destruct Hm as [p [Hp [Hr Hk]]].
  destruct (shape_row R p HI Hp) as [c' [b' [Hs Hrow]]].
  rewrite Hs in Hr. simpl in Hr. inversion Hr; subst c' m.
  exists b'. exact Hrow.
Qed.

Lemma closed_stable R c n b :
  Inv R -> In (row n c b) R ->
  (forall n b m, In (row n c b) R -> nbr n m -> exists b', In (row m c b') R) ->
  In (Some c) (stable_reps R).
Proof.
  intros HI Hn Hcl. apply in_stable_reps. split.
  - apply in_map_iff. exists (row n c b). auto.
  - unfold group_ids, group_nbs.
    apply list_sort_unique; try apply list_distinct_NoDup.
    intros x. fold (group_ids R (Some c)). fold (group_nbs R (Some c)).
    pose proof (in_group_ids R (Some c) x) as Hi.
    pose proof (in_group_nbs R (Some c) x) as Hn'.
    unfold group_ids, list_sort in Hi. rewrite in_order_by in Hi.
    unfold group_nbs, list_sort in Hn'. rewrite in_order_by in Hn'.
    rewrite Hi, Hn'. split.
    + intros [p [Hp [Hr Hk]]]. exists p. split; [exact Hp|].
      split; [exact Hr|]. rewrite Hk. apply Nb_self. rewrite <- Hk.
      exact (inv_node R HI p Hp).
    + intros [p [Hp [Hr Hnb]]].
      destruct (shape_row R p HI Hp) as [c' [b' [Hs Hrow]]].
      rewrite Hs in Hr. simpl in Hr. inversion Hr; subst c'.
      destruct (Hcl (node_id p) b' x Hrow Hnb) as [b'' Hx].
      exists (row x c b''). auto.
Qed.

(** *** Splitting a table into its stable and its unstable rows *)

Lemma in_stable_rows R p :
  In p (stable_rows R) <->
  In p R /\ exists c, representative p = Some c /\ In (Some c) (stable_reps R).
Proof.
  unfold stable_rows, representatives_stable. rewrite filter_In.
  fold (stable_reps R). rewrite is_in_holds. tauto.
Qed.

Lemma in_thinned R p :
  Inv R -> (In p (thinned R) <-> In p R /\ ~ In p (stable_rows R)).
Proof.
  intros HI. unfold thinned, representatives_thinned. rewrite filter_In.
  assert (Hnn : ~ In None (map representative (stable_rows R))).
  { intros H. apply in_map_iff in H. destruct H as [q [Hr Hq]].
    apply in_stable_rows in Hq. destruct Hq as [_ [c [Hc _]]]. congruence. }
  split; intros [Hp H]; (split; [exact Hp|]);
    destruct (shape_row R p HI Hp) as [c [b [Hs _]]].
  - rewrite Hs in H. simpl in H. apply (not_in_holds c _ Hnn) in H.
    intros Hc. apply H. apply in_map_iff. exists p. split; [|exact Hc].
    rewrite Hs. reflexivity.
  - rewrite Hs. simpl. apply (not_in_holds c _ Hnn). intros Hc.
    apply in_map_iff in Hc. destruct Hc as [q [Hr Hq]].
    apply in_stable_rows in Hq. destruct Hq as [_ [c' [Hc' Hst]]].
    rewrite Hr in Hc'. inversion Hc'; subst c'.
    apply H. apply in_stable_rows. split; [exact Hp|]. exists c.
    split; [rewrite Hs; reflexivity|exact Hst].
Qed.

Lemma Inv_thinned R : Inv R -> Inv (thinned R).
Proof.
  intros HI.
  assert (Hsub : forall p, In p (thinned R) -> In p R).
  { intros p Hp. apply in_thinned in Hp; tauto. }
  constructor.
  - unfold thinned, representatives_thinned. apply NoDup_map_filter.
    apply (inv_nodup R HI).
  - intros p Hp. apply (inv_shape R HI). auto.
  - intros p Hp. apply (inv_node R HI). auto.
  - intros n m Hnb Hm. apply in_map_iff in Hm. destruct Hm as [q [Hk Hq]].
    apply in_thinned in Hq; [|exact HI]. destruct Hq as [Hq Hns].
    destruct (shape_row R q HI Hq) as [cm [bm [Hs Hrow]]].
    rewrite Hk in Hs, Hrow.
    assert (Hn : In n (map node_id R)).
    { apply (inv_closed R HI n m Hnb). apply in_map_iff. exists q. auto. }
    destruct (key_row R n HI Hn) as [cn [bn Hnrow]].
    apply in_map_iff. exists (row n cn bn). split; [reflexivity|].
    apply in_thinned; [exact HI|]. split; [exact Hnrow|]. intros Hst.
    apply in_stable_rows in Hst. destruct Hst as [_ [c [Hc Hsr]]].
    simpl in Hc. inversion Hc; subst c.
    destruct (stable_closed R cn n bn m HI Hsr Hnrow Hnb) as [b' Hm'].
    destruct (row_unique R m cm bm cn b' HI Hrow Hm') as [-> ->].
    apply Hns. apply in_stable_rows. split; [exact Hq|]. exists cn.
    split; [rewrite Hs; reflexivity|exact Hsr].
  - intros n m cn bn cm Hnb Hn Hm.
    exact (inv_settled R HI n m cn bn cm Hnb (Hsub _ Hn) (Hsub _ Hm)).
  - intros n c b Hn. exact (inv_le R HI n c b (Hsub _ Hn)).
  - intros n c b Hn. exact (inv_reach R HI n c b (Hsub _ Hn)).
Qed.

(** *** What a stable row says about its node *)

Definition good (p : rep_row) : Prop :=
  exists n c b, p = row n c b /\ is_node n /\ reach n c /\
                forall x, reach n x -> c <= x.

Lemma stable_reach R c n b x :
  Inv R -> In (Some c) (stable_reps R) -> In (row n c b) R -> reach n x ->
  exists b', In (row x c b') R.
Proof.
  intros HI Hs Hn Hr. apply clos_rt_rtn1 in Hr.
  induction Hr as [|y z Hyz Hr IH]; [eauto|].
  destruct IH as [b' Hy].
  exact (stable_closed R c y b' z HI Hs Hy Hyz).
Qed.

Lemma stable_rows_good R p : Inv R -> In p (stable_rows R) -> good p.
Proof.
  intros HI Hp. apply in_stable_rows in Hp. destruct Hp as [Hp [c [Hc Hs]]].
  destruct (shape_row R p HI Hp) as [c' [b [Hshape Hrow]]].
  rewrite Hshape in Hc. simpl in Hc. inversion Hc; subst c'.
  exists (node_id p), c, b. split; [exact Hshape|].
  split; [exact (inv_node R HI p Hp)|].
  split; [exact (inv_reach R HI _ c b Hrow)|].
  intros x Hx. destruct (stable_reach R c _ b x HI Hs Hrow Hx) as [b' Hx'].
  exact (inv_le R HI x c b' Hx').
Qed.

(** *** Nothing is left when the loop stops *)

Lemma exit_no_match T :
  _cc_assess_exit_condition T <= 0 ->
  forall p, In p T -> holds (rep_match p) = false.
Proof.
  unfold _cc_assess_exit_condition. intros Hc p Hp.
  destruct (holds (rep_match p)) eqn:Hh; [|reflexivity]. exfalso.
  assert (Hin : In p (filter (fun p => holds (rep_match p)) T))
    by (apply filter_In; auto).
  destruct (filter (fun p => holds (rep_match p)) T); [destruct Hin|].
  simpl length in Hc. lia.
Qed.

Section Within.

Hypothesis Nb_within : forall n m, nbr n m -> is_node m.

Lemma exit_empty R :
  Inv R -> _cc_assess_exit_condition (thinned R) <= 0 -> thinned R = [].
Proof.
  intros HI Hc. pose proof (exit_no_match _ Hc) as Hno.
  pose proof (Inv_thinned R HI) as HIt.
  assert (Hall : forall p, In p (thinned R) -> False);
    [|destruct (thinned R) as [|p tl]; [reflexivity|];
      exfalso; apply (Hall p); left; reflexivity].
  intros p Hp. pose proof Hp as Hp'. apply in_thinned in Hp'; [|exact HI].
  destruct Hp' as [HpR Hns].
  destruct (shape_row R p HI HpR) as [c [b [Hshape Hrow]]].
  assert (Hunst : ~ In (Some c) (stable_reps R)).
  { intros Hs. apply Hns. apply in_stable_rows. split; [exact HpR|].
    exists c. split; [rewrite Hshape; reflexivity|exact Hs]. }
  assert (Hth : forall n' b', In (row n' c b') R ->
                              In (row n' c b') (thinned R) /\ b' = false).
  { intros n' b' Hn'. assert (Hin : In (row n' c b') (thinned R)).
    { apply in_thinned; [exact HI|]. split; [exact Hn'|]. intros Hs.
      apply in_stable_rows in Hs. destruct Hs as [_ [c' [Hc' Hs]]].
      simpl in Hc'. inversion Hc'; subst c'. exact (Hunst Hs). }
    split; [exact Hin|]. specialize (Hno _ Hin). simpl in Hno.
    destruct b'; [discriminate|reflexivity]. }
  apply Hunst. apply (closed_stable R c (node_id p) b HI Hrow).
  intros n' b' m Hn' Hnb. destruct (Hth n' b' Hn') as [Hn't ->].
  assert (Hmn : nbr m n')
    by (apply Nb_sym; [exact Hnb|exact (Nb_within _ _ Hnb)]).
  assert (Hmk : In m (map node_id (thinned R))).
  { apply (inv_closed _ HIt m n' Hmn). apply (in_map node_id) in Hn't.
    exact Hn't. }
  destruct (key_row _ m HIt Hmk) as [cm [bm Hm]].
  assert (bm = false).
  { specialize (Hno _ Hm). simpl in Hno. destruct bm;
      [discriminate|reflexivity]. }
  subst bm.
  assert (c <= cm) by exact (inv_settled _ HIt n' m c false cm Hnb Hn't Hm).
  assert (cm <= c) by exact (inv_settled _ HIt m n' cm false c Hmn Hm Hn't).
  assert (cm = c) by lia. subst cm. exists false.
  apply in_thinned in Hm; tauto.
Qed.

End Within.

(** *** The keys of a table survive a turn of the loop *)

Lemma step_keys_perm T :
  Inv T -> Permutation (map node_id (step T)) (map node_id T).
Proof.
  intros HI. apply NoDup_Permutation.
  - apply step_NoDup. exact HI.
  - apply (inv_nodup T HI).
  - intros n. apply step_keys. exact HI.
Qed.

Lemma split_keys_perm R :
  Inv R ->
  Permutation (map node_id (stable_rows R ++ thinned R)) (map node_id R).
Proof.
  intros HI. apply NoDup_Permutation.
  - rewrite map_app. apply NoDup_app.
    + unfold stable_rows, representatives_stable. apply NoDup_map_filter.
      apply (inv_nodup R HI).
    + apply (inv_nodup _ (Inv_thinned R HI)).
    + intros k Hs Ht. apply in_map_iff in Hs. destruct Hs as [p [Hk Hp]].
      apply in_map_iff in Ht. destruct Ht as [q [Hk' Hq]].
      apply in_thinned in Hq; [|exact HI]. destruct Hq as [Hq Hns].
      apply Hns. replace q with p; [exact Hp|].
      apply (node_id_functional R); try congruence.
      * apply (inv_nodup R HI).
      * apply in_stable_rows in Hp. tauto.
  - apply (inv_nodup R HI).
  - intros k. rewrite map_app, in_app_iff, !in_map_iff. split.
    + intros [[p [Hk Hp]]|[p [Hk Hp]]]; exists p; (split; [exact Hk|]).
      * apply in_stable_rows in Hp. tauto.
      * apply in_thinned in Hp; tauto.
    + intros [p [Hk Hp]].
      destruct (holds (is_in (representative p) (stable_reps R))) eqn:Hh.
      * left. exists p. split; [exact Hk|]. unfold stable_rows,
          representatives_stable. apply filter_In. auto.
      * right. exists p. split; [exact Hk|]. apply in_thinned; [exact HI|].
        split; [exact Hp|]. intros Hs. unfold stable_rows,
          representatives_stable in Hs. apply filter_In in Hs.
        fold (stable_reps R) in Hs. destruct Hs as [_ Hs]. congruence.
Qed.

(** *** A potential that every unfinished turn lowers *)

Definition lowest : Z :=
  match agg_min (map snd Nb) with
  | Some v => v
  | None => 0
  end.

Definition rep_of (T : list rep_row) (n : Z) : option Z :=
  match find (fun p => node_id p =? n) T with
  | Some p => representative p
  | None => None
  end.

Definition weight (T : list rep_row) (n : Z) : nat :=
  match rep_of T n with
  | Some c => S (Z.to_nat (c - lowest))
  | None => O
  end.

Definition potential (T : list rep_row) : nat :=
  list_sum (map (weight T) (nodup Z.eq_dec (map fst Nb))).

Lemma lowest_le n c : nbr n c -> lowest <= c.
Proof.
  intros H. unfold lowest.
  assert (Hin : In (Some c) (map snd Nb)).
  { apply in_map_iff. exists (n, Some c). auto. }
  destruct (agg_min (map snd Nb)) as [v|] eqn:Hm.
  - apply agg_min_some in Hm. apply Hm. exact Hin.
  - exfalso. exact (proj1 (agg_min_none _) Hm c Hin).
Qed.

Lemma reach_lowest n c : is_node n -> reach n c -> lowest <= c.
Proof.
  intros Hn Hr. apply clos_rt_rtn1 in Hr. destruct Hr as [|y z Hyz _].
  - apply (lowest_le n). apply Nb_self. exact Hn.
  - exact (lowest_le y z Hyz).
Qed.

Lemma rep_of_row T n c b : Inv T -> In (row n c b) T -> rep_of T n = Some c.
Proof.
  intros HI Hn. unfold rep_of.
  destruct (find (fun p => node_id p =? n) T) as [p|] eqn:Hf.
  - apply find_some in Hf. destruct Hf as [Hp Hk]. apply Z.eqb_eq in Hk.
    replace p with (row n c b); [reflexivity|].
    apply (node_id_functional T); auto. apply (inv_nodup T HI).
  - pose proof (find_none _ _ Hf _ Hn) as Hk. simpl in Hk.
    rewrite Z.eqb_refl in Hk. discriminate.
Qed.

Lemma rep_of_some T n c :
  Inv T -> rep_of T n = Some c -> exists b, In (row n c b) T.
Proof.
  intros HI. unfold rep_of.
  destruct (find (fun p => node_id p =? n) T) as [p|] eqn:Hf; [|discriminate].
  apply find_some in Hf. destruct Hf as [Hp Hk]. apply Z.eqb_eq in Hk.
  intros Hr. destruct (shape_row T p HI Hp) as [c' [b [Hs Hrow]]].
  rewrite Hs in Hr. simpl in Hr. inversion Hr; subst c'. rewrite Hk in Hrow.
  eauto.
Qed.

(** Each remaining row descends from a row of the previous table, with a
    representative that is no larger, and strictly smaller when the row is
    flagged. *)
Lemma turn_descends T n c b :
  Inv T -> In (row n c b) (thinned (step T)) ->
  exists c0 b0, In (row n c0 b0) T /\ c <= c0 /\ (b = true -> c < c0).
Proof.
  intros HI Hn. apply in_thinned in Hn; [|apply Inv_step; exact HI].
  destruct Hn as [Hn _]. apply step_row in Hn; [|exact HI].
  destruct Hn as [c0 [b0 [Hn0 [_ [Hmin Hb]]]]]. exists c0, b0.
  split; [exact Hn0|].
  assert (c <= c0) by (apply Hmin; eapply cand_own; eassumption).
  split; [assumption|]. intros ->. symmetry in Hb.
  apply negb_true_iff in Hb. apply Z.eqb_neq in Hb. lia.
Qed.

Lemma weight_le T n :
  Inv T -> (weight (thinned (step T)) n <= weight T n)%nat.
Proof.
  intros HI. unfold weight at 1.
  destruct (rep_of (thinned (step T)) n) as [c|] eqn:Hr; [|lia].
  apply rep_of_some in Hr; [|apply Inv_thinned, Inv_step; exact HI].
  destruct Hr as [b Hn].
  destruct (turn_descends T n c b HI Hn) as [c0 [b0 [Hn0 [Hle _]]]].
  unfold weight. rewrite (rep_of_row T n c0 b0 HI Hn0). lia.
Qed.

Lemma weight_lt T n c :
  Inv T -> In (row n c true) (thinned (step T)) ->
  (weight (thinned (step T)) n < weight T n)%nat.
Proof.
  intros HI Hn.
  pose proof (Inv_thinned _ (Inv_step T HI)) as HIt.
  destruct (turn_descends T n c true HI Hn) as [c0 [b0 [Hn0 [_ Hlt]]]].
  specialize (Hlt eq_refl). unfold weight.
  rewrite (rep_of_row _ n c true HIt Hn), (rep_of_row T n c0 b0 HI Hn0).
  assert (lowest <= c).
  { apply (reach_lowest n); [exact (inv_node _ HIt _ Hn)|].
    exact (inv_reach _ HIt n c true Hn). }
  lia.
Qed.

Lemma list_sum_lt (f g : Z -> nat) l :
  (forall n, In n l -> (f n <= g n)%nat) ->
  (exists n, In n l /\ (f n < g n)%nat) ->
  (list_sum (map f l) < list_sum (map g l))%nat.
Proof.
  induction l as [|x tl IH]; simpl; intros Hle [n [Hin Hlt]]; [destruct Hin|].
  assert (Htl : (list_sum (map f tl) <= list_sum (map g tl))%nat).
  { clear IH Hin Hlt. induction tl as [|y t IHt]; simpl; [lia|].
    assert ((f y <= g y)%nat) by (apply Hle; right; left; reflexivity).
    assert ((list_sum (map f t) <= list_sum (map g t))%nat).
    { apply IHt. intros k [Hk|Hk]; apply Hle; [left|right; right]; auto. }
    lia. }
  destruct Hin as [->|Hin].
  - lia.
  - assert ((f x <= g x)%nat) by (apply Hle; left; reflexivity).
    assert ((list_sum (map f tl) < list_sum (map g tl))%nat).
    { apply IH; [intros k Hk; apply Hle; right; exact Hk|eauto]. }
    lia.
Qed.

Lemma potential_lt T :
  Inv T -> 0 < _cc_assess_exit_condition (thinned (step T)) ->
  (potential (thinned (step T)) < potential T)%nat.
Proof.
  intros HI Hc. unfold potential. apply list_sum_lt.
  - intros n _. apply weight_le. exact HI.
  - unfold _cc_assess_exit_condition in Hc.
    destruct (filter (fun p => holds (rep_match p)) (thinned (step T)))
      as [|p tl] eqn:Hf; [simpl in Hc; lia|].
    assert (Hp : In p (filter (fun p => holds (rep_match p))
                         (thinned (step T))))
      by (rewrite Hf; left; reflexivity).
    apply filter_In in Hp. destruct Hp as [Hp Hh].
    pose proof (Inv_thinned _ (Inv_step T HI)) as HIt.
    destruct (shape_row _ p HIt Hp) as [c [b [Hs Hrow]]].
    rewrite Hs in Hh. simpl in Hh. destruct b; [|discriminate].
    exists (node_id p). split.
    + apply nodup_In. exact (inv_node _ HIt p Hp).
    + exact (weight_lt T (node_id p) c HI Hrow).
Qed.

(** *** The loop as a whole *)

Definition emitted (s : loop_state) : list rep_row :=
  concat (converged_repr_tables s).

Record StateInv (s : loop_state) : Prop := mk_StateInv {
  st_inv : Inv (prev_representatives_table s);
  st_nodup :
    NoDup (map node_id (emitted s ++ prev_representatives_table s));
  st_all : forall n,
    is_node n <->
    In n (map node_id (emitted s ++ prev_representatives_table s));
  st_good : forall p, In p (emitted s) -> good p
}.

Lemma loop_body_eq s :
  loop_body Nb s =
  mk_state (thinned (step (prev_representatives_table s)))
    (converged_repr_tables s
     ++ [stable_rows (step (prev_representatives_table s))])
    (_cc_assess_exit_condition (thinned (step (prev_representatives_table s)))).
Proof. reflexivity. Qed.

Lemma StateInv_initial : StateInv (initial_state Nb).
Proof.
  constructor; simpl.
  - exact Inv_R1.
  - exact R1_NoDup.
  - intros n. symmetry. apply R1_keys.
  - intros p [].
Qed.

Lemma StateInv_body s : StateInv s -> StateInv (loop_body Nb s).
Proof.
  intros [HI Hnd Hall Hgood]. rewrite loop_body_eq.
  set (T := prev_representatives_table s) in *.
  pose proof (Inv_step T HI) as HIs.
  assert (Hperm :
    Permutation
      (map node_id (emitted s ++ T))
      (map node_id
         ((emitted s ++ stable_rows (step T)) ++ thinned (step T)))).
  { rewrite <- app_assoc, !map_app. apply Permutation_app_head.
    rewrite <- map_app. apply Permutation_sym.
    eapply perm_trans; [apply split_keys_perm; exact HIs|].
    apply step_keys_perm. exact HI. }
  assert (Hem : emitted
            (mk_state (thinned (step T))
               (converged_repr_tables s ++ [stable_rows (step T)])
               (_cc_assess_exit_condition (thinned (step T)))) =
          emitted s ++ stable_rows (step T)).
  { unfold emitted. simpl. rewrite concat_app. simpl.
    rewrite app_nil_r. reflexivity. }
  constructor; simpl prev_representatives_table; try rewrite Hem.
  - apply Inv_thinned. exact HIs.
  - eapply Permutation_NoDup; [exact Hperm|exact Hnd].
  - intros n. rewrite Hall. split; apply Permutation_in;
      [|apply Permutation_sym]; exact Hperm.
  - intros p Hp. apply in_app_iff in Hp. destruct Hp as [Hp|Hp].
    + apply Hgood. exact Hp.
    + exact (stable_rows_good _ p HIs Hp).
Qed.

Lemma while_loop_done k s :
  root_rows_count s <= 0 -> while_loop k Nb s = Some s.
Proof.
  intros H. assert (Hb : (0 <? root_rows_count s) = false)
    by (apply Z.ltb_ge; exact H).
  destruct k; simpl; rewrite Hb; reflexivity.
Qed.

Lemma while_loop_more k s :
  0 < root_rows_count s ->
  while_loop (S k) Nb s = while_loop k Nb (loop_body Nb s).
Proof.
  intros H. assert (Hb : (0 <? root_rows_count s) = true)
    by (apply Z.ltb_lt; exact H).
  simpl. rewrite Hb. reflexivity.
Qed.

Lemma while_loop_mono k k' s s' :
  (k <= k')%nat -> while_loop k Nb s = Some s' -> while_loop k' Nb s = Some s'.
Proof.
  revert k' s. induction k as [|k IH]; intros k' s Hle Hrun.
  - destruct (0 <? root_rows_count s) eqn:Hb.
    + simpl in Hrun. rewrite Hb in Hrun. discriminate.
    + simpl in Hrun. rewrite Hb in Hrun. inversion Hrun; subst s'.
      apply while_loop_done. apply Z.ltb_ge. exact Hb.
  - destruct k' as [|k']; [lia|].
    destruct (0 <? root_rows_count s) eqn:Hb.
    + apply Z.ltb_lt in Hb. rewrite (while_loop_more k' _ Hb).
      rewrite (while_loop_more k _ Hb) in Hrun.
      apply IH; [lia|exact Hrun].
    + apply Z.ltb_ge in Hb. rewrite (while_loop_done (S k') _ Hb).
      rewrite (while_loop_done (S k) _ Hb) in Hrun. exact Hrun.
Qed.

Lemma run_from k : forall s,
  StateInv s -> (potential (prev_representatives_table s) <= k)%nat ->
  exists s',
    while_loop k Nb (loop_body Nb s) = Some s' /\ StateInv s' /\
    root_rows_count s' =
      _cc_assess_exit_condition (prev_representatives_table s') /\
    root_rows_count s' <= 0 /\
    exists R, Inv R /\ prev_representatives_table s' = thinned R.
Proof.
  induction k as [|k IH]; intros s HS Hpot;
    pose proof (StateInv_body s HS) as HS1;
    destruct (Z_lt_le_dec 0 (root_rows_count (loop_body Nb s))) as [Hpos|Hz].
  - exfalso. rewrite loop_body_eq in Hpos. simpl in Hpos.
    pose proof (potential_lt _ (st_inv s HS) Hpos). lia.
  - exists (loop_body Nb s). split; [apply while_loop_done; exact Hz|].
    split; [exact HS1|]. split; [reflexivity|]. split; [exact Hz|].
    exists (step (prev_representatives_table s)).
    split; [apply Inv_step; exact (st_inv s HS)|reflexivity].
  - rewrite (while_loop_more _ _ Hpos). apply IH; [exact HS1|].
    rewrite loop_body_eq in Hpos |- *. simpl in Hpos |- *.
    pose proof (potential_lt _ (st_inv s HS) Hpos). lia.
  - exists (loop_body Nb s). split; [apply while_loop_done; exact Hz|].
    split; [exact HS1|]. split; [reflexivity|]. split; [exact Hz|].
    exists (step (prev_representatives_table s)).
    split; [apply Inv_step; exact (st_inv s HS)|reflexivity].
Qed.

Lemma run_loop :
  exists k s',
    while_loop k Nb (initial_state Nb) = Some s' /\ StateInv s' /\
    root_rows_count s' =
      _cc_assess_exit_condition (prev_representatives_table s') /\
    root_rows_count s' <= 0 /\
    exists R, Inv R /\ prev_representatives_table s' = thinned R.
Proof.
  destruct (run_from (potential R1) (initial_state Nb) StateInv_initial
              (Nat.le_refl _)) as [s' Hs'].
  exists (S (potential R1)), s'. rewrite while_loop_more; [exact Hs'|].
  simpl. lia.
Qed.

(** *** Inputs whose edges may leave the nodes table *)

(** Joined by neighbour rows, read in either direction. *)
Definition linked : Z -> Z -> Prop := clos_refl_sym_trans Z nbr.

Lemma reach_linked n x : reach n x -> linked n x.
Proof. apply clos_rt_clos_rst. Qed.

Lemma stable_linked R c n b x :
  Inv R -> In (Some c) (stable_reps R) -> In (row n c b) R -> linked n x ->
  exists b', In (row x c b') R.
Proof.
  intros HI Hs Hn Hl. apply clos_rst_rstn1 in Hl.
  induction Hl as [|y z Hyz _ IH]; [eauto|].
  destruct IH as [b' Hy]. destruct Hyz as [Hyz|Hzy].
  - exact (stable_closed R c y b' z HI Hs Hy Hyz).
  - apply (stable_closed R c y b' z HI Hs Hy). apply Nb_sym; [exact Hzy|].
    exact (inv_node R HI _ Hy).
Qed.

(** A row that is right for its node: the representative is linked to the
    node and is the least of the ids linked to it, all of which are
    nodes. *)
Definition settled (p : rep_row) : Prop :=
  exists n c b, p = row n c b /\ is_node n /\ linked n c /\
                forall x, linked n x -> is_node x /\ c <= x.

(** A table that holds, with each of its rows, the rows of all the nodes
    linked to it, under the same representative. *)
Definition whole (T : list rep_row) : Prop :=
  forall n c b x, In (row n c b) T -> linked n x ->
                  exists b', In (row x c b') T.

Lemma stable_rows_whole R : Inv R -> whole (stable_rows R).
Proof.
  intros HI n c b x Hp Hl. apply in_stable_rows in Hp.
  destruct Hp as [Hp [c' [Hc Hs]]]. simpl in Hc. inversion Hc; subst c'.
  destruct (stable_linked R c n b x HI Hs Hp Hl) as [b' Hx].
  exists b'. apply in_stable_rows. split; [exact Hx|]. exists c. auto.
Qed.

Lemma stable_rows_settled R p : Inv R -> In p (stable_rows R) -> settled p.
Proof.
  intros HI Hp. pose proof Hp as Hp'. apply in_stable_rows in Hp.
  destruct Hp as [Hp [c [Hc Hs]]].
  destruct (shape_row R p HI Hp) as [c' [b [Hshape Hrow]]].
  rewrite Hshape in Hc. simpl in Hc. inversion Hc; subst c'.
  exists (node_id p), c, b. split; [exact Hshape|].
  split; [exact (inv_node R HI p Hp)|].
  split; [apply reach_linked; exact (inv_reach R HI _ c b Hrow)|].
  intros x Hx. destruct (stable_linked R c _ b x HI Hs Hrow Hx) as [b' Hx'].
  split; [exact (inv_node R HI _ Hx')|exact (inv_le R HI x c b' Hx')].
Qed.

(** When the loop stops, a node whose linked ids are all nodes is not among
    the rows that are left. *)
Lemma exit_listed R n :
  Inv R -> _cc_assess_exit_condition (thinned R) <= 0 ->
  (forall x, linked n x -> is_node x) ->
  ~ In n (map node_id (thinned R)).
Proof.
  intros HI Hc Hin Hn. pose proof (exit_no_match _ Hc) as Hno.
  pose proof (Inv_thinned R HI) as HIt.
  destruct (key_row _ n HIt Hn) as [c [b Hp]].
  pose proof Hp as Hp'. apply in_thinned in Hp'; [|exact HI].
  destruct Hp' as [HpR Hns].
  assert (Hunst : ~ In (Some c) (stable_reps R)).
  { intros Hs. apply Hns. apply in_stable_rows. split; [exact HpR|].
    exists c. auto. }
  assert (Hnc : linked n c)
    by (apply reach_linked; exact (inv_reach R HI n c b HpR)).
  assert (Hth : forall n' b', In (row n' c b') R ->
                              In (row n' c b') (thinned R) /\ b' = false).
  { intros n' b' Hn'. assert (Hi : In (row n' c b') (thinned R)).
    { apply in_thinned; [exact HI|]. split; [exact Hn'|]. intros Hs.
      apply in_stable_rows in Hs. destruct Hs as [_ [c' [Hc' Hs]]].
      simpl in Hc'. inversion Hc'; subst c'. exact (Hunst Hs). }
    split; [exact Hi|]. specialize (Hno _ Hi). simpl in Hno.
    destruct b'; [discriminate|reflexivity]. }
  apply Hunst. apply (closed_stable R c n b HI HpR).
  intros n' b' m Hn' Hnb. destruct (Hth n' b' Hn') as [Hn't ->].
  assert (Hm : is_node m).
  { apply Hin. apply rst_trans with (y := n').
    - apply rst_trans with (y := c); [exact Hnc|]. apply rst_sym.
      apply reach_linked. exact (inv_reach R HI n' c false Hn').
    - apply rst_step. exact Hnb. }
  assert (Hmn : nbr m n') by (apply Nb_sym; assumption).
  assert (Hmk : In m (map node_id (thinned R))).
  { apply (inv_closed _ HIt m n' Hmn). apply (in_map node_id) in Hn't.
    exact Hn't. }
  destruct (key_row _ m HIt Hmk) as [cm [bm Hmrow]].
  assert (bm = false).
  { specialize (Hno _ Hmrow). simpl in Hno. destruct bm;
      [discriminate|reflexivity]. }
  subst bm.
  assert (c <= cm)
    by exact (inv_settled _ HIt n' m c false cm Hnb Hn't Hmrow).
  assert (cm <= c)
    by exact (inv_settled _ HIt m n' cm false c Hmn Hmrow Hn't).
  assert (cm = c) by lia. subst cm. exists false.
  apply in_thinned in Hmrow; tauto.
Qed.

(** What holds of the tables set aside so far, turn after turn. *)
Definition emitted_settled (s : loop_state) : Prop :=
  Forall (fun T => whole T /\ forall p, In p T -> settled p)
         (converged_repr_tables s).

Lemma emitted_settled_initial : emitted_settled (initial_state Nb).
Proof. constructor. Qed.

Lemma emitted_settled_body s :
  StateInv s -> emitted_settled s -> emitted_settled (loop_body Nb s).
Proof.
  intros HS He. rewrite loop_body_eq. unfold emitted_settled. simpl.
  apply Forall_app. split; [exact He|]. constructor; [|constructor].
  pose proof (Inv_step _ (st_inv s HS)) as HIs.
  split; [apply stable_rows_whole; exact HIs|].
  intros p Hp. exact (stable_rows_settled _ p HIs Hp).
Qed.

(** Both invariants hold of whatever the loop returns, for any fuel. *)
Lemma while_loop_invariant k : forall s s',
  StateInv s -> emitted_settled s ->
  while_loop k Nb s = Some s' ->
  StateInv s' /\ emitted_settled s'.
Proof.
  induction k as [|k IH]; intros s s' HS He Hrun;
    destruct (Z_lt_le_dec 0 (root_rows_count s)) as [Hpos|Hz].
  - simpl in Hrun. apply Z.ltb_lt in Hpos. rewrite Hpos in Hrun.
    discriminate.
  - rewrite (while_loop_done _ _ Hz) in Hrun. inversion Hrun; subst. auto.
  - rewrite (while_loop_more _ _ Hpos) in Hrun.
    apply (IH (loop_body Nb s) s');
      [apply StateInv_body|apply emitted_settled_body|]; assumption.
  - rewrite (while_loop_done _ _ Hz) in Hrun. inversion Hrun; subst. auto.
Qed.

Lemma emitted_settled_rows s p :
  emitted_settled s -> In p (emitted s) -> settled p.
Proof.
  unfold emitted_settled, emitted. intros He Hp. apply in_concat in Hp.
  destruct Hp as [T [HT Hp]]. rewrite Forall_forall in He.
  exact (proj2 (He T HT) p Hp).
Qed.

(** *** The shortcut through [rep_match] *)

(** The new representative of a node is the least previous representative
    among all its neighbours in the table, flagged or not. *)
Lemma step_min_all T n c b :
  Inv T -> In (row n c b) (step T) ->
  (exists m bm, nbr n m /\ In (row m c bm) T) /\
  (forall m cm bm, nbr n m -> In (row m cm bm) T -> c <= cm) /\
  exists c0 b0, In (row n c0 b0) T /\ b = negb (c =? c0).
Proof.
  intros HI H. apply step_row in H; [|exact HI].
  destruct H as [c0 [b0 [H0 [Hc [Hmin Hb]]]]].
  split; [|split; [|eauto]].
  - destruct Hc as [[m [Hnb Hm]]|Hown]; [eauto|].
    exists n, false. split; [|exact Hown]. apply Nb_self.
    exact (inv_node T HI _ Hown).
  - intros m cm bm Hnb Hm. destruct bm.
    + apply Hmin. left. eauto.
    + assert (c0 <= cm) by exact (inv_settled T HI n m c0 b0 cm Hnb H0 Hm).
      assert (c <= c0) by (apply Hmin; eapply cand_own; eassumption).
      lia.
Qed.

(** *** A nodes table whose only neighbour rows are self links *)

Section SelfLinksOnly.

Hypothesis Honly : forall n m, nbr n m -> m = n.

Lemma R1_self n c b : In (row n c b) R1 -> c = n /\ b = false.
Proof.
  intros H. apply R1_row in H. destruct H as [c0 [Hn [Hr ->]]].
  apply nfi_some in Hn. destruct Hn as [[m [Hnb Hm]] _].
  apply Honly in Hnb. subst m. apply rep0_some in Hm. destruct Hm as [Hm _].
  apply Honly in Hm. subst c. apply rep0_some in Hr. destruct Hr as [Hr _].
  apply Honly in Hr. subst c0. rewrite Z.eqb_refl. auto.
Qed.

Lemma step_R1_self n c b : In (row n c b) (step R1) -> c = n /\ b = false.
Proof.
  intros H. apply step_row in H; [|exact Inv_R1].
  destruct H as [c0 [b0 [H0 [Hc [_ ->]]]]].
  destruct (R1_self n c0 b0 H0) as [-> ->].
  assert (c = n).
  { destruct Hc as [[m [_ Hm]]|Hown].
    - destruct (R1_self m c true Hm) as [_ Hb]. discriminate.
    - exact (proj1 (R1_self n c false Hown)). }
  subst c. rewrite Z.eqb_refl. auto.
Qed.

Lemma one_turn_thinned : thinned (step R1) = [].
Proof.
  pose proof (Inv_step R1 Inv_R1) as HIs.
  assert (Hall : forall p, In p (thinned (step R1)) -> False);
    [|destruct (thinned (step R1)) as [|p tl]; [reflexivity|];
      exfalso; apply (Hall p); left; reflexivity].
  intros p Hp. apply in_thinned in Hp; [|exact HIs].
  destruct Hp as [Hp Hns].
  destruct (shape_row _ p HIs Hp) as [c [b [Hshape Hrow]]].
  destruct (step_R1_self _ c b Hrow) as [-> ->].
  apply Hns. apply in_stable_rows. split; [exact Hp|].
  exists (node_id p). split; [rewrite Hshape; reflexivity|].
  apply (closed_stable _ (node_id p) (node_id p) false HIs Hrow).
  intros n' b' m Hn' Hnb. destruct (step_R1_self n' _ b' Hn') as [Heq ->].
  apply Honly in Hnb. subst m. exists false. exact Hn'.
Qed.

Lemma one_turn_run :
  forall k, (1 <= k)%nat ->
    while_loop k Nb (initial_state Nb) =
    Some (loop_body Nb (initial_state Nb)) /\
    prev_representatives_table (loop_body Nb (initial_state Nb)) = [].
Proof.
  intros k Hk.
  assert (Hprev : prev_representatives_table (loop_body Nb (initial_state Nb))
                  = []) by exact one_turn_thinned.
  split; [|exact Hprev].
  apply (while_loop_mono 1 k); [exact Hk|].
  rewrite while_loop_more by reflexivity.
  apply while_loop_done. rewrite loop_body_eq. simpl.
  change (thinned (step (initial_representatives Nb)))
    with (thinned (step R1)).
  rewrite one_turn_thinned. unfold _cc_assess_exit_condition. simpl. lia.
Qed.

End SelfLinksOnly.

End Neighbours.

End ClusterFacts.

(** ** The pipeline on a concrete nodes table and edges table *)

Module Clustering.

Import Sql SqlFacts ConnectedComponents Graph ClusterFacts.
Local Open Scope Z_scope.

Section OnGraph.

Variable nodes : list Z.
Variable edges : list edge_row.
Variable t : option Q.

Let E' := splink_edges nodes edges t.
Let Nb := neighbours_of nodes edges t.

Lemma in_splink_edges a b :
  In (a, b) E' <-> retained edges t a b \/ (a = b /\ In a nodes).
Proof.
  unfold E', splink_edges. rewrite in_union, !in_map_iff. split.
  - intros [[e [Heq He]]|[n [Heq Hn]]].
    + left. apply filter_In in He. inversion Heq; subst.
      exists e. tauto.
    + right. inversion Heq; subst. auto.
  - intros [[e [He [Hok [<- <-]]]]|[<- Hn]].
    + left. exists e. split; [reflexivity|]. apply filter_In. auto.
    + right. exists a. auto.
Qed.

Lemma in_neighbours n o :
  In (n, o) Nb <->
  In n nodes /\ exists m, o = Some m /\ (In (n, m) E' \/ In (m, n) E').
Proof.
  unfold Nb, neighbours_of, _cc_generate_neighbours_representation.
  fold E'. rewrite in_union, !in_map_iff. split.
  - intros [[[n' j] [Heq Hin]]|[[n' j] [Heq Hin]]];
      simpl in Heq; apply in_left_join in Hin; destruct Hin as [Hn Hcase];
      inversion Heq; subst n' o; clear Heq; (split; [exact Hn|]).
    + destruct Hcase as [[[a b] [-> [He Hon]]]|[-> Hno]].
      * simpl in Hon. apply Z.eqb_eq in Hon. subst a. simpl. eauto.
      * exfalso. assert (He : In (n, n) E')
          by (apply in_splink_edges; right; auto).
        specialize (Hno _ He). simpl in Hno. rewrite Z.eqb_refl in Hno.
        discriminate.
    + destruct Hcase as [[[a b] [-> [He Hon]]]|[-> Hno]].
      * simpl in Hon. apply Z.eqb_eq in Hon. subst b. simpl. eauto.
      * exfalso. assert (He : In (n, n) E')
          by (apply in_splink_edges; right; auto).
        specialize (Hno _ He). simpl in Hno. rewrite Z.eqb_refl in Hno.
        discriminate.
  - intros [Hn [m [-> [He|He]]]].
    + left. exists (n, Some (n, m)). split; [reflexivity|].
      apply in_left_join. split; [exact Hn|]. left. exists (n, m).
      simpl. rewrite Z.eqb_refl. auto.
    + right. exists (n, Some (m, n)). split; [reflexivity|].
      apply in_left_join. split; [exact Hn|]. left. exists (m, n).
      simpl. rewrite Z.eqb_refl. auto.
Qed.

Lemma nbr_iff n m :
  nbr Nb n m <-> In n nodes /\ (n = m \/ adjacent edges t n m).
Proof.
  unfold nbr. rewrite in_neighbours. split.
  - intros [Hn [m' [Heq He]]]. inversion Heq; subst m'. split; [exact Hn|].
    rewrite !in_splink_edges in He. unfold adjacent.
    destruct He as [[H|[H _]]|[H|[H _]]]; auto.
  - intros [Hn H]. split; [exact Hn|]. exists m. split; [reflexivity|].
    rewrite !in_splink_edges. unfold adjacent in H.
    destruct H as [<-|[H|H]]; auto.
Qed.

Lemma is_node_iff n : is_node Nb n <-> In n nodes.
Proof.
  unfold is_node. rewrite in_map_iff. split.
  - intros [[k o] [Hk Hin]]. simpl in Hk. subst k.
    apply in_neighbours in Hin. tauto.
  - intros Hn. exists (n, Some n). split; [reflexivity|].
    apply nbr_iff. auto.
Qed.

Lemma Nb_nonnull n : ~ In (n, None) Nb.
Proof.
  intros H. apply in_neighbours in H. destruct H as [_ [m [Hm _]]].
  discriminate.
Qed.

Lemma Nb_self n : is_node Nb n -> nbr Nb n n.
Proof. rewrite is_node_iff, nbr_iff. auto. Qed.

Lemma Nb_sym n m : nbr Nb n m -> is_node Nb m -> nbr Nb m n.
Proof.
  rewrite is_node_iff, !nbr_iff. unfold adjacent.
  intros [_ [H|[H|H]]] Hm; auto.
Qed.

Lemma reach_connected n x : reach Nb n x -> connected edges t n x.
Proof.
  intros H. induction H as [a b Hab|a|a b c _ IH1 _ IH2].
  - apply nbr_iff in Hab. destruct Hab as [_ [<-|Hadj]];
      [apply rt_refl|apply rt_step; exact Hadj].
  - apply rt_refl.
  - eapply rt_trans; eassumption.
Qed.

Lemma connected_sym a b : connected edges t a b -> connected edges t b a.
Proof.
  intros H. induction H as [a b Hab|a|a b c _ IH1 _ IH2].
  - apply rt_step. unfold adjacent in *. tauto.
  - apply rt_refl.
  - eapply rt_trans; eassumption.
Qed.

Lemma StateInv_after i : StateInv Nb (state_after nodes edges t i).
Proof.
  unfold state_after. cbv zeta. fold Nb. induction i as [|i IH]; simpl.
  - apply StateInv_initial; [exact Nb_nonnull|exact Nb_self].
  - apply StateInv_body; [exact Nb_self|exact IH].
Qed.

Lemma in_output conv o n :
  In (o, n) (clustering_output_final conv) <->
  exists p, In p (concat conv) /\ representative p = o /\ node_id p = n.
Proof.
  unfold clustering_output_final. rewrite in_order_by, in_map_iff.
  split; intros [p [H1 H2]]; exists p.
  - inversion H1. auto.
  - destruct H2 as [<- <-]. auto.
Qed.

Lemma output_nodes_perm conv :
  Permutation (map snd (clustering_output_final conv))
              (map node_id (concat conv)).
Proof.
  unfold clustering_output_final.
  eapply perm_trans;
    [apply Permutation_map; apply Permutation_sym; apply order_by_perm|].
  rewrite map_map. simpl. apply Permutation_refl.
Qed.

Section WellFormed.

Hypothesis Hwithin : edges_within nodes edges t.

Lemma Nb_within n m : nbr Nb n m -> is_node Nb m.
Proof.
  rewrite is_node_iff, nbr_iff. intros [Hn [<-|[H|H]]]; [exact Hn| |];
    apply Hwithin in H; tauto.
Qed.

Lemma connected_reach n x :
  In n nodes -> connected edges t n x -> reach Nb n x /\ In x nodes.
Proof.
  intros Hn H. apply clos_rt_rtn1 in H.
  induction H as [|y z Hyz _ [IHr IHn]].
  - split; [apply rt_refl|exact Hn].
  - assert (Hnb : nbr Nb y z) by (apply nbr_iff; auto).
    split.
    + eapply rt_trans; [exact IHr|apply rt_step; exact Hnb].
    + apply is_node_iff. exact (Nb_within y z Hnb).
Qed.

Lemma good_connected p :
  good Nb p ->
  exists n c b, p = row n c b /\ In n nodes /\ In c nodes /\
    connected edges t n c /\
    forall m, In m nodes -> connected edges t n m -> c <= m.
Proof.
  intros [n [c [b [-> [Hn [Hr Hmin]]]]]]. exists n, c, b.
  apply is_node_iff in Hn. split; [reflexivity|]. split; [exact Hn|].
  pose proof (reach_connected n c Hr) as Hc.
  split; [exact (proj2 (connected_reach n c Hn Hc))|].
  split; [exact Hc|]. intros m _ Hm. apply Hmin.
  exact (proj1 (connected_reach n m Hn Hm)).
Qed.

End WellFormed.

End OnGraph.


Section Termination.

Variable nodes : list Z.
Variable edges : list edge_row.
Variable t : option Q.

Lemma exit_count_nonneg T : 0 <= _cc_assess_exit_condition T.
Proof. unfold _cc_assess_exit_condition. lia. Qed.

Lemma loop_terminates :
  let neighbours := neighbours_of nodes edges t in
  exists fuel s,
    (forall k, (fuel <= k)%nat ->
       while_loop k neighbours (initial_state neighbours) = Some s) /\
    root_rows_count s = 0 /\
    _cc_assess_exit_condition (prev_representatives_table s) = 0.
Proof.
  intros neighbours.
  destruct (run_loop neighbours (Nb_nonnull nodes edges t)
              (Nb_self nodes edges t))
    as [k [s [Hrun [_ [Hcnt [Hz _]]]]]].
  exists k, s. split.
  - intros k' Hle. exact (while_loop_mono neighbours k k' _ s Hle Hrun).
  - pose proof (exit_count_nonneg (prev_representatives_table s)). lia.
Qed.

Lemma turn_monotone i :
  let neighbours := neighbours_of nodes edges t in
  let s := state_after nodes edges t i in
  let s' := loop_body neighbours s in
  (List.length (prev_representatives_table s') <=
   List.length (prev_representatives_table s))%nat /\
  forall p', In p' (prev_representatives_table s') ->
    exists p c' c,
      In p (prev_representatives_table s) /\ node_id p = node_id p' /\
      representative p' = Some c' /\ representative p = Some c /\
      c' <= c /\ (rep_match p' = Some true -> c' < c).
Proof.
  intros neighbours s s'.
  pose proof (st_inv _ _ (StateInv_after nodes edges t i)) as HI.
  fold s in HI. fold neighbours in HI.
  set (T := prev_representatives_table s) in *.
  assert (Hs' : prev_representatives_table s' =
                thinned neighbours (step neighbours T)) by reflexivity.
  rewrite Hs'.
  pose proof (Inv_step neighbours (Nb_self nodes edges t) T HI) as HIs.
  pose proof (Inv_thinned neighbours _ HIs) as HIt.
  split.
  - rewrite <- (length_map node_id), <- (length_map node_id T).
    apply NoDup_incl_length; [apply (inv_nodup _ _ HIt)|].
    intros k Hk. apply in_map_iff in Hk. destruct Hk as [p [<- Hp]].
    apply in_thinned in Hp; [|exact HIs]. destruct Hp as [Hp _].
    apply (step_keys neighbours (Nb_self nodes edges t) T _ HI).
    apply in_map. exact Hp.
  - intros p' Hp'.
    destruct (shape_row neighbours _ p' HIt Hp') as [c' [b' [Hshape Hrow]]].
    destruct (turn_descends neighbours (Nb_self nodes edges t) T _ c' b'
                HI Hrow) as [c0 [b0 [Hn0 [Hle Hlt]]]].
    exists (row (node_id p') c0 b0), c', c0.
    split; [exact Hn0|]. split; [reflexivity|].
    split; [rewrite Hshape; reflexivity|]. split; [reflexivity|].
    split; [exact Hle|]. intros Hm. apply Hlt. rewrite Hshape in Hm.
    simpl in Hm. inversion Hm. reflexivity.
Qed.

End Termination.

(** *** The claims about the clustering pipeline *)

(** Claim C2.  For every row [n] of the nodes table, the initial
    representatives table holds exactly one row for [n]; its representative
    [c] is the least neighbour of [n] in the neighbours table, that is the
    minimum of [n] itself and the other endpoints of the retained edges at
    [n]; in particular [c <= n]. *)
Theorem initial_representative_is_min (nodes : list Z)
  (edges : list edge_row) (t : option Q) (n : Z) :
  In n nodes ->
  let neighbours := neighbours_of nodes edges t in
  let representatives :=
    _cc_generate_initial_representatives_table neighbours in
  exists c,
    In (n, Some c) representatives /\
    (forall o, In (n, o) representatives -> o = Some c) /\
    In (n, Some c) neighbours /\
    (forall m, In (n, Some m) neighbours -> c <= m) /\
    (c = n \/ adjacent edges t n c) /\
    c <= n /\
    (forall m, adjacent edges t n m -> c <= m).
Proof.
  intros Hn neighbours representatives.
  assert (Hnode : is_node neighbours n) by (apply is_node_iff; exact Hn).
  destruct (rep0_total neighbours (Nb_nonnull nodes edges t) n Hnode)
    as [c Hc].
  exists c. split; [exact Hc|]. split.
  { intros o Ho. symmetry.
    exact (fst_functional representatives n (Some c) o
             (rep0_NoDup neighbours) Hc Ho). }
  apply rep0_some in Hc. destruct Hc as [Hnb Hmin].
  split; [exact Hnb|]. split; [exact Hmin|].
  pose proof (proj1 (nbr_iff nodes edges t n c) Hnb) as [_ Hcase].
  split; [destruct Hcase; auto|]. split.
  - apply Hmin. apply Nb_self. exact Hnode.
  - intros m Hm. apply Hmin. apply nbr_iff. auto.
Qed.

Lemma initial_representative_is_min_witness :
  In 3 [1; 2; 3; 4] /\
  exists c,
    In (3, Some c)
       (_cc_generate_initial_representatives_table
          (neighbours_of [1; 2; 3; 4]
             [mk_edge 3 2 (9 # 10); mk_edge 1 3 (1 # 10)] (Some (1 # 2)))) /\
    c <= 3.
Proof.
  split; [simpl; tauto|].
  destruct (initial_representative_is_min [1; 2; 3; 4]
              [mk_edge 3 2 (9 # 10); mk_edge 1 3 (1 # 10)] (Some (1 # 2)) 3)
    as [c [H1 [_ [_ [_ [_ [H2 _]]]]]]]; [simpl; tauto|].
  exists c. split; [exact H1|exact H2].
Defined.

(** Claim C3, as the spec states it, at a one-row nodes table [2] with the
    single edge [(1, 2)]: the edge is retained, yet the neighbours table has
    no row [(1, 2)], because its [node_id] column is drawn from the nodes
    table alone. *)
Lemma neighbours_skip_foreign_endpoint :
  let nodes := [2] in
  let edges := [mk_edge 1 2 1] in
  let neighbours := neighbours_of nodes edges None in
  ~ ((forall n, In n nodes -> In (n, Some n) neighbours) /\
     (forall a b, retained edges None a b ->
        In (a, Some b) neighbours /\ In (b, Some a) neighbours)).
Proof.
  intros nodes edges neighbours [_ H].
  assert (Hr : retained edges None 1 2).
  { exists (mk_edge 1 2 1). simpl. auto. }
  destruct (H 1 2 Hr) as [H1 _]. vm_compute in H1.
  destruct H1 as [H1|[H1|[]]]; discriminate.
Qed.

(** Claim C3, amended.  The neighbours table holds the self link [(n, n)]
    of every row [n] of the nodes table; for every retained edge [(a, b)]
    it holds [(a, b)] when [a] is in the nodes table and [(b, a)] when [b]
    is; and it holds nothing else, and no NULL neighbour. *)
Theorem neighbours_cover_nodes_and_edges (nodes : list Z)
  (edges : list edge_row) (t : option Q) :
  let neighbours := neighbours_of nodes edges t in
  (forall n, In n nodes -> In (n, Some n) neighbours) /\
  (forall a b, retained edges t a b ->
     (In a nodes -> In (a, Some b) neighbours) /\
     (In b nodes -> In (b, Some a) neighbours)) /\
  (forall n o, In (n, o) neighbours ->
     In n nodes /\
     exists m, o = Some m /\ (n = m \/ adjacent edges t n m)).
Proof.
  intros neighbours. split; [|split].
  - intros n Hn. apply nbr_iff. auto.
  - intros a b Hab. split; intros H; apply nbr_iff; unfold adjacent; auto.
  - intros n o Hin. destruct o as [m|]; [|destruct (Nb_nonnull _ _ _ _ Hin)].
    apply nbr_iff in Hin. destruct Hin as [Hn Hcase].
    split; [exact Hn|]. exists m. auto.
Qed.

(** Claim C1, as the spec states it, at the nodes table [2] with the single
    edge [(1, 2)] and no threshold: the loop stops after one turn, whatever
    fuel is left, with an empty output, so node 2 receives no cluster at
    all. *)
Lemma solve_connected_components_drops_node :
  exists out,
    (forall k, (1 <= k)%nat ->
       solve_connected_components k [2] [mk_edge 1 2 1] None = Some out) /\
    In 2 [2] /\ ~ exists c, In (c, 2) out.
Proof.
  exists []. split; [|split; [left; reflexivity|intros [c []]]].
  intros k Hk. unfold solve_connected_components.
  set (neighbours := neighbours_of [2] [mk_edge 1 2 1] None).
  assert (H1 : exists s,
    while_loop 1 neighbours (initial_state neighbours) = Some s /\
    clustering_output_final (converged_repr_tables s) = []).
  { eexists. split; vm_compute; reflexivity. }
  destruct H1 as [s [Hrun Hout]].
  rewrite (while_loop_mono neighbours 1 k _ s Hk Hrun), Hout. reflexivity.
Qed.

(** Claim C1, amended.  When every retained edge (every edge whose
    [match_probability] is not below the threshold, or every edge when the
    threshold is [None]) joins two rows of the nodes table,
    [solve_connected_components] returns, given enough fuel for its loop, a
    table in which every node is listed exactly once, two nodes share their
    cluster id exactly when a path of retained edges connects them, and
    each cluster id is the least node id of its cluster. *)
Theorem solve_connected_components_clusters (nodes : list Z)
  (edges : list edge_row) (t : option Q) :
  edges_within nodes edges t ->
  exists fuel out,
    (forall k, (fuel <= k)%nat ->
       solve_connected_components k nodes edges t = Some out) /\
    is_clustering nodes edges t out.
Proof.
  intros Hwithin. set (Nb := neighbours_of nodes edges t).
  destruct (run_loop Nb (Nb_nonnull nodes edges t) (Nb_self nodes edges t))
    as [k [s [Hrun [HS [Hcnt [Hz [R [HIR Hprev]]]]]]]].
  assert (Hempty : prev_representatives_table s = []).
  { rewrite Hprev.
    apply (exit_empty Nb (Nb_self nodes edges t) (Nb_sym nodes edges t)
             (Nb_within nodes edges t Hwithin) R HIR).
    rewrite <- Hprev, <- Hcnt. exact Hz. }
  exists k, (clustering_output_final (converged_repr_tables s)).
  split.
  { intros k' Hle. unfold solve_connected_components. fold Nb.
    rewrite (while_loop_mono Nb k k' _ s Hle Hrun). reflexivity. }
  pose proof (st_nodup Nb s HS) as Hnd. pose proof (st_all Nb s HS) as Hall.
  rewrite Hempty, app_nil_r in Hnd, Hall. unfold emitted in Hnd, Hall.
  assert (Hrow : forall o n,
    In (o, n) (clustering_output_final (converged_repr_tables s)) ->
    exists c, o = Some c /\ In n nodes /\ In c nodes /\
      connected edges t n c /\
      forall m, In m nodes -> connected edges t n m -> c <= m).
  { intros o n Hin. apply in_output in Hin.
    destruct Hin as [p [Hp [<- <-]]].
    destruct (good_connected nodes edges t Hwithin p (st_good Nb s HS p Hp))
      as [n [c [b [-> H]]]]. exists c. simpl. tauto. }
  assert (Hlisted : forall n, In n nodes ->
    exists o, In (o, n) (clustering_output_final (converged_repr_tables s))).
  { intros n Hn. apply (is_node_iff nodes edges t), Hall, in_map_iff in Hn.
    destruct Hn as [p [Hk Hp]]. exists (representative p).
    apply in_output. exists p. auto. }
  assert (Hsame : forall o1 n1 o2 n2,
    In (o1, n1) (clustering_output_final (converged_repr_tables s)) ->
    In (o2, n2) (clustering_output_final (converged_repr_tables s)) ->
    connected edges t n1 n2 -> o1 = o2).
  { intros o1 n1 o2 n2 H1 H2 Hc.
    destruct (Hrow _ _ H1) as [c1 [-> [Hn1 [Hc1 [Hr1 Hm1]]]]].
    destruct (Hrow _ _ H2) as [c2 [-> [Hn2 [Hc2 [Hr2 Hm2]]]]].
    assert (c1 <= c2).
    { apply Hm1; [exact Hc2|]. apply rt_trans with (y := n2); assumption. }
    assert (c2 <= c1).
    { apply Hm2; [exact Hc1|]. eapply rt_trans; [|exact Hr1].
      apply connected_sym. exact Hc. }
    f_equal. lia. }
  unfold is_clustering. split; [|split; [|split; [|split]]].
  - eapply Permutation_NoDup;
      [apply Permutation_sym; apply output_nodes_perm|exact Hnd].
  - intros n. rewrite <- (is_node_iff nodes edges t). fold Nb.
    rewrite Hall. split; apply Permutation_in;
      [apply Permutation_sym|]; apply output_nodes_perm.
  - intros o n Hin. destruct (Hrow o n Hin) as [c H]. exists c. tauto.
  - intros o n Hin. destruct (Hrow o n Hin) as [c [-> [Hn [Hc [Hr Hmin]]]]].
    exists c. split; [reflexivity|].
    destruct (Hlisted c Hc) as [o' Ho'].
    assert (o' = Some c).
    { symmetry. apply (Hsame (Some c) n o' c Hin Ho' Hr). }
    subst o'. split; [exact Ho'|]. intros m Hm.
    destruct (Hrow _ _ Hm) as [c' [Heq [Hmn [_ [Hr' _]]]]].
    inversion Heq; subst c'. apply Hmin; [exact Hmn|].
    eapply rt_trans; [exact Hr|]. apply connected_sym. exact Hr'.
  - intros o1 n1 o2 n2 H1 H2. split; [|apply Hsame; assumption].
    intros <-. destruct (Hrow _ _ H1) as [c1 [-> [_ [_ [Hr1 _]]]]].
    destruct (Hrow _ _ H2) as [c2 [Heq [_ [_ [Hr2 _]]]]].
    inversion Heq; subst c2. eapply rt_trans; [exact Hr1|].
    apply connected_sym. exact Hr2.
Qed.

Lemma solve_connected_components_clusters_witness :
  edges_within [1; 2; 3; 4; 5]
    [mk_edge 1 2 (99 # 100); mk_edge 3 4 (99 # 100); mk_edge 2 3 (1 # 2)]
    (Some (95 # 100)) /\
  exists fuel out,
    (forall k, (fuel <= k)%nat ->
       solve_connected_components k [1; 2; 3; 4; 5]
         [mk_edge 1 2 (99 # 100); mk_edge 3 4 (99 # 100); mk_edge 2 3 (1 # 2)]
         (Some (95 # 100)) = Some out) /\
    is_clustering [1; 2; 3; 4; 5]
      [mk_edge 1 2 (99 # 100); mk_edge 3 4 (99 # 100); mk_edge 2 3 (1 # 2)]
      (Some (95 # 100)) out.
Proof.
  assert (H : edges_within [1; 2; 3; 4; 5]
    [mk_edge 1 2 (99 # 100); mk_edge 3 4 (99 # 100); mk_edge 2 3 (1 # 2)]
    (Some (95 # 100))).
  { intros a b [e [He [Hok [<- <-]]]]. simpl in He.
    destruct He as [<-|[<-|[<-|[]]]]; simpl; tauto. }
  split; [exact H|]. exact (solve_connected_components_clusters _ _ _ H).
Defined.

(** Claim C4, as the spec states it, on a seven-node star-and-chain graph:
    the second turn of the loop runs (the count after the first turn is
    positive), it removes no row, and the count of flagged rows rises from
    1 to 2. *)
Lemma rep_match_count_can_grow :
  let nodes := [1; 10; 11; 12; 13; 20; 21] in
  let edges :=
    [mk_edge 1 20 1; mk_edge 20 21 1; mk_edge 10 21 1; mk_edge 10 11 1;
     mk_edge 10 12 1; mk_edge 11 13 1; mk_edge 12 13 1] in
  let s1 := state_after nodes edges None 1 in
  let s2 := state_after nodes edges None 2 in
  0 < root_rows_count s1 /\
  ~ ((List.length (prev_representatives_table s2) <
      List.length (prev_representatives_table s1))%nat \/
     root_rows_count s2 < root_rows_count s1).
Proof.
  vm_compute. split; [reflexivity|]. intros [H|H].
  - apply Nat.lt_irrefl in H. exact H.
  - discriminate.
Qed.

(** Claim C4, amended.  For every nodes table and edges table the loop
    stops: with enough fuel it returns a state whose count of flagged
    ([rep_match]) rows is zero.  Each turn of the loop leaves no more rows
    than it found, never raises the representative of a remaining node, and
    strictly lowers the representative of every node that it flags. *)
Theorem while_loop_terminates (nodes : list Z) (edges : list edge_row)
  (t : option Q) :
  let neighbours := neighbours_of nodes edges t in
  (exists fuel s,
     (forall k, (fuel <= k)%nat ->
        while_loop k neighbours (initial_state neighbours) = Some s) /\
     root_rows_count s = 0 /\
     _cc_assess_exit_condition (prev_representatives_table s) = 0) /\
  (forall i,
     let s := state_after nodes edges t i in
     let s' := loop_body neighbours s in
     (List.length (prev_representatives_table s') <=
      List.length (prev_representatives_table s))%nat /\
     forall p', In p' (prev_representatives_table s') ->
       exists p c' c,
         In p (prev_representatives_table s) /\ node_id p = node_id p' /\
         representative p' = Some c' /\ representative p = Some c /\
         c' <= c /\ (rep_match p' = Some true -> c' < c)).
Proof.
  intros neighbours. split.
  - exact (loop_terminates nodes edges t).
  - intros i. exact (turn_monotone nodes edges t i).
Qed.

(** The end-to-end example of the spec: edges (1,2) and (3,4) at 0.99
    survive the threshold 0.95, the edge (2,3) at 0.5 does not, and node 5
    has no edge. *)
Example clusters_of_spec_example :
  solve_connected_components 2 [1; 2; 3; 4; 5]
    [mk_edge 1 2 (99 # 100); mk_edge 3 4 (99 # 100); mk_edge 2 3 (1 # 2)]
    (Some (95 # 100)) =
  Some [(Some 1, 1); (Some 1, 2); (Some 3, 3); (Some 3, 4); (Some 5, 5)].
Proof. vm_compute. reflexivity. Qed.

(** Without a threshold the edge (2,3) joins the two pairs. *)
Example clusters_without_threshold :
  solve_connected_components 3 [1; 2; 3; 4; 5]
    [mk_edge 1 2 (99 # 100); mk_edge 3 4 (99 # 100); mk_edge 2 3 (1 # 2)]
    None =
  Some [(Some 1, 1); (Some 1, 2); (Some 1, 3); (Some 1, 4); (Some 5, 5)].
Proof. vm_compute. reflexivity. Qed.

End Clustering.

(** ** More about the clustering pipeline *)

Module ClusteringMore.

Import Sql SqlFacts ConnectedComponents Graph GraphMore ClusterFacts.
Import Clustering.
Local Open Scope Z_scope.

(** *** Sorting by a total order *)

Section OrderBy.

Variable A : Type.
Variable leb : A -> A -> bool.

Hypothesis leb_total : forall a b, leb a b = true \/ leb b a = true.
Hypothesis leb_trans :
  forall a b c, leb a b = true -> leb b c = true -> leb a c = true.
Hypothesis leb_antisym :
  forall a b, leb a b = true -> leb b a = true -> a = b.

Let le (a b : A) : Prop := leb a b = true.

Lemma insert_by_le_sorted x l :
  StronglySorted le l -> StronglySorted le (insert_by leb x l).
Proof.
  induction l as [|y tl IH]; simpl; intros Hs.
  - constructor; constructor.
  - apply StronglySorted_inv in Hs. destruct Hs as [Hs Hall].
    destruct (leb x y) eqn:Hxy.
    + constructor; [constructor; assumption|].
      constructor; [exact Hxy|].
      rewrite Forall_forall in *. intros z Hz.
      exact (leb_trans x y z Hxy (Hall z Hz)).
    + constructor; [apply IH; exact Hs|].
      rewrite Forall_forall in *. intros z Hz.
      apply (Permutation_in z (Permutation_sym (insert_by_perm leb x tl)))
        in Hz.
      destruct Hz as [<-|Hz]; [|exact (Hall z Hz)].
      destruct (leb_total x y) as [H|H]; [congruence|exact H].
Qed.

Lemma order_by_le_sorted l : StronglySorted le (order_by leb l).
Proof.
  induction l as [|x tl IH]; simpl; [constructor|].
  apply insert_by_le_sorted. exact IH.
Qed.

Lemma le_sorted_unique l1 : forall l2,
  StronglySorted le l1 -> StronglySorted le l2 ->
  NoDup l1 -> NoDup l2 ->
  (forall x, In x l1 <-> In x l2) -> l1 = l2.
Proof.
  induction l1 as [|a t1 IH]; intros [|b t2] H1 H2 N1 N2 Heq.
  - reflexivity.
  - exfalso. apply (proj2 (Heq b)). left; reflexivity.
  - exfalso. apply (proj1 (Heq a)). left; reflexivity.
  - apply StronglySorted_inv in H1. destruct H1 as [H1 Ha].
    apply StronglySorted_inv in H2. destruct H2 as [H2 Hb].
    rewrite Forall_forall in Ha, Hb.
    inversion N1 as [|? ? Na N1']; subst.
    inversion N2 as [|? ? Nb N2']; subst.
    assert (Hab : a = b).
    { destruct (proj1 (Heq a) (or_introl eq_refl)) as [Hx|Hx]; [auto|].
      destruct (proj2 (Heq b) (or_introl eq_refl)) as [Hy|Hy]; [auto|].
      exact (leb_antisym a b (Ha b Hy) (Hb a Hx)). }
    subst b. f_equal. apply IH; try assumption.
    intros x. split; intros Hx.
    + destruct (proj1 (Heq x) (or_intror Hx)) as [Hy|Hy]; [|assumption].
      subst x. contradiction.
    + destruct (proj2 (Heq x) (or_intror Hx)) as [Hy|Hy]; [|assumption].
      subst x. contradiction.
Qed.

End OrderBy.

Lemma by_cluster_total a b :
  by_cluster_then_node a b = true \/ by_cluster_then_node b a = true.
Proof.
  destruct a as [[x|] n], b as [[y|] m]; unfold by_cluster_then_node; simpl;
    auto.
  - destruct (Z.lt_trichotomy x y) as [H|[H|H]].
    + left. apply orb_true_iff. left. apply Z.ltb_lt. exact H.
    + subst y. rewrite Z.eqb_refl, Z.ltb_irrefl. simpl.
      destruct (Z.le_ge_cases n m); [left|right]; apply Z.leb_le; assumption.
    + right. apply orb_true_iff. left. apply Z.ltb_lt. exact H.
  - destruct (Z.le_ge_cases n m); [left|right]; apply Z.leb_le; assumption.
Qed.

Lemma by_cluster_some x n y m :
  by_cluster_then_node (Some x, n) (Some y, m) = true <->
  x < y \/ (x = y /\ n <= m).
Proof.
  unfold by_cluster_then_node. simpl.
  rewrite orb_true_iff, andb_true_iff, Z.ltb_lt, Z.eqb_eq, Z.leb_le. tauto.
Qed.

Lemma by_cluster_trans a b c :
  by_cluster_then_node a b = true -> by_cluster_then_node b c = true ->
  by_cluster_then_node a c = true.
Proof.
  destruct a as [[x|] n], b as [[y|] m], c as [[z|] k];
    try (unfold by_cluster_then_node; simpl; congruence).
  - rewrite !by_cluster_some. lia.
  - unfold by_cluster_then_node. simpl. rewrite !Z.leb_le. lia.
Qed.

Lemma by_cluster_antisym a b :
  by_cluster_then_node a b = true -> by_cluster_then_node b a = true ->
  a = b.
Proof.
  destruct a as [[x|] n], b as [[y|] m];
    try (unfold by_cluster_then_node; simpl; congruence).
  - rewrite !by_cluster_some. intros H1 H2.
    assert (x = y /\ n = m) as [-> ->] by lia. reflexivity.
  - unfold by_cluster_then_node. simpl. rewrite !Z.leb_le. intros H1 H2.
    assert (n = m) as -> by lia. reflexivity.
Qed.

Lemma output_sorted conv :
  StronglySorted (fun a b => by_cluster_then_node a b = true)
    (clustering_output_final conv).
Proof.
  unfold clustering_output_final.
  apply order_by_le_sorted; [apply by_cluster_total|apply by_cluster_trans].
Qed.

Lemma sorted_strict (l : list (option Z * Z)) :
  NoDup l ->
  StronglySorted (fun a b => by_cluster_then_node a b = true) l ->
  StronglySorted row_before l.
Proof.
  intros Hnd Hs. induction Hs as [|a l Hs IH Hall]; [constructor|].
  inversion Hnd as [|? ? Hnot Hnd']; subst.
  constructor; [apply IH; exact Hnd'|].
  rewrite Forall_forall in *. intros x Hx. split; [exact (Hall x Hx)|].
  intros ->. contradiction.
Qed.

(** *** The state that the loop returns, for any input *)

Section AnyInput.

Variable nodes : list Z.
Variable edges : list edge_row.
Variable t : option Q.

Let Nb := neighbours_of nodes edges t.

Lemma linked_connected n x : linked Nb n x -> connected edges t n x.
Proof.
  intros H. induction H as [a b Hab|a|a b _ IH|a b c _ IH1 _ IH2].
  - apply nbr_iff in Hab. destruct Hab as [_ [<-|Hadj]];
      [apply rt_refl|apply rt_step; exact Hadj].
  - apply rt_refl.
  - apply connected_sym. exact IH.
  - eapply rt_trans; eassumption.
Qed.

Lemma connected_linked n x :
  In n nodes -> (forall y, linked Nb n y -> is_node Nb y) ->
  connected edges t n x -> linked Nb n x.
Proof.
  intros Hn Hin H. apply clos_rt_rtn1 in H.
  induction H as [|y z Hyz _ IH]; [apply rst_refl|].
  apply rst_trans with (y := y); [exact IH|]. apply rst_step.
  apply nbr_iff. split; [|right; exact Hyz].
  apply (proj1 (is_node_iff nodes edges t y)). apply Hin. exact IH.
Qed.

Lemma within_linked n :
  component_within nodes edges t n ->
  forall y, linked Nb n y -> is_node Nb y.
Proof.
  intros Hw y Hy. apply (proj2 (is_node_iff nodes edges t y)). apply Hw.
  apply linked_connected. exact Hy.
Qed.

Lemma settled_row p :
  settled Nb p ->
  exists n c b, p = row n c b /\ In n nodes /\
    component_within nodes edges t n /\ least_connected edges t n c.
Proof.
  intros [n [c [b [-> [Hn [Hnc Hall]]]]]]. exists n, c, b.
  apply (proj1 (is_node_iff nodes edges t n)) in Hn.
  split; [reflexivity|]. split; [exact Hn|].
  assert (Hin : forall y, linked Nb n y -> is_node Nb y)
    by (intros y Hy; exact (proj1 (Hall y Hy))).
  split; [|split].
  - intros x Hx. apply (proj1 (is_node_iff nodes edges t x)). apply Hin.
    exact (connected_linked n x Hn Hin Hx).
  - apply linked_connected. exact Hnc.
  - intros m Hm. apply Hall. exact (connected_linked n m Hn Hin Hm).
Qed.

Lemma least_connected_unique n c c' :
  least_connected edges t n c -> least_connected edges t n c' -> c = c'.
Proof.
  intros [H1 H2] [H3 H4]. specialize (H2 c' H3). specialize (H4 c H1). lia.
Qed.

(** What any returned state says about the output table. *)
Lemma returned_rows k s :
  while_loop k Nb (initial_state Nb) = Some s ->
  let out := clustering_output_final (converged_repr_tables s) in
  NoDup (map snd out) /\
  forall o n, In (o, n) out ->
    In n nodes /\ component_within nodes edges t n /\
    exists c, o = Some c /\ least_connected edges t n c.
Proof.
  intros Hrun out.
  destruct (while_loop_invariant Nb (Nb_self nodes edges t)
              (Nb_sym nodes edges t) k _ s
              (StateInv_initial Nb (Nb_nonnull nodes edges t)
                 (Nb_self nodes edges t))
              (emitted_settled_initial Nb) Hrun) as [HS He].
  split.
  - eapply Permutation_NoDup;
      [apply Permutation_sym; apply output_nodes_perm|].
    pose proof (st_nodup Nb s HS) as Hnd. rewrite map_app in Hnd.
    exact (NoDup_app_remove_r _ _ Hnd).
  - intros o n Hin. apply in_output in Hin.
    destruct Hin as [p [Hp [<- <-]]].
    destruct (settled_row p (emitted_settled_rows Nb s p He Hp))
      as [n [c [b [-> [Hn [Hw Hl]]]]]].
    simpl. split; [exact Hn|]. split; [exact Hw|]. exists c. auto.
Qed.

(** The loop returns; the table it returns is sorted, lists no node twice,
    lists every node whose whole component is inside the nodes table, and
    a row is in it exactly when its node is such a node and its cluster id
    is the least id of the component. *)
Lemma final_rows :
  exists fuel out,
    (forall k, (fuel <= k)%nat ->
       solve_connected_components k nodes edges t = Some out) /\
    NoDup (map snd out) /\
    StronglySorted (fun a b => by_cluster_then_node a b = true) out /\
    (forall n, In n nodes -> component_within nodes edges t n ->
               In n (map snd out)) /\
    forall o n, In (o, n) out <->
      In n nodes /\ component_within nodes edges t n /\
      exists c, o = Some c /\ least_connected edges t n c.
Proof.
  destruct (run_loop Nb (Nb_nonnull nodes edges t) (Nb_self nodes edges t))
    as [k [s [Hrun [HS [Hcnt [Hz [R [HIR Hprev]]]]]]]].
  exists k, (clustering_output_final (converged_repr_tables s)).
  destruct (returned_rows k s Hrun) as [Hnd Hrows].
  assert (Hall : forall n, In n nodes -> component_within nodes edges t n ->
            exists o, In (o, n)
                        (clustering_output_final (converged_repr_tables s))).
  { intros n Hn Hw.
    assert (Hnot : ~ In n (map node_id (prev_representatives_table s))).
    { rewrite Hprev.
      apply (exit_listed Nb (Nb_self nodes edges t) (Nb_sym nodes edges t)
               R n HIR).
      - rewrite <- Hprev, <- Hcnt. exact Hz.
      - apply within_linked. exact Hw. }
    assert (Hem : In n (map node_id (emitted s))).
    { pose proof (proj1 (st_all Nb s HS n)
                    (proj2 (is_node_iff nodes edges t n) Hn)) as H.
      rewrite map_app, in_app_iff in H. destruct H as [H|H];
        [exact H|contradiction]. }
    apply in_map_iff in Hem. destruct Hem as [p [Hk Hp]].
    exists (representative p). apply in_output. exists p. auto. }
  split.
  { intros k' Hle. unfold solve_connected_components. fold Nb.
    rewrite (while_loop_mono Nb k k' _ s Hle Hrun). reflexivity. }
  split; [exact Hnd|]. split; [apply output_sorted|]. split.
  { intros n Hn Hw. destruct (Hall n Hn Hw) as [o Ho].
    apply in_map_iff. exists (o, n). auto. }
  intros o n. split; [apply Hrows|].
  intros [Hn [Hw [c [-> Hl]]]].
  destruct (Hall n Hn Hw) as [o Hout].
  destruct (Hrows _ _ Hout) as [_ [_ [c' [Hc' Hl']]]].
  rewrite Hc' in Hout.
  rewrite (least_connected_unique n c c' Hl Hl'). exact Hout.
Qed.

End AnyInput.

Section Thresholds.

Variable edges : list edge_row.
Variables t1 t2 : option Q.
Hypothesis Hle : threshold_le t1 t2.

Lemma match_prob_expr_mono e :
  match_prob_expr t2 e = true -> match_prob_expr t1 e = true.
Proof.
  unfold match_prob_expr, threshold_le in *.
  destruct t1 as [a|]; [|reflexivity]. destruct t2 as [b|]; [|contradiction].
  rewrite !Qle_bool_iff. intros H. eapply Qle_trans; eassumption.
Qed.

Lemma connected_mono n m :
  connected edges t2 n m -> connected edges t1 n m.
Proof.
  intros H. induction H as [a b Hab|a|a b c _ IH1 _ IH2].
  - apply rt_step.
    destruct Hab as [[e [He [Hok Heq]]]|[e [He [Hok Heq]]]]; [left|right];
      exists e; (split; [exact He|]);
      (split; [apply match_prob_expr_mono; exact Hok|exact Heq]).
  - apply rt_refl.
  - eapply rt_trans; eassumption.
Qed.

End Thresholds.

Lemma connected_ext edges t edges' t' :
  (forall a b, adjacent edges t a b <-> adjacent edges' t' a b) ->
  forall n m, connected edges t n m -> connected edges' t' n m.
Proof.
  intros Hadj n m H. induction H as [a b Hab|a|a b c _ IH1 _ IH2].
  - apply rt_step. apply Hadj. exact Hab.
  - apply rt_refl.
  - eapply rt_trans; eassumption.
Qed.

Lemma solve_returns k nodes edges t out :
  solve_connected_components k nodes edges t = Some out ->
  exists s,
    while_loop k (neighbours_of nodes edges t)
      (initial_state (neighbours_of nodes edges t)) = Some s /\
    out = clustering_output_final (converged_repr_tables s).
Proof.
  unfold solve_connected_components.
  destruct (while_loop k _ _) as [s|]; [|discriminate].
  intros H. inversion H. eauto.
Qed.

(** *** Properties of the pipeline on every input *)

(** Property X1.
    Whatever the nodes and edges tables hold and whatever fuel the loop
    was given, a returned table lists only rows of the nodes table and no
    node twice; the cluster id of a row is a node, is no larger than the
    listed node, is connected to it by retained edges and is the least id
    so connected, and every id connected to a listed node is a node. *)
Theorem solve_connected_components_sound (nodes : list Z)
  (edges : list edge_row) (t : option Q) (fuel : nat)
  (out : list (option Z * Z)) :
  solve_connected_components fuel nodes edges t = Some out ->
  NoDup (map snd out) /\
  forall o n, In (o, n) out ->
    In n nodes /\
    exists c, o = Some c /\ In c nodes /\ c <= n /\
              connected edges t n c /\
              forall m, connected edges t n m -> In m nodes /\ c <= m.
Proof.
  intros Hsolve. destruct (solve_returns _ _ _ _ _ Hsolve) as [s [Hrun ->]].
  destruct (returned_rows nodes edges t fuel s Hrun) as [Hnd Hrows].
  split; [exact Hnd|]. intros o n Hin.
  destruct (Hrows o n Hin) as [Hn [Hw [c [-> [Hc Hmin]]]]].
  split; [exact Hn|]. exists c. split; [reflexivity|].
  split; [exact (Hw c Hc)|]. split; [apply Hmin; apply rt_refl|].
  split; [exact Hc|]. intros m Hm. split; [exact (Hw m Hm)|exact (Hmin m Hm)].
Qed.

Lemma solve_connected_components_sound_witness :
  solve_connected_components 2 [2; 3; 4] [mk_edge 1 2 1; mk_edge 4 3 1] None
    = Some [(Some 3, 3); (Some 3, 4)] /\
  NoDup (map snd [(Some 3, 3); (Some 3, 4)]).
Proof.
  assert (H : solve_connected_components 2 [2; 3; 4]
                [mk_edge 1 2 1; mk_edge 4 3 1] None
              = Some [(Some 3, 3); (Some 3, 4)])
    by (vm_compute; reflexivity).
  split; [exact H|].
  exact (proj1 (solve_connected_components_sound _ _ _ _ _ H)).
Defined.

(** Property X2.
    For every input the loop returns, and the returned table lists a node
    exactly when every id that retained edges connect to it is a row of
    the nodes table. *)
Theorem solve_connected_components_lists (nodes : list Z)
  (edges : list edge_row) (t : option Q) :
  exists fuel out,
    (forall k, (fuel <= k)%nat ->
       solve_connected_components k nodes edges t = Some out) /\
    forall n, In n (map snd out) <->
              In n nodes /\ component_within nodes edges t n.
Proof.
  destruct (final_rows nodes edges t)
    as [fuel [out [Hrun [_ [_ [Hall Hrows]]]]]].
  exists fuel, out. split; [exact Hrun|]. intros n. split.
  - intros Hin. apply in_map_iff in Hin. destruct Hin as [[o n'] [Heq Hin]].
    simpl in Heq. subst n'. apply Hrows in Hin. tauto.
  - intros [Hn Hw]. exact (Hall n Hn Hw).
Qed.

Lemma StronglySorted_impl {A : Type} (P Q : A -> A -> Prop) l :
  (forall a b, In a l -> In b l -> P a b -> Q a b) ->
  StronglySorted P l -> StronglySorted Q l.
Proof.
  intros Himp Hs. induction Hs as [|a tl Hs IH Hall]; [constructor|].
  constructor.
  - apply IH. intros x y Hx Hy. apply Himp; right; assumption.
  - rewrite Forall_forall in *. intros x Hx.
    apply Himp; [left; reflexivity|right; exact Hx|exact (Hall x Hx)].
Qed.

(** Property X3.
    The returned table is in strictly ascending order of
    [(cluster_id, node_id)]: cluster ids never decrease down the table and
    are never null, and within one cluster the node ids strictly
    increase. *)
Theorem solve_connected_components_sorted (nodes : list Z)
  (edges : list edge_row) (t : option Q) (fuel : nat)
  (out : list (option Z * Z)) :
  solve_connected_components fuel nodes edges t = Some out ->
  StronglySorted row_lt out.
Proof.
  intros Hsolve. destruct (solve_returns _ _ _ _ _ Hsolve) as [s [Hrun ->]].
  destruct (returned_rows nodes edges t fuel s Hrun) as [Hnd Hrows].
  cbv zeta in Hnd, Hrows.
  apply NoDup_map_inv in Hnd.
  apply (StronglySorted_impl row_before).
  - intros [o n] [o' n'] Ha Hb [Hle Hne].
    destruct (Hrows _ _ Ha) as [_ [_ [c [-> _]]]].
    destruct (Hrows _ _ Hb) as [_ [_ [c' [-> _]]]].
    apply by_cluster_some in Hle. unfold row_lt. simpl.
    destruct (Z.eq_dec n n') as [->|Hn]; [|lia].
    destruct Hle as [Hlt|[-> _]]; [left; exact Hlt|]. congruence.
  - apply sorted_strict; [exact Hnd|apply output_sorted].
Qed.

Lemma solve_connected_components_sorted_witness :
  StronglySorted row_lt [(Some 1, 1); (Some 1, 5); (Some 2, 2); (Some 2, 3)].
Proof.
  apply (solve_connected_components_sorted [5; 3; 2; 1]
           [mk_edge 3 2 1; mk_edge 5 1 1] None 3).
  vm_compute. reflexivity.
Defined.

(** Property X4.
    The returned table depends only on which ids are in the nodes table
    and on which pairs of ids have a retained edge between them: the order
    of the rows, repeated rows and the direction of the edges make no
    difference. *)
Theorem solve_connected_components_input_order (nodes nodes' : list Z)
  (edges edges' : list edge_row) (t t' : option Q) :
  (forall n, In n nodes <-> In n nodes') ->
  (forall a b, adjacent edges t a b <-> adjacent edges' t' a b) ->
  exists fuel out,
    forall k, (fuel <= k)%nat ->
      solve_connected_components k nodes edges t = Some out /\
      solve_connected_components k nodes' edges' t' = Some out.
Proof.
  intros Hnodes Hadj.
  destruct (final_rows nodes edges t)
    as [f1 [out1 [Hrun1 [Hnd1 [Hs1 [_ Hrows1]]]]]].
  destruct (final_rows nodes' edges' t')
    as [f2 [out2 [Hrun2 [Hnd2 [Hs2 [_ Hrows2]]]]]].
  assert (Hconn : forall n m,
            connected edges t n m <-> connected edges' t' n m).
  { intros n m. split; apply connected_ext; [exact Hadj|].
    intros a b. symmetry. apply Hadj. }
  assert (Heq : out1 = out2).
  { apply (le_sorted_unique _ by_cluster_then_node by_cluster_antisym);
      try assumption.
    - exact (NoDup_map_inv _ _ Hnd1).
    - exact (NoDup_map_inv _ _ Hnd2).
    - intros [o n]. rewrite Hrows1, Hrows2.
      unfold component_within, least_connected.
      split; intros [Hn [Hw [c [-> [Hc Hmin]]]]].
      + split; [apply Hnodes; exact Hn|]. split.
        * intros x Hx. apply Hnodes. apply Hw. apply Hconn. exact Hx.
        * exists c. split; [reflexivity|]. split; [apply Hconn; exact Hc|].
          intros m Hm. apply Hmin. apply Hconn. exact Hm.
      + split; [apply Hnodes; exact Hn|]. split.
        * intros x Hx. apply Hnodes. apply Hw. apply Hconn. exact Hx.
        * exists c. split; [reflexivity|]. split; [apply Hconn; exact Hc|].
          intros m Hm. apply Hmin. apply Hconn. exact Hm. }
  subst out2. exists (Nat.max f1 f2), out1. intros k Hk. split.
  - apply Hrun1. lia.
  - apply Hrun2. lia.
Qed.

Lemma solve_connected_components_input_order_witness :
  exists fuel out,
    forall k, (fuel <= k)%nat ->
      solve_connected_components k [1; 2; 3] [mk_edge 1 2 1] None
        = Some out /\
      solve_connected_components k [3; 2; 1; 2]
        [mk_edge 2 1 1; mk_edge 2 1 1] None = Some out.
Proof.
  apply solve_connected_components_input_order.
  - intros n. simpl. tauto.
  - intros a b. unfold adjacent, retained. simpl.
    split; intros [[e [He [_ [Hl Hr]]]]|[e [He [_ [Hl Hr]]]]];
      repeat (destruct He as [He|He]); try contradiction;
      subst e a b; simpl;
      solve [ left; exists (mk_edge 1 2 1); simpl; auto
            | right; exists (mk_edge 1 2 1); simpl; auto
            | left; exists (mk_edge 2 1 1); simpl; auto
            | right; exists (mk_edge 2 1 1); simpl; auto ].
Defined.

Lemma solve_mono k k' nodes edges t out :
  (k <= k')%nat ->
  solve_connected_components k nodes edges t = Some out ->
  solve_connected_components k' nodes edges t = Some out.
Proof.
  intros Hle H. destruct (solve_returns _ _ _ _ _ H) as [s [Hrun ->]].
  unfold solve_connected_components.
  rewrite (while_loop_mono _ k k' _ s Hle Hrun). reflexivity.
Qed.

Lemma solve_row k nodes edges t out o n :
  solve_connected_components k nodes edges t = Some out ->
  In (o, n) out ->
  In n nodes /\ component_within nodes edges t n /\
  exists c, o = Some c /\ least_connected edges t n c.
Proof.
  intros H Hin. destruct (solve_returns _ _ _ _ _ H) as [s [Hrun ->]].
  exact (proj2 (returned_rows nodes edges t k s Hrun) o n Hin).
Qed.

(** Property X5.
    Lowering the threshold only merges clusters: the cluster id of a node
    listed under both thresholds does not grow, and the nodes that shared
    its cluster under the higher threshold share its cluster under the
    lower one, as far as they are still listed. *)
Theorem solve_connected_components_threshold (nodes : list Z)
  (edges : list edge_row) (t1 t2 : option Q) (k1 k2 : nat)
  (out1 out2 : list (option Z * Z)) :
  threshold_le t1 t2 ->
  solve_connected_components k1 nodes edges t1 = Some out1 ->
  solve_connected_components k2 nodes edges t2 = Some out2 ->
  forall c c' n, In (Some c, n) out2 -> In (Some c', n) out1 ->
    c' <= c /\
    forall m, In (Some c, m) out2 -> In m (map snd out1) ->
              In (Some c', m) out1.
Proof.
  intros Hle H1 H2 c c' n Hn2 Hn1.
  destruct (solve_row _ _ _ _ _ _ _ H2 Hn2) as [_ [_ [x [Hx [Hc Hcmin]]]]].
  inversion Hx; subst x; clear Hx.
  destruct (solve_row _ _ _ _ _ _ _ H1 Hn1) as [_ [_ [x [Hx [Hc' Hcmin']]]]].
  inversion Hx; subst x; clear Hx.
  pose proof (connected_mono edges t1 t2 Hle n c Hc) as Hnc.
  split; [exact (Hcmin' c Hnc)|].
  intros m Hm2 Hm1.
  destruct (solve_row _ _ _ _ _ _ _ H2 Hm2) as [_ [_ [x [Hx [Hmc _]]]]].
  inversion Hx; subst x; clear Hx.
  pose proof (connected_mono edges t1 t2 Hle m c Hmc) as Hmc1.
  apply in_map_iff in Hm1. destruct Hm1 as [[o m'] [Heq Hin]].
  simpl in Heq. subst m'.
  destruct (solve_row _ _ _ _ _ _ _ H1 Hin) as [_ [_ [d [-> [Hd Hdmin]]]]].
  assert (Hnm : connected edges t1 n m).
  { apply rt_trans with (y := c); [exact Hnc|].
    apply connected_sym. exact Hmc1. }
  assert (d <= c').
  { apply Hdmin. apply rt_trans with (y := n); [|exact Hc'].
    apply connected_sym. exact Hnm. }
  assert (c' <= d).
  { apply Hcmin'. apply rt_trans with (y := m); [exact Hnm|exact Hd]. }
  assert (d = c') as -> by lia. exact Hin.
Qed.

Lemma solve_connected_components_threshold_witness :
  1 <= 2 /\ In (Some 1, 2) [(Some 1, 1); (Some 1, 2); (Some 1, 3)].
Proof.
  assert (Hle : threshold_le (Some (1 # 4)) (Some (3 # 4)))
    by (vm_compute; discriminate).
  assert (H1 : solve_connected_components 4 [1; 2; 3]
                 [mk_edge 1 2 (1 # 2); mk_edge 2 3 (9 # 10)] (Some (1 # 4))
               = Some [(Some 1, 1); (Some 1, 2); (Some 1, 3)])
    by (vm_compute; reflexivity).
  assert (H2 : solve_connected_components 4 [1; 2; 3]
                 [mk_edge 1 2 (1 # 2); mk_edge 2 3 (9 # 10)] (Some (3 # 4))
               = Some [(Some 1, 1); (Some 2, 2); (Some 2, 3)])
    by (vm_compute; reflexivity).
  destruct (solve_connected_components_threshold _ _ _ _ _ _ _ _
              Hle H1 H2 2 1 3) as [Hc Hm].
  - simpl. auto.
  - simpl. auto.
  - split; [exact Hc|]. apply Hm; simpl; auto.
Defined.

Lemma connected_no_links edges t n m :
  (forall e, In e edges -> match_prob_expr t e = false) ->
  connected edges t n m -> m = n.
Proof.
  intros Hno H. induction H as [a b Hab|a|a b c _ IH1 _ IH2].
  - destruct Hab as [[e [He [Hok _]]]|[e [He [Hok _]]]];
      rewrite (Hno e He) in Hok; discriminate.
  - reflexivity.
  - congruence.
Qed.

(** Property X6.
    When the threshold retains no edge (in particular when the edges
    table is empty), the loop stops after its first turn and the returned
    table lists every node once, as a cluster of its own. *)
Theorem solve_connected_components_no_links (nodes : list Z)
  (edges : list edge_row) (t : option Q) (k : nat) :
  (forall e, In e edges -> match_prob_expr t e = false) ->
  (1 <= k)%nat ->
  exists out,
    solve_connected_components k nodes edges t = Some out /\
    NoDup (map snd out) /\
    forall o n, In (o, n) out <-> In n nodes /\ o = Some n.
Proof.
  intros Hno Hk.
  assert (Honly : forall n m,
            nbr (neighbours_of nodes edges t) n m -> m = n).
  { intros n m H. apply nbr_iff in H. destruct H as [_ [H|H]]; [auto|].
    apply (connected_no_links edges t n m Hno). apply rt_step. exact H. }
  destruct (one_turn_run _ (Nb_nonnull nodes edges t) (Nb_self nodes edges t)
              Honly k Hk) as [Hrun _].
  set (s := loop_body (neighbours_of nodes edges t)
              (initial_state (neighbours_of nodes edges t))) in *.
  exists (clustering_output_final (converged_repr_tables s)).
  assert (Hsolve : solve_connected_components k nodes edges t
                   = Some (clustering_output_final (converged_repr_tables s))).
  { unfold solve_connected_components. rewrite Hrun. reflexivity. }
  split; [exact Hsolve|].
  destruct (returned_rows nodes edges t k s Hrun) as [Hnd Hrows].
  split; [exact Hnd|].
  assert (Hfwd : forall o n,
            In (o, n) (clustering_output_final (converged_repr_tables s)) ->
            In n nodes /\ o = Some n).
  { intros o n Hin. destruct (Hrows o n Hin) as [Hn [_ [c [-> [Hc _]]]]].
    split; [exact Hn|]. f_equal.
    exact (connected_no_links edges t n c Hno Hc). }
  intros o n. split; [apply Hfwd|]. intros [Hn ->].
  destruct (final_rows nodes edges t) as [F [out' [Hrun' [_ [_ [Hall _]]]]]].
  assert (Heq : out' = clustering_output_final (converged_repr_tables s)).
  { pose proof (Hrun' (Nat.max F k) (Nat.le_max_l F k)) as H1.
    pose proof (solve_mono k (Nat.max F k) _ _ _ _ (Nat.le_max_r F k) Hsolve)
      as H2.
    congruence. }
  assert (Hin : In n (map snd out')).
  { apply Hall; [exact Hn|]. intros x Hx.
    rewrite (connected_no_links edges t n x Hno Hx). exact Hn. }
  rewrite Heq in Hin. apply in_map_iff in Hin.
  destruct Hin as [[o n'] [Hk' Hin]]. simpl in Hk'. subst n'.
  destruct (Hfwd o n Hin) as [_ ->]. exact Hin.
Qed.

Lemma solve_connected_components_no_links_witness :
  exists out,
    solve_connected_components 1 [3; 1] [mk_edge 1 3 (1 # 2)]
      (Some (9 # 10)) = Some out /\
    NoDup (map snd out) /\
    forall o n, In (o, n) out <-> In n [3; 1] /\ o = Some n.
Proof.
  apply solve_connected_components_no_links.
  - intros e [<-|[]]. vm_compute. reflexivity.
  - apply le_n.
Defined.

(** *** The tables of the single turns *)

(** Property X7.
    The table that enters the loop has one row for each node; the
    representative of a node is the least id among the neighbours of its
    neighbours, and [rep_match] is set exactly when that id differs from
    the least id among its own neighbours. *)
Theorem first_iteration_representatives (nodes : list Z)
  (edges : list edge_row) (t : option Q) :
  let neighbours := neighbours_of nodes edges t in
  let R := initial_representatives neighbours in
  NoDup (map node_id R) /\
  (forall n, In n (map node_id R) <-> In n nodes) /\
  forall p, In p R ->
    exists c c0,
      p = mk_rep (node_id p) (Some c) (Some (negb (c =? c0))) /\
      In (node_id p, Some c0) neighbours /\
      (forall x, In (node_id p, Some x) neighbours -> c0 <= x) /\
      (exists m, In (node_id p, Some m) neighbours /\
                 In (m, Some c) neighbours) /\
      forall m x, In (node_id p, Some m) neighbours ->
                  In (m, Some x) neighbours -> c <= x.
Proof.
  intros Nb R.
  pose proof (Nb_nonnull nodes edges t) as Hnn.
  pose proof (Nb_self nodes edges t) as Hself.
  fold Nb in Hnn, Hself.
  split; [apply R1_NoDup|]. split.
  { intros n. unfold R. rewrite (R1_keys Nb Hnn Hself).
    apply is_node_iff. }
  intros p Hp. apply (R1_rows Nb Hnn Hself) in Hp.
  destruct Hp as [n [c [c0 [Hn [Hr ->]]]]]. simpl.
  exists c, c0. split; [reflexivity|].
  apply rep0_some in Hr. destruct Hr as [Hc0 Hmin0].
  apply nfi_some in Hn. destruct Hn as [[m [Hm Hmc]] Hmin].
  split; [exact Hc0|]. split; [exact Hmin0|]. split.
  - exists m. split; [exact Hm|]. apply rep0_some in Hmc. apply Hmc.
  - intros m' x Hm' Hx.
    assert (Hnode : is_node Nb m').
    { apply in_map_iff. exists (m', Some x). auto. }
    destruct (rep0_total Nb Hnn m' Hnode) as [cm Hcm].
    assert (c <= cm) by exact (Hmin m' cm Hm' Hcm).
    apply rep0_some in Hcm. destruct Hcm as [_ Hcm].
    specialize (Hcm x Hx). lia.
Qed.

(** Property X8.
    In every turn of the loop the updated table has the same nodes as the
    table it is computed from, and the new representative of a node is
    the least previous representative among all its neighbours in the
    table: restricting the join to the rows whose [rep_match] is set loses
    no candidate.  [rep_match] is set in the new row exactly when the
    representative changed. *)
Theorem loop_representatives_minimum (nodes : list Z)
  (edges : list edge_row) (t : option Q) (i : nat) :
  let neighbours := neighbours_of nodes edges t in
  let prev := prev_representatives_table (state_after nodes edges t i) in
  let R :=
    _cc_update_representatives_loop_cond
      (_cc_generate_representatives_loop_cond neighbours prev) prev in
  (forall n, In n (map node_id R) <-> In n (map node_id prev)) /\
  forall p, In p R ->
    exists c c0 b0,
      p = mk_rep (node_id p) (Some c) (Some (negb (c =? c0))) /\
      In (mk_rep (node_id p) (Some c0) (Some b0)) prev /\
      (exists m bm, In (node_id p, Some m) neighbours /\
                    In (mk_rep m (Some c) (Some bm)) prev) /\
      forall m cm bm, In (node_id p, Some m) neighbours ->
                      In (mk_rep m (Some cm) (Some bm)) prev -> c <= cm.
Proof.
  intros Nb prev R.
  pose proof (Nb_self nodes edges t) as Hself. fold Nb in Hself.
  pose proof (st_inv Nb _ (StateInv_after nodes edges t i)) as HI.
  fold Nb prev in HI.
  pose proof (Inv_step Nb Hself prev HI) as HIs.
  split; [intros n; exact (step_keys Nb Hself prev n HI)|].
  intros p Hp.
  destruct (inv_shape Nb _ HIs p Hp) as [c [b Heq]].
  rewrite Heq in Hp.
  destruct (step_min_all Nb Hself prev _ c b HI Hp)
    as [Hex [Hmin [c0 [b0 [H0 Hb]]]]].
  exists c, c0, b0. split; [rewrite Heq at 1; rewrite Hb; reflexivity|].
  split; [exact H0|]. split; [exact Hex|exact Hmin].
Qed.

Lemma emitted_settled_after nodes edges t i :
  emitted_settled (neighbours_of nodes edges t)
    (state_after nodes edges t i).
Proof.
  unfold state_after. cbv zeta. induction i as [|i IH]; simpl.
  - apply emitted_settled_initial.
  - apply emitted_settled_body;
      [apply Nb_self|apply Nb_sym|apply StateInv_after|exact IH].
Qed.

(** Property X9.
    A cluster is written out in one piece: a stable table appended to
    [converged_repr_tables] in some turn holds, with each of its rows, a
    row with the same representative for every id that retained edges
    connect to the row's node. *)
Theorem converged_tables_hold_whole_clusters (nodes : list Z)
  (edges : list edge_row) (t : option Q) (i : nat) :
  forall T, In T (converged_repr_tables (state_after nodes edges t i)) ->
  forall p x, In p T -> connected edges t (node_id p) x ->
    exists q, In q T /\ node_id q = x /\
              representative q = representative p.
Proof.
  intros T HT p x Hp Hx.
  pose proof (emitted_settled_after nodes edges t i) as He.
  unfold emitted_settled in He. rewrite Forall_forall in He.
  destruct (He T HT) as [Hwhole Hset].
  destruct (Hset p Hp) as [n [c [b [-> [Hn [_ Hall]]]]]]. simpl in *.
  assert (Hl : linked (neighbours_of nodes edges t) n x).
  { apply connected_linked; [|intros y Hy; exact (proj1 (Hall y Hy))|exact Hx].
    apply (proj1 (is_node_iff nodes edges t n)). exact Hn. }
  destruct (Hwhole n c b x Hp Hl) as [b' Hq].
  exists (row x c b'). auto.
Qed.

Lemma converged_tables_hold_whole_clusters_witness :
  exists q,
    In q [mk_rep 1 (Some 1) (Some false); mk_rep 2 (Some 1) (Some false)] /\
    node_id q = 2 /\ representative q = Some 1.
Proof.
  refine (converged_tables_hold_whole_clusters [1; 2] [mk_edge 1 2 1] None 1
            [mk_rep 1 (Some 1) (Some false); mk_rep 2 (Some 1) (Some false)]
            _ (mk_rep 1 (Some 1) (Some false)) 2 _ _).
  - vm_compute. left. reflexivity.
  - left. reflexivity.
  - apply rt_step. left. exists (mk_edge 1 2 1). simpl. auto.
Defined.

End ClusteringMore.

(** ** The sampling arithmetic and the write-back of [estimate_u_values] *)

Module EstimateUFacts.

Import Py EstimateU EstimateUSpec.
Local Open Scope R_scope.

Lemma pow_half_sqrt x : 0 <= x -> pow_half x = PyReal (sqrt x).
Proof.
  intros Hx. unfold pow_half.
  destruct (Rlt_dec x 0) as [Hlt|_]; [lra|].
  destruct (Req_dec_T x 0) as [->|Hne].
  - rewrite sqrt_0. reflexivity.
  - f_equal. replace 0.5 with (/ 2) by lra. apply Rpower_sqrt. lra.
Qed.

Lemma pow_half_negative x : x < 0 -> pow_half x = PyComplex.
Proof.
  intros Hx. unfold pow_half. destruct (Rlt_dec x 0); [reflexivity|lra].
Qed.

Lemma rows_needed_closed_form n :
  0 <= 8 * n + 1 -> _rows_needed_for_n_pairs n = PyReal (sample_rows n).
Proof.
  intros H. unfold _rows_needed_for_n_pairs, sample_rows.
  rewrite (pow_half_sqrt _ H). reflexivity.
Qed.

Lemma sample_rows_solves n :
  0 <= 8 * n + 1 -> sample_rows n * (sample_rows n - 1) / 2 = n.
Proof.
  intros H. unfold sample_rows.
  pose proof (sqrt_sqrt (8 * n + 1) H) as Hs.
  set (s := sqrt (8 * n + 1)) in *.
  replace (0.5 * (s + 1) * (0.5 * (s + 1) - 1) / 2)
    with ((s * s - 1) / 8) by lra.
  rewrite Hs. lra.
Qed.

Lemma sample_rows_gt_1 n : 0 < n -> 1 < sample_rows n.
Proof.
  intros H. unfold sample_rows.
  assert (1 < sqrt (8 * n + 1)).
  { rewrite <- sqrt_1 at 1. apply sqrt_lt_1; lra. }
  lra.
Qed.

Lemma pairwise_products_spec l :
  ((sum l) ^ 2 - sum (map (fun n : Z => (n ^ 2)%Z) l)
   = 2 * pairwise_products l)%Z.
Proof.
  induction l as [|n rest IH]; [reflexivity|].
  change (((n + sum rest) ^ 2
           - (n ^ 2 + sum (map (fun n : Z => (n ^ 2)%Z) rest))
           = 2 * (n * sum rest + pairwise_products rest))%Z).
  rewrite !Z.pow_2_r in *. lia.
Qed.

Lemma total_links_pairwise l : total_links l = IZR (pairwise_products l).
Proof.
  unfold total_links.
  replace (IZR (sum l) ^ 2) with (IZR (sum l ^ 2)) by (rewrite pow_IZR; reflexivity).
  rewrite <- minus_IZR, pairwise_products_spec, mult_IZR. lra.
Qed.

Lemma link_only_total_links l max_pairs :
  _proportion_sample_size_link_only l max_pairs =
  bind (truediv max_pairs (total_links l))
       (fun q => Ok (pow_half q,
                     lift (fun p => p * IZR (sum l)) (pow_half q))).
Proof.
  unfold _proportion_sample_size_link_only, total_links.
  rewrite minus_IZR, pow_IZR. reflexivity.
Qed.

Lemma truediv_nonzero a b : b <> 0 -> truediv a b = Ok (a / b).
Proof.
  intros H. unfold truediv. destruct (Req_dec_T b 0); [contradiction|].
  reflexivity.
Qed.

Lemma truediv_zero a : truediv a 0 = Raise ZeroDivisionError.
Proof.
  unfold truediv. destruct (Req_dec_T 0 0) as [_|H]; [reflexivity|].
  destruct (H eq_refl).
Qed.

Lemma total_links_single n : total_links [n] = 0.
Proof.
  rewrite total_links_pairwise. simpl. rewrite Z.mul_0_r. reflexivity.
Qed.

Lemma total_links_empty : total_links [] = 0.
Proof. rewrite total_links_pairwise. reflexivity. Qed.

Lemma link_only_single_frame n max_pairs :
  _proportion_sample_size_link_only [n] max_pairs = Raise ZeroDivisionError.
Proof.
  rewrite link_only_total_links, total_links_single, truediv_zero.
  reflexivity.
Qed.

(** *** The claims about the sample size *)

(** Claim C5.  For [max_pairs > 0] and the link types [dedupe_only] and
    [link_and_dedupe], the sample size is
    [0.5 * (sqrt (8 * max_pairs + 1) + 1)], which is the positive solution
    of [r (r - 1) / 2 = max_pairs], and the proportion is that number
    divided by the row count [N]; the division raises when [N] is zero. *)
Theorem dedupe_sample_size_closed_form (lt : link_type) (max_pairs : R)
  (c : concat_counts) :
  0 < max_pairs ->
  lt = dedupe_only \/ lt = link_and_dedupe ->
  let r := 0.5 * (sqrt (8 * max_pairs + 1) + 1) in
  let N := row_count c in
  _rows_needed_for_n_pairs max_pairs = PyReal r /\
  r * (r - 1) / 2 = max_pairs /\
  0 < r /\
  (N <> 0%Z ->
   sample_sizes lt max_pairs c =
   Ok (mk_plan (PyReal (r / IZR N)) (PyReal r) N)) /\
  (N = 0%Z -> sample_sizes lt max_pairs c = Raise ZeroDivisionError).
Proof.
  intros Hpos Hlt r N.
  assert (H0 : 0 <= 8 * max_pairs + 1) by lra.
  pose proof (rows_needed_closed_form max_pairs H0) as Hrows.
  fold (sample_rows max_pairs) in r.
  split; [exact Hrows|]. split; [exact (sample_rows_solves max_pairs H0)|].
  split; [pose proof (sample_rows_gt_1 max_pairs Hpos); unfold r; lra|].
  assert (Hsizes : sample_sizes lt max_pairs c =
                   bind (number_truediv (PyReal r) (IZR N))
                     (fun p => Ok (mk_plan p (PyReal r) N))).
  { destruct Hlt as [-> | ->]; unfold sample_sizes; rewrite Hrows;
      reflexivity. }
  rewrite Hsizes. unfold number_truediv. split.
  - intros HN. destruct (Req_dec_T (IZR N) 0) as [Hz|_]; [|reflexivity].
    apply eq_IZR_R0 in Hz. contradiction.
  - intros ->. destruct (Req_dec_T 0 0) as [_|Hn]; [reflexivity|].
    destruct (Hn eq_refl).
Qed.

Lemma dedupe_sample_size_closed_form_witness :
  0 < 10000 /\
  (dedupe_only = dedupe_only \/ dedupe_only = link_and_dedupe) /\
  sample_sizes dedupe_only 10000 (mk_counts 1000 [1000%Z]) =
  Ok (mk_plan (PyReal (0.5 * (sqrt (8 * 10000 + 1) + 1) / IZR 1000))
              (PyReal (0.5 * (sqrt (8 * 10000 + 1) + 1))) 1000).
Proof.
  split; [lra|]. split; [left; reflexivity|].
  apply (dedupe_sample_size_closed_form dedupe_only 10000
           (mk_counts 1000 [1000%Z])); [lra|left; reflexivity|].
  simpl. discriminate.
Defined.

(** Claim C6.  For frame row counts [n1 .. nk] whose number of cross-frame
    pairs [total_links = ((sum n)^2 - sum n^2) / 2] is positive, and
    [max_pairs >= 0], [_proportion_sample_size_link_only] returns
    [proportion = sqrt (max_pairs / total_links)] and
    [sample_size = proportion * sum n]; [total_links] is the sum of the
    products of all pairs of distinct frames, and
    [proportion^2 * total_links = max_pairs].  The link-only branch of
    [estimate_u_values] takes both numbers unchanged, with the total row
    count [sum n]. *)
Theorem link_only_sample_size_closed_form (row_counts : list Z)
  (max_pairs : R) :
  0 <= max_pairs ->
  0 < total_links row_counts ->
  let proportion := sqrt (max_pairs / total_links row_counts) in
  let sample_size := proportion * IZR (sum row_counts) in
  _proportion_sample_size_link_only row_counts max_pairs =
    Ok (PyReal proportion, PyReal sample_size) /\
  total_links row_counts = IZR (pairwise_products row_counts) /\
  proportion * proportion * total_links row_counts = max_pairs /\
  forall c, row_counts_by_source_dataset c = row_counts ->
    sample_sizes link_only max_pairs c =
    Ok (mk_plan (PyReal proportion) (PyReal sample_size) (sum row_counts)).
Proof.
  intros Hmp Htl proportion sample_size.
  assert (Hq : 0 <= max_pairs / total_links row_counts).
  { apply Rmult_le_pos; [exact Hmp|]. left. apply Rinv_0_lt_compat.
    exact Htl. }
  assert (Hcode : _proportion_sample_size_link_only row_counts max_pairs =
                  Ok (PyReal proportion, PyReal sample_size)).
  { rewrite link_only_total_links, truediv_nonzero by lra. simpl.
    rewrite (pow_half_sqrt _ Hq). reflexivity. }
  split; [exact Hcode|]. split; [apply total_links_pairwise|]. split.
  - unfold proportion. rewrite (sqrt_sqrt _ Hq). field. lra.
  - intros c Hc. unfold sample_sizes. rewrite Hc, Hcode. reflexivity.
Qed.

Lemma link_only_sample_size_closed_form_witness :
  0 <= 6 /\ 0 < total_links [2; 3]%Z /\
  _proportion_sample_size_link_only [2; 3]%Z 6 =
  Ok (PyReal (sqrt (6 / total_links [2; 3]%Z)),
      PyReal (sqrt (6 / total_links [2; 3]%Z) * IZR (sum [2; 3]%Z))).
Proof.
  assert (H : 0 < total_links [2; 3]%Z).
  { rewrite total_links_pairwise. simpl. lra. }
  split; [lra|]. split; [exact H|].
  apply (link_only_sample_size_closed_form [2; 3]%Z 6); [lra|exact H].
Defined.

(** The caps cannot order a complex proportion. *)
Lemma clamp_complex s N :
  clamp (mk_plan PyComplex s N) = Raise TypeError.
Proof. reflexivity. Qed.

(** *** The store across [estimate_u_values] *)

Lemma Forall2_map_r {A B : Type} (P : A -> B -> Prop) (f : A -> B) l :
  (forall x, In x l -> P x (f x)) -> Forall2 P l (map f l).
Proof.
  induction l as [|x tl IH]; simpl; intros H; constructor.
  - apply H. left; reflexivity.
  - apply IH. intros y Hy. apply H. right; exact Hy.
Qed.

Lemma write_back_only_u lookup s : only_u_appended s (write_back lookup s).
Proof.
  unfold only_u_appended, write_back. simpl.
  repeat (split; [reflexivity|]).
  apply Forall2_map_r. intros c _. simpl. split; [reflexivity|].
  apply Forall2_map_r. intros cl _. unfold level_u_appended.
  destruct (is_null_level cl) eqn:Hnull.
  - rewrite Hnull. auto.
  - simpl. rewrite Hnull. repeat (split; [reflexivity|]). eauto.
Qed.

Lemma clear_tf_cleared s :
  Forall (fun cc =>
            Forall (fun cl => _tf_adjustment_column cl = None)
                   (comparison_levels cc))
         (comparisons (clear_tf_adjustment_columns s)).
Proof.
  unfold clear_tf_adjustment_columns. simpl. apply Forall_forall.
  intros cc Hcc. apply in_map_iff in Hcc. destruct Hcc as [c [<- _]].
  simpl. apply Forall_forall. intros cl Hcl. apply in_map_iff in Hcl.
  destruct Hcl as [l [<- _]]. reflexivity.
Qed.

Lemma read_write_same h l s : read (write h l s) l = Some s.
Proof. unfold read, write. simpl. rewrite Nat.eqb_refl. reflexivity. Qed.

Lemma read_write_other h l l' s :
  l' <> l -> read (write h l s) l' = read h l'.
Proof.
  intros Hne. unfold read, write. simpl.
  destruct (Nat.eqb l' l) eqn:He; [|reflexivity].
  apply Nat.eqb_eq in He. contradiction.
Qed.

Lemma read_alloc_same h s : read (snd (alloc h s)) (next_loc h) = Some s.
Proof. unfold read, alloc. simpl. rewrite Nat.eqb_refl. reflexivity. Qed.

Lemma read_alloc_other h s l :
  l <> next_loc h -> read (snd (alloc h s)) l = read h l.
Proof.
  intros Hne. unfold read, alloc. simpl.
  destruct (Nat.eqb l (next_loc h)) eqn:He; [|reflexivity].
  apply Nat.eqb_eq in He. contradiction.
Qed.

Lemma bindM_ok {A B : Type} (c : M A) (k : A -> M B) h h' a :
  c h = (h', Ok a) -> bindM c k h = k a h'.
Proof. intros H. unfold bindM. rewrite H. reflexivity. Qed.

Lemma bindM_raise {A B : Type} (c : M A) (k : A -> M B) h h' e :
  c h = (h', Raise e) -> bindM c k h = (h', Raise e).
Proof. intros H. unfold bindM. rewrite H. reflexivity. Qed.

Lemma deref_ok l h s : read h l = Some s -> deref l h = (h, Ok s).
Proof. intros H. unfold deref. rewrite H. reflexivity. Qed.

Lemma modify_ok l f h s :
  read h l = Some s -> modify l f h = (write h l (f s), Ok tt).
Proof.
  intros H. unfold modify. rewrite (bindM_ok _ _ h h s (deref_ok l h s H)).
  reflexivity.
Qed.

Lemma deepcopy_ok linker h s :
  read h (_settings_obj linker) = Some s ->
  deepcopy linker h =
  (snd (alloc h s),
   Ok (mk_linker (next_loc h) (_sql_dialect linker)
         (_input_tables_dict linker))).
Proof.
  intros H. unfold deepcopy.
  rewrite (bindM_ok _ _ h h s (deref_ok _ h s H)). reflexivity.
Qed.

Lemma fresh_loc h l s :
  store_ok h -> read h l = Some s -> l <> next_loc h.
Proof.
  intros Hok Hr ->. rewrite (Hok (next_loc h) (Nat.le_refl _)) in Hr.
  discriminate.
Qed.

Lemma estimate_u_values_run env linker max_pairs seed h original :
  store_ok h -> read h (_settings_obj linker) = Some original ->
  let run := estimate_u_values env linker max_pairs seed h in
  (forall l, l <> _settings_obj linker -> (l < next_loc h)%nat ->
             read (fst run) l = read h l) /\
  match snd run with
  | Ok _ =>
      (exists after,
         read (fst run) (_settings_obj linker) = Some after /\
         only_u_appended original after) /\
      (exists training,
         read (fst run) (next_loc h) = Some training /\
         training_settings_set training) /\
      (exists plan plan',
         sample_sizes (_link_type original) max_pairs (counts env) = Ok plan /\
         clamp plan = Ok plan')
  | Raise e =>
      read (fst run) (_settings_obj linker) = Some original /\
      (sample_sizes (_link_type original) max_pairs (counts env) = Raise e \/
       exists plan,
         sample_sizes (_link_type original) max_pairs (counts env) = Ok plan /\
         clamp plan = Raise e)
  end.
Proof.
  intros Hok Hread run. set (l0 := _settings_obj linker) in *.
  set (l1 := next_loc h).
  assert (Hne : l0 <> l1) by exact (fresh_loc h l0 original Hok Hread).
  assert (Hne' : l1 <> l0) by congruence.
  set (s1 := set_retain_matching_columns false original).
  set (s2 := set_retain_intermediate_calculation_columns false s1).
  set (s3 := clear_tf_adjustment_columns s2).
  set (h0 := snd (alloc h original)).
  set (h1 := write h0 l1 s1). set (h2 := write h1 l1 s2).
  set (h3 := write h2 l1 s3).
  assert (Hkeep : forall l, (l < next_loc h)%nat -> read h3 l = read h l).
  { intros l Hl. assert (l <> l1) by (unfold l1; lia).
    unfold h3, h2, h1, h0. rewrite !read_write_other by assumption.
    apply read_alloc_other. assumption. }
  assert (Hcopy : read h3 l1 = Some s3) by apply read_write_same.
  assert (Hprefix :
    run = (let training_linker :=
             mk_linker l1 (_sql_dialect linker) (_input_tables_dict linker) in
           plan <~ pure (sample_sizes (_link_type s3) max_pairs (counts env)) ;;
           plan <~ pure (clamp plan) ;;
           _ <~ modify l1
                  (set_blocking_rules
                     (if String.eqb (_sql_dialect linker) "duckdb"
                         && (if Rgt_dec max_pairs 1e4 then true else false)
                      then [mk_blocking_rule "1=1" (cpu_count env)]
                      else [])) ;;
           h' <~ snapshot ;;
           modify l0
             (write_back
                (train env h' linker training_linker
                   (_random_sample_sql (proportion plan) (sample_size plan)
                      seed)))) h3).
  { unfold run, estimate_u_values. fold l0.
    rewrite (bindM_ok _ _ h h0 _ (deepcopy_ok linker h original Hread)).
    simpl _settings_obj. fold l1.
    rewrite (bindM_ok _ _ h0 h1 tt
               (modify_ok l1 (set_retain_matching_columns false) h0 original
                  (read_alloc_same h original))).
    rewrite (bindM_ok _ _ h1 h2 tt
               (modify_ok l1
                  (set_retain_intermediate_calculation_columns false) h1 s1
                  (read_write_same h0 l1 s1))).
    rewrite (bindM_ok _ _ h2 h3 tt
               (modify_ok l1 clear_tf_adjustment_columns h2 s2
                  (read_write_same h1 l1 s2))).
    rewrite (bindM_ok _ _ h3 h3 s3 (deref_ok l1 h3 s3 Hcopy)).
    reflexivity. }
  rewrite Hprefix. clear Hprefix. cbv zeta.
  change (_link_type s3) with (_link_type original).
  destruct (sample_sizes (_link_type original) max_pairs (counts env))
    as [plan|e] eqn:Hsizes.
  - rewrite (bindM_ok _ _ h3 h3 plan eq_refl).
    destruct (clamp plan) as [plan'|e] eqn:Hclamp.
    + rewrite (bindM_ok _ _ h3 h3 plan' eq_refl).
      rewrite (bindM_ok _ _ h3 _ tt (modify_ok l1 _ h3 s3 Hcopy)).
      set (s4 := set_blocking_rules _ s3). set (h4 := write h3 l1 s4).
      rewrite (bindM_ok _ _ h4 h4 h4 eq_refl).
      assert (Horig : read h4 l0 = Some original).
      { unfold h4. rewrite read_write_other by exact Hne.
        rewrite Hkeep; [exact Hread|].
        destruct (Nat.lt_ge_cases l0 (next_loc h)) as [Hlt|Hge];
          [exact Hlt|]. rewrite (Hok l0 Hge) in Hread. discriminate. }
      rewrite (modify_ok l0 _ h4 original Horig). simpl fst. simpl snd.
      split; [|split; [|split]].
      * intros l Hl Hlt. assert (l <> l1) by (unfold l1; lia).
        rewrite read_write_other by exact Hl. unfold h4.
        rewrite read_write_other by assumption. apply Hkeep. exact Hlt.
      * eexists. split; [apply read_write_same|]. apply write_back_only_u.
      * exists s4. split.
        -- rewrite read_write_other by exact Hne'. apply read_write_same.
        -- split; [reflexivity|]. split; [reflexivity|].
           apply (clear_tf_cleared s2).
      * exists plan, plan'. auto.
    + rewrite (bindM_raise _ _ h3 h3 e eq_refl). simpl fst. simpl snd.
      split; [|split].
      * intros l _ Hlt. apply Hkeep. exact Hlt.
      * rewrite Hkeep; [exact Hread|].
        destruct (Nat.lt_ge_cases l0 (next_loc h)) as [Hlt|Hge];
          [exact Hlt|]. rewrite (Hok l0 Hge) in Hread. discriminate.
      * right. exists plan. auto.
  - rewrite (bindM_raise _ _ h3 h3 e eq_refl). simpl fst. simpl snd.
    split; [|split].
    + intros l _ Hlt. apply Hkeep. exact Hlt.
    + rewrite Hkeep; [exact Hread|].
      destruct (Nat.lt_ge_cases l0 (next_loc h)) as [Hlt|Hge];
        [exact Hlt|]. rewrite (Hok l0 Hge) in Hread. discriminate.
    + left. reflexivity.
Qed.

(** *** What [estimate_u_values] hands to the sampler *)





(** *** The claims about the effects and the failure of
    [estimate_u_values] *)

(** Claim C8.  Let the linker's settings object exist in a store that holds
    nothing beyond its next free location.  After [estimate_u_values], every
    other object that existed before is unchanged.  When the call returns,
    the original settings object differs from what it was only in that each
    level that is not a null level has gained one trained u record with the
    description "estimate u by random sampling": link type, retain flags,
    blocking rules, term-frequency adjustment columns and m probabilities
    are as before, while the deep copy, at the location that was free,
    carries the cleared retain flags and adjustment columns.  When the call
    raises, the original settings object is unchanged. *)
Theorem estimate_u_values_only_appends_u (env : environment)
  (linker : Linker) (max_pairs : R) (seed : option Z) (h : store)
  (original : Settings) :
  store_ok h ->
  read h (_settings_obj linker) = Some original ->
  let run := estimate_u_values env linker max_pairs seed h in
  (forall l, l <> _settings_obj linker -> (l < next_loc h)%nat ->
             read (fst run) l = read h l) /\
  match snd run with
  | Ok _ =>
      (exists after,
         read (fst run) (_settings_obj linker) = Some after /\
         only_u_appended original after) /\
      (exists training,
         read (fst run) (next_loc h) = Some training /\
         training_settings_set training)
  | Raise _ => read (fst run) (_settings_obj linker) = Some original
  end.
Proof.
  intros Hok Hread run.
  destruct (estimate_u_values_run env linker max_pairs seed h original
              Hok Hread) as [Hframe Hcase].
  fold run in Hframe, Hcase. split; [exact Hframe|].
  destruct (snd run); [|exact (proj1 Hcase)].
  destruct Hcase as [Hafter [Htraining _]]. auto.
Qed.

Lemma example_store_ok : store_ok example_store.
Proof. intros [|l] Hl; [simpl in Hl; lia|reflexivity]. Qed.



Lemma estimate_u_values_only_appends_u_witness :
  store_ok example_store /\
  read example_store 0%nat = Some example_settings /\
  let run :=
    estimate_u_values example_env (mk_linker 0%nat "duckdb" 1%nat) 10000 None
      example_store in
  (forall l, l <> 0%nat -> (l < 1)%nat ->
             read (fst run) l = read example_store l) /\
  match snd run with
  | Ok _ =>
      (exists after,
         read (fst run) 0%nat = Some after /\
         only_u_appended example_settings after) /\
      (exists training,
         read (fst run) 1%nat = Some training /\
         training_settings_set training)
  | Raise _ => read (fst run) 0%nat = Some example_settings
  end.
Proof.
  split; [exact example_store_ok|]. split; [reflexivity|].
  exact (estimate_u_values_only_appends_u example_env
           (mk_linker 0%nat "duckdb" 1%nat) 10000 None example_store
           example_settings example_store_ok eq_refl).
Defined.

(** Claim C10.  When all rows of a link-only run belong to one source
    dataset, the frame counts are a one-element list, [total_links] is
    zero, [_proportion_sample_size_link_only] raises [ZeroDivisionError],
    and so does [estimate_u_values], which calls it without a check and
    leaves the settings object as it was. *)
Theorem link_only_single_source_raises (n : Z) (max_pairs : R) :
  total_links [n] = 0 /\
  _proportion_sample_size_link_only [n] max_pairs =
    Raise ZeroDivisionError /\
  forall (env : environment) (linker : Linker) (seed : option Z) (h : store)
         (original : Settings),
    store_ok h ->
    read h (_settings_obj linker) = Some original ->
    _link_type original = link_only ->
    row_counts_by_source_dataset (counts env) = [n] ->
    let run := estimate_u_values env linker max_pairs seed h in
    snd run = Raise ZeroDivisionError /\
    read (fst run) (_settings_obj linker) = Some original.
Proof.
  split; [apply total_links_single|].
  split; [apply link_only_single_frame|].
  intros env linker seed h original Hok Hread Hlt Hcounts run.
  assert (Hsizes : sample_sizes (_link_type original) max_pairs (counts env)
                   = Raise ZeroDivisionError).
  { rewrite Hlt. unfold sample_sizes.
    rewrite Hcounts, link_only_single_frame. reflexivity. }
  destruct (estimate_u_values_run env linker max_pairs seed h original
              Hok Hread) as [_ Hcase].
  fold run in Hcase. rewrite Hsizes in Hcase.
  destruct (snd run) as [u|e].
  - destruct Hcase as [_ [_ [plan [plan' [Hc _]]]]]. discriminate.
  - destruct Hcase as [Horig [He|[plan [He _]]]]; [|discriminate].
    inversion He. auto.
Qed.

Lemma single_source_store_ok : store_ok single_source_store.
Proof. intros [|l] Hl; [simpl in Hl; lia|reflexivity]. Qed.

Lemma link_only_single_source_raises_witness :
  store_ok single_source_store /\
  read single_source_store 0%nat = Some single_source_settings /\
  _link_type single_source_settings = link_only /\
  row_counts_by_source_dataset (counts single_source_env) = [25%Z] /\
  snd (estimate_u_values single_source_env (mk_linker 0%nat "duckdb" 1%nat)
         1e6 None single_source_store) = Raise ZeroDivisionError.
Proof.
  split; [exact single_source_store_ok|]. repeat (split; [reflexivity|]).
  destruct (link_only_single_source_raises 25 1e6) as [_ [_ H]].
  exact (proj1 (H single_source_env (mk_linker 0%nat "duckdb" 1%nat) None
                  single_source_store single_source_settings
                  single_source_store_ok eq_refl eq_refl eq_refl)).
Defined.

End EstimateUFacts.

(** ** Further facts about the sampling arithmetic *)

Module EstimateUMore.

Import Py EstimateU EstimateUSpec EstimateUMoreSpec EstimateUFacts.
Local Open Scope R_scope.

Lemma sum_cons c tl : sum (c :: tl) = (c + sum tl)%Z.
Proof. reflexivity. Qed.

Lemma sum_nonneg l : Forall (fun c => 0 <= c)%Z l -> (0 <= sum l)%Z.
Proof.
  induction 1 as [|c tl Hc _ IH]; [simpl; lia|]. rewrite sum_cons. lia.
Qed.

Lemma sum_zero_no_rows l :
  Forall (fun c => 0 <= c)%Z l ->
  (sum l = 0%Z <-> filter (fun c => 0 <? c)%Z l = []).
Proof.
  induction 1 as [|c tl Hc Htl IH]; [simpl; tauto|].
  pose proof (sum_nonneg tl Htl) as Hs. rewrite sum_cons. simpl.
  destruct (0 <? c)%Z eqn:Hpos.
  - apply Z.ltb_lt in Hpos. split; [lia|discriminate].
  - apply Z.ltb_ge in Hpos. rewrite <- IH. lia.
Qed.

Lemma pairwise_products_nonneg l :
  Forall (fun c => 0 <= c)%Z l -> (0 <= pairwise_products l)%Z.
Proof.
  induction 1 as [|c tl Hc Htl IH]; simpl; [lia|].
  pose proof (sum_nonneg tl Htl). nia.
Qed.

Lemma pairwise_products_zero l :
  Forall (fun c => 0 <= c)%Z l ->
  (pairwise_products l = 0%Z <->
   (List.length (filter (fun c => 0 <? c)%Z l) <= 1)%nat).
Proof.
  induction 1 as [|c tl Hc Htl IH]; simpl; [split; [lia|reflexivity]|].
  pose proof (sum_nonneg tl Htl) as Hs.
  pose proof (pairwise_products_nonneg tl Htl) as Hp.
  pose proof (sum_zero_no_rows tl Htl) as Hz.
  destruct (0 <? c)%Z eqn:Hpos.
  - apply Z.ltb_lt in Hpos. simpl. split.
    + intros H. assert (Hs0 : sum tl = 0%Z) by nia.
      apply Hz in Hs0. rewrite Hs0. simpl. lia.
    + intros H.
      assert (Hnil : filter (fun c => 0 <? c)%Z tl = []).
      { destruct (filter _ tl); [reflexivity|simpl in H; lia]. }
      assert (Hp0 : pairwise_products tl = 0%Z).
      { apply IH. rewrite Hnil. simpl. lia. }
      apply Hz in Hnil. rewrite Hnil, Hp0. lia.
  - apply Z.ltb_ge in Hpos. assert (c = 0%Z) as -> by lia.
    rewrite <- IH. lia.
Qed.

(** *** The failure of the link-only proportion *)

(** Property X10.
    With row counts that are not negative,
    [_proportion_sample_size_link_only] raises [ZeroDivisionError] exactly
    when at most one source dataset has rows (an empty list of counts
    included), whatever [max_pairs] is; with rows in two datasets or more
    it returns. *)
Theorem link_only_zero_division (row_counts : list Z) (max_pairs : R) :
  Forall (fun c => 0 <= c)%Z row_counts ->
  let with_rows := filter (fun c => 0 <? c)%Z row_counts in
  ((List.length with_rows <= 1)%nat ->
   _proportion_sample_size_link_only row_counts max_pairs =
     Raise ZeroDivisionError) /\
  ((2 <= List.length with_rows)%nat ->
   0 < total_links row_counts /\
   exists ps,
     _proportion_sample_size_link_only row_counts max_pairs = Ok ps).
Proof.
  intros Hnn with_rows. rewrite link_only_total_links.
  rewrite total_links_pairwise.
  pose proof (pairwise_products_zero row_counts Hnn) as Hz.
  pose proof (pairwise_products_nonneg row_counts Hnn) as Hp.
  fold with_rows in Hz. split; intros Hlen.
  - rewrite (proj2 Hz Hlen). rewrite truediv_zero. reflexivity.
  - assert (Hpos : (0 < pairwise_products row_counts)%Z).
    { destruct (Z.eq_dec (pairwise_products row_counts) 0) as [H0|H0];
        [apply Hz in H0|]; lia. }
    apply IZR_lt in Hpos. split; [exact Hpos|].
    rewrite truediv_nonzero by lra. simpl. eauto.
Qed.

Lemma link_only_zero_division_witness :
  _proportion_sample_size_link_only [0; 7; 0]%Z 1e6 =
    Raise ZeroDivisionError.
Proof.
  refine (proj1 (link_only_zero_division [0; 7; 0]%Z 1e6 _) _).
  - repeat constructor; lia.
  - simpl. lia.
Defined.

(** *** The sample size as the inverse of the pair count *)

(** Property X11.
    [_rows_needed_for_n_pairs] inverts the pair count [k (k - 1) / 2]:
    asked for the number of pairs of [k] rows it returns [k] when
    [k >= 1/2], and the other root [1 - k] of the quadratic below that. *)
Theorem rows_needed_inverts_pair_count (k : R) :
  _rows_needed_for_n_pairs (k * (k - 1) / 2) = PyReal (Rmax k (1 - k)).
Proof.
  assert (Hsq : 8 * (k * (k - 1) / 2) + 1 = (2 * k - 1) * (2 * k - 1))
    by field.
  rewrite rows_needed_closed_form by (rewrite Hsq; apply Rle_0_sqr).
  unfold sample_rows. rewrite Hsq. f_equal.
  destruct (Rle_dec (1 / 2) k) as [Hk|Hk].
  - rewrite sqrt_square by lra. rewrite Rmax_left by lra. lra.
  - replace ((2 * k - 1) * (2 * k - 1)) with ((1 - 2 * k) * (1 - 2 * k))
      by ring.
    rewrite sqrt_square by lra. rewrite Rmax_right by lra. lra.
Qed.

(** *** A negative [max_pairs] *)

Lemma sample_sizes_complex lt max_pairs c :
  match lt with
  | link_only =>
      0 < total_links (row_counts_by_source_dataset c) /\ max_pairs < 0
  | _ => row_count c <> 0%Z /\ 8 * max_pairs + 1 < 0
  end ->
  exists s N, sample_sizes lt max_pairs c = Ok (mk_plan PyComplex s N).
Proof.
  assert (Hdedupe :
    row_count c <> 0%Z /\ 8 * max_pairs + 1 < 0 ->
    exists s N,
      bind (number_truediv (_rows_needed_for_n_pairs max_pairs)
              (IZR (row_count c)))
           (fun proportion =>
              Ok (mk_plan proportion (_rows_needed_for_n_pairs max_pairs)
                    (row_count c))) = Ok (mk_plan PyComplex s N)).
  { intros [HN Hneg]. unfold _rows_needed_for_n_pairs, number_truediv.
    rewrite (pow_half_negative _ Hneg).
    destruct (Req_dec_T (IZR (row_count c)) 0) as [Hz|Hnz].
    - apply eq_IZR in Hz. contradiction.
    - simpl. eauto. }
  destruct lt; try exact Hdedupe.
  intros [Hpos Hneg]. unfold sample_sizes.
  rewrite link_only_total_links. rewrite truediv_nonzero by lra.
  assert (Hq : max_pairs / total_links (row_counts_by_source_dataset c) < 0).
  { unfold Rdiv. apply Ropp_lt_cancel. rewrite Ropp_0.
    rewrite Ropp_mult_distr_l. apply Rmult_lt_0_compat; [lra|].
    apply Rinv_0_lt_compat. exact Hpos. }
  simpl. rewrite (pow_half_negative _ Hq). simpl. eauto.
Qed.

(** Property X14.
    A [max_pairs] below [-1/8] on a table with rows (dedupe), or below 0
    with rows in two datasets or more (link only), makes the square root
    complex; [estimate_u_values] then raises [TypeError] at the first cap
    and leaves the linker's settings object as it was. *)
Theorem estimate_u_values_negative_max_pairs (env : environment)
  (linker : Linker) (max_pairs : R) (seed : option Z) (h : store)
  (original : Settings) :
  store_ok h ->
  read h (_settings_obj linker) = Some original ->
  match _link_type original with
  | link_only =>
      0 < total_links (row_counts_by_source_dataset (counts env)) /\
      max_pairs < 0
  | _ => row_count (counts env) <> 0%Z /\ 8 * max_pairs + 1 < 0
  end ->
  let run := estimate_u_values env linker max_pairs seed h in
  snd run = Raise TypeError /\
  read (fst run) (_settings_obj linker) = Some original.
Proof.
  intros Hok Hread Hcond run.
  destruct (sample_sizes_complex _ max_pairs (counts env) Hcond)
    as [s [N Hsizes]].
  destruct (estimate_u_values_run env linker max_pairs seed h original
              Hok Hread) as [_ Hcase].
  fold run in Hcase. destruct (snd run) as [u|e].
  - destruct Hcase as [_ [_ [plan [plan' [Hplan Hclamp]]]]].
    rewrite Hsizes in Hplan. inversion Hplan; subst plan.
    rewrite clamp_complex in Hclamp. discriminate.
  - destruct Hcase as [Horig [Hraise|[plan [Hplan Hclamp]]]].
    + rewrite Hsizes in Hraise. discriminate.
    + rewrite Hsizes in Hplan. inversion Hplan; subst plan.
      rewrite clamp_complex in Hclamp. inversion Hclamp. auto.
Qed.

Lemma estimate_u_values_negative_max_pairs_witness :
  snd (estimate_u_values example_env (mk_linker 0%nat "duckdb" 1%nat) (-1)
         None example_store) = Raise TypeError.
Proof.
  refine (proj1 (estimate_u_values_negative_max_pairs example_env
                   (mk_linker 0%nat "duckdb" 1%nat) (-1) None example_store
                   example_settings example_store_ok eq_refl _)).
  simpl. split; [discriminate|lra].
Defined.

(** *** The training copy *)




End EstimateUMore.

(** ** Configured probabilities and null levels *)

Module ComparisonCreatorFacts.

Import Py ComparisonCreator ComparisonCreatorSpec.

Lemma filter_non_null_cons cl rest :
  filter non_null (cl :: rest) =
  if is_null_level cl then filter non_null rest
  else cl :: filter non_null rest.
Proof.
  simpl. unfold non_null at 1. destruct (is_null_level cl); reflexivity.
Qed.

Lemma filter_null_cons (cl : ComparisonLevelCreator) rest :
  filter is_null_level (cl :: rest) =
  if is_null_level cl then cl :: filter is_null_level rest
  else filter is_null_level rest.
Proof. reflexivity. Qed.

Section ConfigureAll.

(** One of the two keyword arguments: how [configure] stores it and how it
    is read back. *)
Variable configure :
  ComparisonLevelCreator -> option Q -> ComparisonLevelCreator.
Variable get : ComparisonLevelCreator -> option Q.

Hypothesis get_some : forall cl v, get (configure cl (Some v)) = Some v.
Hypothesis get_none : forall cl, get (configure cl None) = get cl.
Hypothesis null_configure :
  forall cl v, is_null_level (configure cl v) = is_null_level cl.

Lemma configure_all_ok levels : forall values levels',
  configure_all configure values levels = Ok levels' ->
  Forall2 (fun cl cl' => exists v, cl' = configure cl v) levels levels' /\
  map get (filter is_null_level levels') =
    map get (filter is_null_level levels) /\
  map get (filter non_null levels') =
    map Some (firstn (List.length (filter non_null levels)) values) /\
  (List.length (filter non_null levels) <= List.length values)%nat.
Proof.
  induction levels as [|cl rest IH]; intros values levels' Hrun.
  - simpl in Hrun. inversion Hrun; subst. simpl.
    split; [constructor|]. split; [reflexivity|]. split; [reflexivity|lia].
  - simpl in Hrun. rewrite filter_non_null_cons, (filter_null_cons cl).
    destruct (is_null_level cl) eqn:Hnull.
    + destruct (configure_all configure values rest) as [rest'|e] eqn:Hrest;
        simpl in Hrun; [|discriminate].
      inversion Hrun; subst levels'. clear Hrun.
      destruct (IH values rest' Hrest) as [Hall [Hkeep [Hvals Hlen]]].
      split; [constructor; eauto|].
      rewrite filter_non_null_cons, filter_null_cons, null_configure, Hnull.
      split; [simpl; rewrite get_none, Hkeep; reflexivity|].
      split; [exact Hvals|exact Hlen].
    + destruct values as [|v values']; simpl in Hrun; [discriminate|].
      destruct (configure_all configure values' rest) as [rest'|e] eqn:Hrest;
        simpl in Hrun; [|discriminate].
      inversion Hrun; subst levels'. clear Hrun.
      destruct (IH values' rest' Hrest) as [Hall [Hkeep [Hvals Hlen]]].
      split; [constructor; eauto|].
      rewrite filter_non_null_cons, filter_null_cons, null_configure, Hnull.
      split; [exact Hkeep|]. simpl.
      rewrite get_some, Hvals. split; [reflexivity|lia].
Qed.

Lemma configure_all_raise levels : forall values e,
  configure_all configure values levels = Raise e ->
  e = IndexError /\
  (List.length values < List.length (filter non_null levels))%nat.
Proof.
  induction levels as [|cl rest IH]; intros values e Hrun.
  - simpl in Hrun. discriminate.
  - simpl in Hrun. rewrite filter_non_null_cons.
    destruct (is_null_level cl) eqn:Hnull.
    + destruct (configure_all configure values rest) as [rest'|e'] eqn:Hrest;
        simpl in Hrun; [discriminate|].
      inversion Hrun; subst e'. exact (IH values e Hrest).
    + destruct values as [|v values']; simpl in Hrun.
      * inversion Hrun. split; [reflexivity|simpl; lia].
      * destruct (configure_all configure values' rest) as [rest'|e'] eqn:Hrest;
          simpl in Hrun; [discriminate|].
        inversion Hrun; subst e'.
        destruct (IH values' e Hrest) as [He Hlen].
        split; [exact He|simpl; lia].
Qed.

End ConfigureAll.

Lemma configured_null_flags configure levels levels' :
  (forall cl v, is_null_level (configure cl v) = is_null_level cl) ->
  Forall2 (fun cl cl' : ComparisonLevelCreator =>
             exists v : option Q, cl' = configure cl v) levels levels' ->
  map is_null_level levels' = map is_null_level levels.
Proof.
  intros Hnull H. induction H as [|cl cl' l l' [v ->] _ IH]; simpl;
    [reflexivity|]. rewrite Hnull, IH. reflexivity.
Qed.


Lemma filter_non_null_same levels levels' :
  map is_null_level levels' = map is_null_level levels ->
  List.length (filter non_null levels') = List.length (filter non_null levels).
Proof.
  revert levels'. induction levels as [|cl rest IH]; intros [|cl' rest'] H;
    simpl in H; try discriminate; [reflexivity|].
  injection H as Hcl Hrest. rewrite !filter_non_null_cons, Hcl.
  destruct (is_null_level cl); simpl; rewrite (IH _ Hrest); reflexivity.
Qed.

Lemma configured_filter_field {B : Type} (f : ComparisonLevelCreator -> B)
  configure levels levels' :
  (forall cl v, f (configure cl v) = f cl) ->
  (forall cl v, is_null_level (configure cl v) = is_null_level cl) ->
  Forall2 (fun cl cl' : ComparisonLevelCreator =>
             exists v : option Q, cl' = configure cl v) levels levels' ->
  map f (filter non_null levels') = map f (filter non_null levels).
Proof.
  intros Hf Hnull H. induction H as [|cl cl' l l' [v ->] _ IH];
    [reflexivity|].
  rewrite !filter_non_null_cons, Hnull.
  destruct (is_null_level cl); simpl; rewrite ?Hf, IH; reflexivity.
Qed.



(** What the two [configure] calls do to the fields of a level. *)
Lemma m_get_some cl v :
  m_probability (configure_m_probability cl (Some v)) = Some v.
Proof. reflexivity. Qed.

Lemma m_get_none cl :
  m_probability (configure_m_probability cl None) = m_probability cl.
Proof. reflexivity. Qed.

Lemma u_get_some cl v :
  u_probability (configure_u_probability cl (Some v)) = Some v.
Proof. reflexivity. Qed.

Lemma u_get_none cl :
  u_probability (configure_u_probability cl None) = u_probability cl.
Proof. reflexivity. Qed.

Lemma m_null_configure cl v :
  is_null_level (configure_m_probability cl v) = is_null_level cl.
Proof. destruct v; reflexivity. Qed.

Lemma u_null_configure cl v :
  is_null_level (configure_u_probability cl v) = is_null_level cl.
Proof. destruct v; reflexivity. Qed.



Lemma u_keeps_m cl v :
  m_probability (configure_u_probability cl v) = m_probability cl.
Proof. destruct v; reflexivity. Qed.




(** One value too few: the second [pop(0)] finds the list empty. *)
Example configured_levels_short_list :
  get_configured_comparison_levels
    (mk_creator
       [mk_level_creator "exact" false None None;
        mk_level_creator "else" false None None]
       (Some [9 # 10]) None) =
  Raise IndexError.
Proof. reflexivity. Qed.

End ComparisonCreatorFacts.

(** ** Configuring a comparison creator *)

Module ComparisonCreatorMore.

Import Py ComparisonCreator ComparisonCreatorSpec ComparisonCreatorConfigure.
Import ComparisonCreatorFacts.

Lemma acceptable_dec self values :
  {acceptable self values} + {~ acceptable self values}.
Proof.
  unfold acceptable. destruct (truthy values) as [l|].
  - destruct (Nat.eq_dec (List.length l) (num_non_null_levels self))
      as [H|H].
    + left. intros l' Hl. inversion Hl. subst l'. exact H.
    + right. intros Hall. apply H. apply Hall. reflexivity.
  - left. intros l H. discriminate.
Qed.

Lemma set_m_accepted self m :
  acceptable self m ->
  set_m_probabilities self m =
  (match truthy m with
   | Some l => mk_creator (create_comparison_levels self) (Some l)
                 (_u_probabilities self)
   | None => self
   end, Returns).
Proof.
  unfold acceptable, set_m_probabilities. intros H.
  destruct (truthy m) as [l|]; [|reflexivity].
  rewrite (H l eq_refl), Nat.eqb_refl. reflexivity.
Qed.

Lemma set_m_rejected self m :
  ~ acceptable self m -> set_m_probabilities self m = (self, RaisesValueError).
Proof.
  unfold acceptable, set_m_probabilities. intros H.
  destruct (truthy m) as [l|].
  - destruct (Nat.eqb (List.length l) (num_non_null_levels self)) eqn:Heq;
      [|reflexivity].
    exfalso. apply H. intros l' Hl. inversion Hl. subst l'.
    apply Nat.eqb_eq. exact Heq.
  - exfalso. apply H. intros l Hl. discriminate.
Qed.

Lemma set_u_accepted self u :
  acceptable self u ->
  set_u_probabilities self u =
  (match truthy u with
   | Some l => mk_creator (create_comparison_levels self)
                 (_m_probabilities self) (Some l)
   | None => self
   end, Returns).
Proof.
  unfold acceptable, set_u_probabilities. intros H.
  destruct (truthy u) as [l|]; [|reflexivity].
  rewrite (H l eq_refl), Nat.eqb_refl. reflexivity.
Qed.

Lemma set_u_rejected self u :
  ~ acceptable self u -> set_u_probabilities self u = (self, RaisesValueError).
Proof.
  unfold acceptable, set_u_probabilities. intros H.
  destruct (truthy u) as [l|].
  - destruct (Nat.eqb (List.length l) (num_non_null_levels self)) eqn:Heq;
      [|reflexivity].
    exfalso. apply H. intros l' Hl. inversion Hl. subst l'.
    apply Nat.eqb_eq. exact Heq.
  - exfalso. apply H. intros l Hl. discriminate.
Qed.

Lemma with_m_levels self m :
  create_comparison_levels (with_m self m) = create_comparison_levels self.
Proof. unfold with_m. destruct (truthy m); reflexivity. Qed.

Lemma acceptable_same_levels self self' values :
  create_comparison_levels self' = create_comparison_levels self ->
  acceptable self values -> acceptable self' values.
Proof.
  unfold acceptable, num_non_null_levels. intros -> H. exact H.
Qed.

Lemma configure_cases self m u :
  configure self m u =
  if acceptable_dec self m then
    if acceptable_dec self u then
      (match truthy u with
       | Some l => mk_creator (create_comparison_levels self)
                     (_m_probabilities (with_m self m)) (Some l)
       | None => with_m self m
       end, Returns)
    else (with_m self m, RaisesValueError)
  else (self, RaisesValueError).
Proof.
  unfold configure.
  destruct (acceptable_dec self m) as [Hm|Hm].
  - rewrite (set_m_accepted self m Hm). fold (with_m self m).
    destruct (acceptable_dec self u) as [Hu|Hu].
    + rewrite set_u_accepted
        by (apply (acceptable_same_levels self);
            [apply with_m_levels|exact Hu]).
      rewrite with_m_levels. reflexivity.
    + apply set_u_rejected. intros H. apply Hu.
      apply (acceptable_same_levels (with_m self m)); [|exact H].
      symmetry. apply with_m_levels.
  - rewrite (set_m_rejected self m Hm). reflexivity.
Qed.

(** Property X16.
    [configure] returns exactly when each of the two lists is falsy (None
    or empty) or has one value for each level that is not a null level;
    otherwise it raises [ValueError]. *)
Theorem configure_returns_iff (self : ComparisonCreator)
  (m_probabilities u_probabilities : option (list Q)) :
  snd (configure self m_probabilities u_probabilities) = Returns <->
  acceptable self m_probabilities /\ acceptable self u_probabilities.
Proof.
  rewrite configure_cases.
  destruct (acceptable_dec self m_probabilities) as [Hm|Hm];
    [destruct (acceptable_dec self u_probabilities) as [Hu|Hu]|]; simpl;
    split; try tauto; discriminate.
Qed.

(** Property X17.
    [configure] is not all-or-nothing.  A rejected list of m probabilities
    leaves the object as it was, and the u probabilities are not looked
    at; but when the m probabilities are accepted and the u probabilities
    are rejected, the call raises with the m probabilities stored. *)
Theorem configure_rejection_state (self : ComparisonCreator)
  (m_probabilities u_probabilities : option (list Q)) :
  (~ acceptable self m_probabilities ->
   configure self m_probabilities u_probabilities =
     (self, RaisesValueError)) /\
  (acceptable self m_probabilities ->
   ~ acceptable self u_probabilities ->
   let self' := fst (configure self m_probabilities u_probabilities) in
   snd (configure self m_probabilities u_probabilities) = RaisesValueError /\
   _u_probabilities self' = _u_probabilities self /\
   forall l, truthy m_probabilities = Some l ->
             _m_probabilities self' = Some l).
Proof.
  rewrite configure_cases. split.
  - intros Hm. destruct (acceptable_dec self m_probabilities);
      [contradiction|reflexivity].
  - intros Hm Hu.
    destruct (acceptable_dec self m_probabilities); [|contradiction].
    destruct (acceptable_dec self u_probabilities); [contradiction|].
    simpl. split; [reflexivity|]. unfold with_m.
    destruct (truthy m_probabilities) as [l|]; simpl.
    + split; [reflexivity|]. intros l' Hl. exact Hl.
    + split; [reflexivity|]. intros l' Hl. discriminate.
Qed.

Lemma truthy_idem (v : option (list Q)) l :
  truthy v = Some l -> truthy (Some l) = Some l.
Proof.
  destruct v as [[|x r]|]; simpl; intros H; inversion H; reflexivity.
Qed.

Lemma set_m_keeps self m :
  acceptable self (_m_probabilities self) ->
  acceptable self (_u_probabilities self) ->
  let self' := fst (set_m_probabilities self m) in
  create_comparison_levels self' = create_comparison_levels self /\
  acceptable self' (_m_probabilities self') /\
  acceptable self' (_u_probabilities self').
Proof.
  intros Hm0 Hu0. destruct (acceptable_dec self m) as [Hm|Hm].
  - rewrite (set_m_accepted self m Hm). simpl.
    destruct (truthy m) as [l|] eqn:Hl; [|auto]. simpl.
    split; [reflexivity|]. split; [|exact Hu0].
    intros l' Hl'. rewrite (truthy_idem m l Hl) in Hl'.
    inversion Hl'; subst l'. exact (Hm l Hl).
  - rewrite (set_m_rejected self m Hm). simpl. auto.
Qed.

Lemma set_u_keeps self u :
  acceptable self (_m_probabilities self) ->
  acceptable self (_u_probabilities self) ->
  let self' := fst (set_u_probabilities self u) in
  create_comparison_levels self' = create_comparison_levels self /\
  acceptable self' (_m_probabilities self') /\
  acceptable self' (_u_probabilities self').
Proof.
  intros Hm0 Hu0. destruct (acceptable_dec self u) as [Hu|Hu].
  - rewrite (set_u_accepted self u Hu). simpl.
    destruct (truthy u) as [l|] eqn:Hl; [|auto]. simpl.
    split; [reflexivity|]. split; [exact Hm0|].
    intros l' Hl'. rewrite (truthy_idem u l Hl) in Hl'.
    inversion Hl'; subst l'. exact (Hu l Hl).
  - rewrite (set_u_rejected self u Hu). simpl. auto.
Qed.

Lemma configure_keeps self m u :
  acceptable self (_m_probabilities self) ->
  acceptable self (_u_probabilities self) ->
  let self' := fst (configure self m u) in
  create_comparison_levels self' = create_comparison_levels self /\
  acceptable self' (_m_probabilities self') /\
  acceptable self' (_u_probabilities self').
Proof.
  intros Hm0 Hu0. pose proof (set_m_keeps self m Hm0 Hu0) as H1.
  unfold configure. cbv zeta in *.
  destruct (set_m_probabilities self m) as [self1 [|]]; simpl in H1;
    [|exact H1].
  destruct H1 as [Hl1 [Hm1 Hu1]].
  destruct (set_u_keeps self1 u Hm1 Hu1) as [Hl2 H2].
  split; [congruence|exact H2].
Qed.

Lemma configure_each_keeps calls : forall self,
  acceptable self (_m_probabilities self) ->
  acceptable self (_u_probabilities self) ->
  let self' := configure_each self calls in
  create_comparison_levels self' = create_comparison_levels self /\
  acceptable self' (_m_probabilities self') /\
  acceptable self' (_u_probabilities self').
Proof.
  induction calls as [|[m u] rest IH]; intros self Hm Hu; [simpl; auto|].
  destruct (configure_keeps self m u Hm Hu) as [Hl [Hm1 Hu1]].
  destruct (IH _ Hm1 Hu1) as [Hl' H']. cbv zeta. simpl.
  split; [congruence|exact H'].
Qed.

Section OnePass.

Variable configure_level :
  ComparisonLevelCreator -> option Q -> ComparisonLevelCreator.
Variable get : ComparisonLevelCreator -> option Q.

Hypothesis get_some :
  forall cl v, get (configure_level cl (Some v)) = Some v.
Hypothesis get_none : forall cl, get (configure_level cl None) = get cl.
Hypothesis null_configure :
  forall cl v, is_null_level (configure_level cl v) = is_null_level cl.

(** With one value for each level that is not a null level, a pass over
    the levels raises nothing and uses up the list. *)
Lemma pass_ok values levels :
  List.length values = List.length (filter non_null levels) ->
  exists levels',
    configure_all configure_level values levels = Ok levels' /\
    Forall2 (fun cl cl' => exists v, cl' = configure_level cl v)
            levels levels' /\
    map get (filter non_null levels') = map Some values.
Proof.
  intros Hlen.
  destruct (configure_all configure_level values levels) as [levels'|e]
    eqn:Hrun.
  - destruct (configure_all_ok configure_level get get_some get_none
                null_configure levels values levels' Hrun)
      as [Hall [_ [Hget _]]].
    exists levels'. split; [reflexivity|]. split; [exact Hall|].
    rewrite Hget, <- Hlen, firstn_all. reflexivity.
  - destruct (configure_all_raise configure_level levels values e Hrun)
      as [_ Hlt].
    lia.
Qed.

End OnePass.

Lemma levels_configured self :
  acceptable self (_m_probabilities self) ->
  acceptable self (_u_probabilities self) ->
  exists levels,
    get_configured_comparison_levels self = Ok levels /\
    map is_null_level levels =
      map is_null_level (create_comparison_levels self) /\
    (forall l, truthy (_m_probabilities self) = Some l ->
               map m_probability (filter non_null levels) = map Some l) /\
    (forall l, truthy (_u_probabilities self) = Some l ->
               map u_probability (filter non_null levels) = map Some l).
Proof.
  intros Hm Hu. unfold get_configured_comparison_levels. cbv zeta.
  pose proof m_null_configure as Hnull_m.
  pose proof u_null_configure as Hnull_u.
  assert (Hfirst : exists l1,
            match truthy (_m_probabilities self) with
            | Some m_values =>
                configure_all configure_m_probability m_values
                  (create_comparison_levels self)
            | None => Ok (create_comparison_levels self)
            end = Ok l1 /\
            map is_null_level l1 =
              map is_null_level (create_comparison_levels self) /\
            forall l, truthy (_m_probabilities self) = Some l ->
                      map m_probability (filter non_null l1) = map Some l).
  { destruct (truthy (_m_probabilities self)) as [mv|] eqn:Hmv.
    - destruct (pass_ok configure_m_probability m_probability
                  m_get_some m_get_none Hnull_m mv
                  (create_comparison_levels self) (Hm mv Hmv))
        as [l1 [Hrun [Hall Hget]]].
      exists l1. split; [exact Hrun|]. split.
      + exact (configured_null_flags _ _ _ Hnull_m Hall).
      + intros l Hl. inversion Hl; subst l. exact Hget.
    - exists (create_comparison_levels self).
      split; [reflexivity|]. split; [reflexivity|]. discriminate. }
  destruct Hfirst as [l1 [Hrun1 [Hnull1 Hget1]]]. rewrite Hrun1. simpl.
  destruct (truthy (_u_probabilities self)) as [uv|] eqn:Huv.
  - assert (Hlen : List.length uv = List.length (filter non_null l1)).
    { rewrite (filter_non_null_same _ _ Hnull1). exact (Hu uv Huv). }
    destruct (pass_ok configure_u_probability u_probability
                u_get_some u_get_none Hnull_u uv l1 Hlen)
      as [l2 [Hrun [Hall Hget]]].
    rewrite Hrun. simpl. exists l2. split; [reflexivity|]. split.
    + rewrite (configured_null_flags _ _ _ Hnull_u Hall). exact Hnull1.
    + split.
      * intros l Hl.
        rewrite (configured_filter_field m_probability
                   configure_u_probability l1 l2
                   u_keeps_m Hnull_u Hall).
        exact (Hget1 l Hl).
      * intros l Hl. inversion Hl; subst l. exact Hget.
  - exists l1. split; [reflexivity|]. split; [exact Hnull1|].
    split; [exact Hget1|]. discriminate.
Qed.

(** Property X18.
    The length checks of the setters make the levels configurable.  On a
    creator whose stored lists are acceptable (one on which nothing was
    ever stored, for instance), after any series of [configure] calls,
    rejected ones included, [get_configured_comparison_levels] returns,
    and the levels that are not null levels carry the stored m and u
    probabilities, all of them and in order.  [configure] of a level is as
    modelled in [ComparisonCreator]. *)
Theorem configure_then_get_configured_comparison_levels
  (self : ComparisonCreator)
  (calls : list (option (list Q) * option (list Q))) :
  acceptable self (_m_probabilities self) ->
  acceptable self (_u_probabilities self) ->
  let self' := configure_each self calls in
  exists levels,
    get_configured_comparison_levels self' = Ok levels /\
    map is_null_level levels =
      map is_null_level (create_comparison_levels self) /\
    (forall l, truthy (_m_probabilities self') = Some l ->
               map m_probability (filter non_null levels) = map Some l) /\
    (forall l, truthy (_u_probabilities self') = Some l ->
               map u_probability (filter non_null levels) = map Some l).
Proof.
  intros Hm Hu self'.
  destruct (configure_each_keeps calls self Hm Hu) as [Hl [Hm' Hu']].
  fold self' in Hl, Hm', Hu'.
  destruct (levels_configured self' Hm' Hu') as [levels [Hrun [Hnull H]]].
  exists levels. split; [exact Hrun|]. split; [|exact H].
  rewrite Hnull, Hl. reflexivity.
Qed.

Lemma configure_then_get_configured_comparison_levels_witness :
  exists levels,
    get_configured_comparison_levels
      (configure_each
         (mk_creator
            [mk_level_creator "null" true None None;
             mk_level_creator "exact" false None None;
             mk_level_creator "else" false None None]
            None None)
         [(Some [9 # 10; 1 # 10], Some [1 # 2]);
          (None, Some [1 # 100; 99 # 100])]) = Ok levels /\
    map is_null_level levels = [true; false; false].
Proof.
  destruct (configure_then_get_configured_comparison_levels
              (mk_creator
                 [mk_level_creator "null" true None None;
                  mk_level_creator "exact" false None None;
                  mk_level_creator "else" false None None]
                 None None)
              [(Some [9 # 10; 1 # 10], Some [1 # 2]);
               (None, Some [1 # 100; 99 # 100])])
    as [levels [Hrun [Hnull _]]].
  - intros l H. discriminate.
  - intros l H. discriminate.
  - exists levels. split; [exact Hrun|exact Hnull].
Defined.

End ComparisonCreatorMore.
